(** * memory-mcp: a shallow embedding of the memory lifecycle engine

    The development follows the Python sources:
    - [utils.py]   identity and normalisation,
    - [llm.py]     the segmentation and arbitration gateways,
    - [db.py]      the ingestion pipeline and its batched persistence,
    - [server.py]  the hourly TTL daemon,
    - [tools/context.py] the history traversal.

    Python [str] values are sequences of Unicode code points; a code point
    is a natural number.  Tables with a primary key are finite maps, the
    edge table (whose primary key is the whole triple) is a finite set. *)

From Stdlib Require Import QArith.
From stdpp Require Import gmap list sorting strings.

Local Open Scope N_scope.

(** ** Python strings *)

Abbreviation str := (list N).

(** A literal of the source, as code points. *)
Definition lit (s : string) : str :=
  Ascii.N_of_ascii <$> String.list_ascii_of_string s.
Arguments lit : simpl never.

(** [str.isspace] on one code point: the whitespace table of CPython
    ([_PyUnicode_IsWhitespace]). *)
Definition py_isspace (c : N) : bool :=
  ((9 <=? c) && (c <=? 13)) || ((28 <=? c) && (c <=? 32))
  || (c =? 133) || (c =? 160) || (c =? 5760)
  || ((8192 <=? c) && (c <=? 8202))
  || (c =? 8232) || (c =? 8233) || (c =? 8239) || (c =? 8287) || (c =? 12288).

Fixpoint lstrip (s : str) : str :=
  match s with
  | [] => []
  | c :: s' => if py_isspace c then lstrip s' else s
  end.

Definition rstrip (s : str) : str := reverse (lstrip (reverse s)).

(** [s.strip()] *)
Definition strip (s : str) : str := rstrip (lstrip s).

(** [s.split()] without a separator: runs of whitespace separate the words
    and no empty word is produced.  [cur] is the word being read, reversed. *)
Fixpoint split_go (cur : str) (s : str) : list str :=
  match s with
  | [] => if cur is [] then [] else [reverse cur]
  | c :: s' =>
      if py_isspace c
      then (if cur is [] then split_go [] s' else reverse cur :: split_go [] s')
      else split_go (c :: cur) s'
  end.

Definition split (s : str) : list str := split_go [] s.

(** [sep.join(ws)] *)
Fixpoint join (sep : str) (ws : list str) : str :=
  match ws with
  | [] => []
  | [w] => w
  | w :: ws' => w ++ sep ++ join sep ws'
  end.

Definition SPACE : str := [32].

(** A word: what [split] returns. *)
Definition is_word (w : str) : Prop := w ≠ [] ∧ Forall (λ c, py_isspace c = false) w.

(** [text[:n]] and [text[-n:]] for [0 < n]. *)
Definition slice_to (n : nat) (s : str) : str := take n s.
Definition slice_last (n : nat) (s : str) : str :=
  if decide (n = 0)%nat then s else drop (length s - n) s.

(** [truncate_text] of utils.py *)
Definition truncate_text (text : str) (max_length : nat) : str :=
  if decide (length text ≤ max_length)%nat then text
  else
    let half := (max_length / 2)%nat in
    slice_to half text ++ [10] ++ lit "...[TRUNCATED]..."%string ++ [10]
      ++ slice_last half text.

(** ** Identity and normalisation (utils.py) *)

(** A 128-bit identifier. *)
Abbreviation UUID := N.

Section Identity.
(** [str.lower] and [uuid.uuid5(uuid.NAMESPACE_OID, ·)] belong to the
    Python library; the development is parametric in them. *)
Variable py_lower : str → str.
Variable uuid5_oid : str → UUID.

(** The [normalized] local of [generate_deterministic_id]. *)
Definition normalize (text : str) : str :=
  py_lower (join SPACE (split (strip text))).

Definition generate_deterministic_id (text : str) : UUID :=
  uuid5_oid (normalize text).
End Identity.

(** ASCII lower-casing, the restriction of [str.lower] to code points
    below 128; [sanitize_ltree_label] only ever lower-cases such text. *)
Definition ascii_lower_char (c : N) : N :=
  if (65 <=? c) && (c <=? 90) then c + 32 else c.
Definition ascii_lower (s : str) : str := ascii_lower_char <$> s.

(** [sanitize_ltree_label]: [re.sub(r'[^a-zA-Z0-9_]', '_', text)], then
    [.strip('_')], then [.lower()] (on ASCII text by then), and the empty
    result becomes ["unknown"]. *)
Definition is_label_char (c : N) : bool :=
  ((97 <=? c) && (c <=? 122)) || ((65 <=? c) && (c <=? 90))
  || ((48 <=? c) && (c <=? 57)) || (c =? 95).

Fixpoint lstrip_char (x : N) (s : str) : str :=
  match s with
  | [] => []
  | c :: s' => if c =? x then lstrip_char x s' else s
  end.

Definition strip_char (x : N) (s : str) : str :=
  reverse (lstrip_char x (reverse (lstrip_char x s))).

Definition sanitize_ltree_label (text : str) : str :=
  let cleaned :=
    ascii_lower (strip_char 95 ((λ c, if is_label_char c then c else 95) <$> text)) in
  if cleaned is [] then lit "unknown" else cleaned.

(** [s.split(sep)] for a one-character separator: empty pieces are kept. *)
Fixpoint split_on (sep : N) (cur : str) (s : str) : list str :=
  match s with
  | [] => [reverse cur]
  | c :: s' =>
      if c =? sep then reverse cur :: split_on sep [] s'
      else split_on sep (c :: cur) s'
  end.

(** [sanitize_ltree_path]; 46 is the dot, 47 the slash, 92 the backslash. *)
Definition sanitize_ltree_path (path : str) : str :=
  let path := (λ c, if (c =? 47) || (c =? 92) then 46 else c) <$> path in
  let segments := split_on 46 [] path in
  let sanitized :=
    sanitize_ltree_label <$> filter (λ s, strip s ≠ []) segments in
  let sanitized :=
    match sanitized with
    | s0 :: rest => if decide (s0 = lit "user") then lit "profile" :: rest else sanitized
    | [] => []
    end in
  let sanitized := take 6 sanitized in
  if sanitized is [] then lit "reference.unknown" else join [46] sanitized.

(** ** Floats

    Thresholds and similarities are Python floats and PostgreSQL [float8]
    values.  Only their order matters here: a float is NaN, an infinity or
    a rational. *)
Inductive pyfloat := FNaN | FNegInf | FFin (q : Q) | FPosInf.

(** Python's [a < b] and [a <= b]: every comparison with NaN is false. *)
Definition flt (a b : pyfloat) : bool :=
  match a, b with
  | FNaN, _ | _, FNaN => false
  | FNegInf, FNegInf => false
  | FNegInf, _ => true
  | _, FNegInf => false
  | FPosInf, _ => false
  | _, FPosInf => true
  | FFin x, FFin y => negb (Qle_bool y x)
  end.

Definition fle (a b : pyfloat) : bool :=
  match a, b with
  | FNaN, _ | _, FNaN => false
  | FNegInf, _ => true
  | _, FNegInf => false
  | _, FPosInf => true
  | FPosInf, _ => false
  | FFin x, FFin y => Qle_bool x y
  end.

Definition fgt (a b : pyfloat) : bool := flt b a.

(** The sort order of [float8] in PostgreSQL: total, NaN above everything. *)
Definition f8_le (a b : pyfloat) : bool :=
  match a, b with
  | _, FNaN => true
  | FNaN, _ => false
  | _, _ => fle a b
  end.

(** SQL [1 - d]; rounding is not modelled. *)
Definition one_minus (d : pyfloat) : pyfloat :=
  match d with
  | FNaN => FNaN
  | FNegInf => FPosInf
  | FPosInf => FNegInf
  | FFin q => FFin (1 - q)
  end.

(** ** The store (db.py, [init_db]) *)

(** Instants are microseconds since the epoch. *)
Abbreviation time := Z.
Definition DAY : Z := 86400000000.

Abbreviation embedding := (list pyfloat).

(** The recognised keys of the [metadata] JSON object. *)
Record metadata := {
  md_ttl_days : option Z;
  md_tags : option (list str);
  md_volatility_class : option str;
}.

Definition empty_metadata : metadata :=
  {| md_ttl_days := None; md_tags := None; md_volatility_class := None |}.

(** A row of [memories], without its key [id].  [lexical_search] is a
    function of [content] and is left out. *)
Record memory := {
  m_content : str;
  m_embedding : embedding;
  m_category_path : str;
  m_supersedes_id : option UUID;
  m_archived_at : option time;
  m_metadata : metadata;
  m_created_at : time;
  m_updated_at : time;
  m_last_accessed_at : time;
  m_verify_after : option time;
}.

Definition set_supersedes_id (v : option UUID) (now : time) (m : memory) : memory :=
  {| m_content := m_content m; m_embedding := m_embedding m;
     m_category_path := m_category_path m; m_supersedes_id := v;
     m_archived_at := m_archived_at m; m_metadata := m_metadata m;
     m_created_at := m_created_at m; m_updated_at := now;
     m_last_accessed_at := m_last_accessed_at m;
     m_verify_after := m_verify_after m |}.

Definition set_updated_at (now : time) (m : memory) : memory :=
  {| m_content := m_content m; m_embedding := m_embedding m;
     m_category_path := m_category_path m; m_supersedes_id := m_supersedes_id m;
     m_archived_at := m_archived_at m; m_metadata := m_metadata m;
     m_created_at := m_created_at m; m_updated_at := now;
     m_last_accessed_at := m_last_accessed_at m;
     m_verify_after := m_verify_after m |}.

Definition set_last_accessed_at (now : time) (m : memory) : memory :=
  {| m_content := m_content m; m_embedding := m_embedding m;
     m_category_path := m_category_path m; m_supersedes_id := m_supersedes_id m;
     m_archived_at := m_archived_at m; m_metadata := m_metadata m;
     m_created_at := m_created_at m; m_updated_at := m_updated_at m;
     m_last_accessed_at := now;
     m_verify_after := m_verify_after m |}.

Definition set_archived_at (now : time) (m : memory) : memory :=
  {| m_content := m_content m; m_embedding := m_embedding m;
     m_category_path := m_category_path m; m_supersedes_id := m_supersedes_id m;
     m_archived_at := Some now; m_metadata := m_metadata m;
     m_created_at := m_created_at m; m_updated_at := m_updated_at m;
     m_last_accessed_at := m_last_accessed_at m;
     m_verify_after := m_verify_after m |}.

(** [relation_type], with its CHECK constraint. *)
Inductive relation := supersedes | relates_to | depends_on | sequence_next.

#[global] Instance relation_eq_dec : EqDecision relation.
Proof. solve_decision. Defined.

#[global] Instance relation_countable : Countable relation.
Proof.
  refine (inj_countable'
    (λ r, match r with
          | supersedes => 0 | relates_to => 1 | depends_on => 2 | sequence_next => 3
          end)
    (λ n, match n with
          | 0 => supersedes | 1 => relates_to | 2 => depends_on | _ => sequence_next
          end) _).
  by intros [].
Defined.

(** A row of [memory_edges]: (source_id, target_id, relation_type). *)
Abbreviation edge := (UUID * UUID * relation)%type.
Definition source_id (e : edge) : UUID := e.1.1.
Definition target_id (e : edge) : UUID := e.1.2.
Definition relation_type (e : edge) : relation := e.2.

Inductive job_status := pending | processing | complete | failed.

#[global] Instance job_status_eq_dec : EqDecision job_status.
Proof. solve_decision. Defined.

(** A row of [ingestion_staging], without its key [job_id]. *)
Record job := {
  j_raw_text : str;
  j_ttl_days : option Z;
  j_status : job_status;
  j_created_at : time;
  j_error : option str;
}.

(** A row of [context_store], without its key [key]. *)
Record context_entry := {
  c_value : str;
  c_scope : str;
  c_created_at : time;
  c_updated_at : time;
  c_expires_at : time;
}.

Record store := {
  memories : gmap UUID memory;
  memory_edges : gset edge;
  ingestion_staging : gmap UUID job;
  context_store : gmap str context_entry;
}.

Definition with_memories (ms : gmap UUID memory) (st : store) : store :=
  {| memories := ms; memory_edges := memory_edges st;
     ingestion_staging := ingestion_staging st; context_store := context_store st |}.

Definition with_edges (es : gset edge) (st : store) : store :=
  {| memories := memories st; memory_edges := es;
     ingestion_staging := ingestion_staging st; context_store := context_store st |}.

(** [supersedes_id IS NULL AND archived_at IS NULL] *)
Definition active (m : memory) : bool :=
  bool_decide (m_supersedes_id m = None) && bool_decide (m_archived_at m = None).

(** The labels of an [ltree] value, and [a <@ b]: [a] is [b] or one of its
    descendants. *)
Definition ltree_of (s : str) : list str :=
  if s is [] then [] else split_on 46 [] s.

Definition ltree_descendant (a b : str) : bool :=
  bool_decide (ltree_of b `prefix_of` ltree_of a).

(** ** Effects

    A run produces a value or raises, and leaves a trace of the calls it
    made to the outside (the LLM gateway and the primer synthesizer). *)
Inductive py_error :=
  | TypeError_NoneSubscript   (* [similar_mem["id"]] with [similar_mem is None] *)
  | EmbedError                (* [embed] raised: retries exhausted or wrong dimension *)
  | ValueError_NoSections     (* "No sections produced from input text" *)
  | PostgresError.            (* a statement that the server or the connection fails *)

Inductive event :=
  | EvSegment (text taxonomy : str)
  | EvEmbed (text : str)
  | EvArbitrate (old_text new_text : str)
  | EvPrimer (profile_changed : bool).

Inductive outcome (A : Type) :=
  | Ok (a : A)
  | Raise (e : py_error).
Arguments Ok {A} a.
Arguments Raise {A} e.

Definition M (A : Type) : Type := list event * outcome A.

Definition raise {A} (e : py_error) : M A := ([], Raise e).
Definition emit (e : event) : M unit := ([e], Ok tt).

#[global] Instance M_ret : MRet M := λ A a, ([], Ok a).
#[global] Instance M_bind : MBind M := λ A B k m,
  match m with
  | (tr, Ok a) => let '(tr', r) := k a in (tr ++ tr', r)
  | (tr, Raise e) => (tr, Raise e)
  end.

(** [asyncio.gather] over the sections: the first exception ends the run. *)
Fixpoint gather {A B} (f : A → M B) (l : list A) : M (list B) :=
  match l with
  | [] => mret []
  | a :: l' => b ← f a; bs ← gather f l'; mret (b :: bs)
  end.

(** ** Sections and section results *)

(** A section dict, with the keys of [SEMANTIC_SECTIONS_SCHEMA]
    ([additionalProperties] is false).  The code reads every key with
    [.get], so each one may be missing.  No code path adds an ["exists"] key
    to a section dict: [process_section] returns a dict of its own. *)
Record section := {
  s_category_path : option str;
  s_content : option str;
  s_tags : option (list str);
  s_volatility_class : option str;
}.

(** [section.get("exists", False)] *)
Definition section_get_exists (s : section) : bool := false.

(** The dict returned by [process_section] when ["exists"] is false. *)
Record insertion := {
  i_id : UUID;
  i_chunk : str;
  i_vec : embedding;
  i_cat_path : str;
  i_metadata : metadata;
  i_supersedes : option UUID;
  i_resolution : option str;
  i_verify_after : option time;
}.

(** The dict returned by [process_section]: ["exists"] is true for the
    first shape, false for the second. *)
Inductive section_result :=
  | Duplicate (id duplicate_of : UUID)
  | Insertion (i : insertion).

Definition item_id (item : section_result) : UUID :=
  match item with Duplicate id _ => id | Insertion i => i_id i end.

Definition item_exists (item : section_result) : bool :=
  match item with Duplicate _ _ => true | Insertion _ => false end.

(** [_VOLATILITY_DELTAS] and [_compute_verify_after]: [None] in the table
    is the ["static"] class. *)
Definition _VOLATILITY_DELTAS (volatility_class : str) : option (option Z) :=
  if decide (volatility_class = lit "high") then Some (Some (7 * DAY)%Z)
  else if decide (volatility_class = lit "medium") then Some (Some (30 * DAY)%Z)
  else if decide (volatility_class = lit "low") then Some (Some (365 * DAY)%Z)
  else if decide (volatility_class = lit "static") then Some None
  else None.

Definition _compute_verify_after (volatility_class : str) (from_dt : time)
  : option time :=
  match default (Some (365 * DAY)%Z) (_VOLATILITY_DELTAS volatility_class) with
  | Some delta => if decide (delta = 0%Z) then None else Some (from_dt + delta)%Z
  | None => None
  end.

(** [is_profile_path]: [category_path.startswith("profile")] *)
Definition is_profile_path (category_path : str) : bool :=
  bool_decide (lit "profile" `prefix_of` category_path).

Definition CHUNK_BATCH_SIZE : nat := 10.

(** ** The LLM gateway (llm.py) and the ingestion pipeline (db.py) *)

Section Pipeline.
(** Python library functions. *)
Variable py_lower : str → str.
Variable uuid5_oid : str → UUID.
(** pgvector's [<=>], the cosine distance. *)
Variable cosine_distance : embedding → embedding → pyfloat.
(** The three external capabilities; [None] is a call that raised (after
    the retries), and for the two chat calls also a reply that
    [_parse_json_safe] or the [.get]s reject.  [segment_model] returns the
    value of [parsed.get("sections", [])], [arbitrate_model] the two keys
    of the reply, each possibly missing. *)
Variable embed_model : str → option embedding.
Variable segment_model : str → str → option (list section).
Variable arbitrate_model : str → str → option (option str * option str).
(** What [synthesize_system_primer] does to the store. *)
Variable primer_effect : bool → store → store.
(** config.py *)
Variable EMBED_DIM : nat.
Variables DUP_THRESHOLD CONFLICT_THRESHOLD RELATES_TO_THRESHOLD : pyfloat.
Variable MIN_SECTION_LENGTH : Z.
Variable MAX_TAXONOMY_PATHS : nat.

Definition chunk_id_of (text : str) : UUID :=
  generate_deterministic_id py_lower uuid5_oid text.

(** [embed] *)
Definition embed (text : str) : M embedding :=
  emit (EvEmbed text);;
  match embed_model text with
  | Some vec => if decide (length vec = EMBED_DIM) then mret vec else raise EmbedError
  | None => raise EmbedError
  end.

Definition fallback_section (text : str) : section :=
  {| s_category_path := Some (lit "reference.unknown");
     s_content := Some text;
     s_tags := Some [];
     s_volatility_class := Some (lit "low") |}.

Definition legal_volatility (v : str) : bool :=
  bool_decide (v ∈ [lit "static"; lit "high"; lit "medium"; lit "low"]).

(** The body of the [for s in sections] loop. *)
Definition normalize_section (s : section) : section :=
  let cp := default (lit "reference.unknown") (s_category_path s) in
  let cp := if cp is [] then lit "reference.unknown" else cp in
  let v := default (lit "low") (s_volatility_class s) in
  {| s_category_path := Some (sanitize_ltree_path cp);
     s_content := s_content s;
     s_tags := s_tags s;
     s_volatility_class := Some (if legal_volatility v then v else lit "low") |}.

Definition long_enough (s : section) : Prop :=
  (MIN_SECTION_LENGTH ≤ Z.of_nat (length (strip (default [] (s_content s)))))%Z.

(** [extract_semantic_sections]; it never raises. *)
Definition extract_semantic_sections (text active_taxonomy : str)
  : M (list section) :=
  emit (EvSegment text active_taxonomy);;
  match segment_model text active_taxonomy with
  | Some sections =>
      if sections is [] then mret [fallback_section text]
      else mret (filter long_enough (normalize_section <$> sections))
  | None => mret [fallback_section text]
  end.

(** [evaluate_conflict]; it never raises. *)
Definition evaluate_conflict (old_text new_text : str) : M (str * str) :=
  let safe_old := truncate_text old_text 6000 in
  let safe_new := truncate_text new_text 6000 in
  emit (EvArbitrate safe_old safe_new);;
  match arbitrate_model safe_old safe_new with
  | Some (resolution, updated_text) =>
      mret (default (lit "supersedes") resolution, default new_text updated_text)
  | None => mret (lit "supersedes", new_text)
  end.

(** The nearest-neighbour query of [process_section]: the active rows of
    the subtree, [ORDER BY embedding <=> vec LIMIT 1].  Rows at the same
    distance come in the order of the table scan. *)
Definition by_distance (vec : embedding) (a b : UUID * memory) : Prop :=
  f8_le (cosine_distance (m_embedding a.2) vec)
        (cosine_distance (m_embedding b.2) vec).

Record neighbour := {
  nb_id : UUID;
  nb_content : str;
  nb_similarity : pyfloat;
}.

Definition nearest_neighbour (ms : gmap UUID memory) (vec : embedding)
    (chunk_path : str) : option neighbour :=
  let rows :=
    filter (λ kv, active kv.2 ∧ ltree_descendant (m_category_path kv.2) chunk_path)
           (map_to_list ms) in
  (λ kv, {| nb_id := kv.1; nb_content := m_content kv.2;
            nb_similarity := one_minus (cosine_distance (m_embedding kv.2) vec) |})
    <$> head (merge_sort (by_distance vec) rows).

Definition chunk_metadata_of (base_metadata : metadata) (chunk_tags : list str)
    (chunk_volatility : str) : metadata :=
  {| md_ttl_days := md_ttl_days base_metadata;
     md_tags := if chunk_tags is [] then md_tags base_metadata else Some chunk_tags;
     md_volatility_class := Some chunk_volatility |}.

(** [process_section], against the store as it is before the batches are
    written. *)
Definition process_section (ms : gmap UUID memory) (now : time)
    (base_metadata : metadata) (section : section) : M section_result :=
  let chunk_path := default (lit "reference.unknown") (s_category_path section) in
  let chunk_tags := default [] (s_tags section) in
  let chunk_threshold := DUP_THRESHOLD in
  let chunk_conflict_threshold := CONFLICT_THRESHOLD in
  let chunk_volatility := default (lit "low") (s_volatility_class section) in
  let chunk_verify_after := _compute_verify_after chunk_volatility now in
  let chunk_content := default [] (s_content section) in
  let chunk_id := chunk_id_of chunk_content in
  if ms !! chunk_id is Some _ then mret (Duplicate chunk_id chunk_id)
  else
    vec ← embed chunk_content;
    let similar_mem := nearest_neighbour ms vec chunk_path in
    let similarity :=
      match similar_mem with Some r => nb_similarity r | None => FFin 0 end in
    if fgt similarity chunk_threshold then
      match similar_mem with
      | Some r => mret (Duplicate chunk_id (nb_id r))
      | None => raise TypeError_NoneSubscript
      end
    else if fle chunk_conflict_threshold similarity && fle similarity chunk_threshold then
      match similar_mem with
      | Some r =>
          resolution_result ← evaluate_conflict (nb_content r) chunk_content;
          let final_text := resolution_result.2 in
          final_vec ← embed final_text;
          let insert_id := chunk_id_of final_text in
          mret (Insertion
            {| i_id := insert_id; i_chunk := final_text; i_vec := final_vec;
               i_cat_path := chunk_path;
               i_metadata := chunk_metadata_of base_metadata chunk_tags chunk_volatility;
               i_supersedes := Some (nb_id r);
               i_resolution := Some resolution_result.1;
               i_verify_after := chunk_verify_after |})
      | None => raise TypeError_NoneSubscript
      end
    else
      mret (Insertion
        {| i_id := chunk_id; i_chunk := chunk_content; i_vec := vec;
           i_cat_path := chunk_path;
           i_metadata := chunk_metadata_of base_metadata chunk_tags chunk_volatility;
           i_supersedes := None; i_resolution := None;
           i_verify_after := chunk_verify_after |}).

(** *** Batched persistence *)

(** [INSERT INTO memories ... ON CONFLICT (id) DO UPDATE SET updated_at] *)
Definition upsert_memory (now : time) (i : insertion)
    (ms : gmap UUID memory) : gmap UUID memory :=
  match ms !! i_id i with
  | Some m => <[i_id i := set_updated_at now m]> ms
  | None =>
      <[i_id i :=
          {| m_content := i_chunk i; m_embedding := i_vec i;
             m_category_path := i_cat_path i; m_supersedes_id := None;
             m_archived_at := None; m_metadata := i_metadata i;
             m_created_at := now; m_updated_at := now;
             m_last_accessed_at := now;
             m_verify_after := i_verify_after i |}]> ms
  end.

(** The three edge statements of the supersession step, in order: copy
    the outgoing edges of [old_id] to [new_id], copy the incoming ones
    (both [ON CONFLICT DO NOTHING]), delete every edge touching [old_id]. *)
Definition redirect_outgoing (new_id old_id : UUID) (es : gset edge) : gset edge :=
  es ∪ set_map (λ e : edge, (new_id, target_id e, relation_type e))
               (filter (λ e, source_id e = old_id) es).

Definition redirect_incoming (new_id old_id : UUID) (es : gset edge) : gset edge :=
  es ∪ set_map (λ e : edge, (source_id e, new_id, relation_type e))
               (filter (λ e, target_id e = old_id) es).

Definition delete_touching (old_id : UUID) (es : gset edge) : gset edge :=
  filter (λ e, ¬ (source_id e = old_id ∨ target_id e = old_id)) es.

(** The body of [if item["supersedes"]:]. *)
Definition supersede (now : time) (new_id old_id : UUID) (st : store) : store :=
  let st := with_memories
              (alter (set_supersedes_id (Some new_id) now) old_id (memories st)) st in
  with_edges
    (delete_touching old_id
       (redirect_incoming new_id old_id
          (redirect_outgoing new_id old_id (memory_edges st)))) st.

(** SQL [a > b] on [float8]. *)
Definition f8_gt (a b : pyfloat) : bool := negb (f8_le a b).

Definition similarity_to (vec : embedding) (m : memory) : pyfloat :=
  one_minus (cosine_distance (m_embedding m) vec).

Definition by_similarity_desc (vec : embedding) (a b : UUID * memory) : Prop :=
  f8_le (similarity_to vec b.2) (similarity_to vec a.2).

(** The [relates_to] statement: at most six targets. *)
Definition relates_to_targets (insert_id : UUID) (vec : embedding)
    (cat_path : str) (ms : gmap UUID memory) : list UUID :=
  let rows :=
    filter (λ kv, kv.1 ≠ insert_id ∧ active kv.2
                  ∧ (m_category_path kv.2 = cat_path
                     ∨ f8_gt (similarity_to vec kv.2) RELATES_TO_THRESHOLD))
           (map_to_list ms) in
  (take 6 (merge_sort (by_similarity_desc vec) rows)).*1.

Definition insert_relates_to (insert_id : UUID) (vec : embedding)
    (cat_path : str) (st : store) : store :=
  with_edges
    (memory_edges st
       ∪ list_to_set ((λ t, (insert_id, t, relates_to))
                        <$> relates_to_targets insert_id vec cat_path (memories st)))
    st.

(** The loop variables [first_id] and [prev_id]. *)
Record cursor := {
  first_id : option UUID;
  prev_id : option UUID;
}.

(** [item.get("duplicate_of", item["id"]) if item["exists"] else item["id"]] *)
Definition effective_id_of (item : section_result) : UUID :=
  match item with
  | Duplicate _ duplicate_of => duplicate_of
  | Insertion i => i_id i
  end.

(** The body of [for item in batch]. *)
Definition persist_item (now : time) (acc : cursor * store)
    (item : section_result) : cursor * store :=
  let '(cur, st) := acc in
  let effective_id := effective_id_of item in
  let first_id' := if first_id cur is None then Some effective_id else first_id cur in
  match item with
  | Insertion i =>
      let insert_id := i_id i in
      let st := with_memories (upsert_memory now i (memories st)) st in
      let st :=
        match i_supersedes i with
        | Some old_id => supersede now insert_id old_id st
        | None => st
        end in
      let st := insert_relates_to insert_id (i_vec i) (i_cat_path i) st in
      let st :=
        match prev_id cur with
        | Some p =>
            if decide (p ≠ effective_id)
            then with_edges (memory_edges st ∪ {[ (p, effective_id, sequence_next) ]}) st
            else st
        | None => st
        end in
      ({| first_id := first_id'; prev_id := Some effective_id |}, st)
  | Duplicate _ _ =>
      ({| first_id := first_id'; prev_id := prev_id cur |},
       with_memories (alter (set_last_accessed_at now) effective_id (memories st)) st)
  end.

(** [section_data[batch_start:batch_start + CHUNK_BATCH_SIZE]] for
    [batch_start] in [range(0, len(section_data), CHUNK_BATCH_SIZE)]. *)
Fixpoint batches_go {A} (fuel : nat) (l : list A) : list (list A) :=
  match fuel with
  | O => []
  | S fuel' =>
      if l is [] then []
      else take CHUNK_BATCH_SIZE l :: batches_go fuel' (drop CHUNK_BATCH_SIZE l)
  end.

Definition batches {A} (l : list A) : list (list A) := batches_go (length l) l.

(** One batch is one transaction; no statement of the loop is modelled
    as failing, so a transaction is the fold of its items. *)
Definition persist_batch (now : time) (acc : cursor * store)
    (batch : list section_result) : cursor * store :=
  foldl (persist_item now) acc batch.

Definition persist_all (now : time) (st : store)
    (section_data : list section_result) : cursor * store :=
  foldl (persist_batch now) ({| first_id := None; prev_id := None |}, st)
        (batches section_data).

(** *** The whole run *)

(** The taxonomy query: the category paths of the active rows with their
    counts, [ORDER BY cnt DESC LIMIT MAX_TAXONOMY_PATHS], one per line. *)
Definition by_count_desc (a b : str * nat) : Prop := (b.2 ≤ a.2)%nat.

#[local] Instance by_count_desc_dec a b : Decision (by_count_desc a b).
Proof. unfold by_count_desc. apply _. Defined.

Definition taxonomy_rows (ms : gmap UUID memory) : list (str * nat) :=
  let paths := m_category_path <$> filter (λ m, active m) (map_to_list ms).*2 in
  let counted :=
    (λ p, (p, length (filter (λ q, q = p) paths))) <$> remove_dups paths in
  take MAX_TAXONOMY_PATHS
    (merge_sort by_count_desc counted).

Definition default_taxonomy : str :=
  join [10] [lit "profile"; lit "projects"; lit "organizations"; lit "concepts";
             lit "reference"; lit "health"; lit "lifestyle"; lit "psychology"].

Definition active_taxonomy_of (ms : gmap UUID memory) : str :=
  let active_taxonomy := join [10] (taxonomy_rows ms).*1 in
  if strip active_taxonomy is [] then default_taxonomy else active_taxonomy.

(** The generator of [profile_changed]: it runs over [sections], the
    dicts returned by the segmenter. *)
Definition profile_changed_of (sections : list section) : bool :=
  existsb (λ section, is_profile_path (default [] (s_category_path section)))
          (filter (λ section, section_get_exists section = false) sections).

(** [process_and_insert_memory]: the store it leaves, the calls it made
    and the id it returns or the exception it raises. *)
Definition process_and_insert_memory (text : str) (ttl_days : option Z)
    (now : time) (st : store) : store * M UUID :=
  let active_taxonomy := active_taxonomy_of (memories st) in
  let base_metadata :=
    {| md_ttl_days := ttl_days; md_tags := None; md_volatility_class := None |} in
  let evaluated :=
    sections ← extract_semantic_sections text active_taxonomy;
    section_data ← gather (process_section (memories st) now base_metadata) sections;
    mret (sections, section_data) in
  match evaluated with
  | (tr, Raise e) => (st, (tr, Raise e))
  | (tr, Ok (sections, section_data)) =>
      let '(cur, st') := persist_all now st section_data in
      match first_id cur with
      | None => (st', (tr, Raise ValueError_NoSections))
      | Some fid =>
          let profile_changed := profile_changed_of sections in
          (primer_effect profile_changed st',
           (tr ++ [EvPrimer profile_changed], Ok fid))
      end
  end.
End Pipeline.

#[global] Instance long_enough_dec n s : Decision (long_enough n s).
Proof. unfold long_enough. apply _. Defined.

(** ** The TTL daemon (server.py, [_ttl_daemon]) *)

(** The four statements of one tick.  Each is run by [conn.execute] on a
    connection taken from the pool, outside any [conn.transaction()]: it
    commits on its own, and reads its own [NOW()]. *)
Inductive statement := SoftArchive | HardDelete | PurgeStaging | PurgeContext.

Record tick_clock := {
  now_soft : time;
  now_hard : time;
  now_staging : time;
  now_context : time;
}.

Definition ttl_elapsed (now : time) (m : memory) : bool :=
  bool_decide (m_archived_at m = None)
  && match md_ttl_days (m_metadata m) with
     | Some d => bool_decide (m_updated_at m + d * DAY < now)%Z
     | None => false
     end.

(** [UPDATE memories SET archived_at = NOW() WHERE ...]; the count is the
    number in the command tag. *)
Definition soft_archive (now : time) (st : store) : nat * store :=
  (length (filter (λ kv, ttl_elapsed now kv.2) (map_to_list (memories st))),
   with_memories
     ((λ m, if ttl_elapsed now m then set_archived_at now m else m) <$> memories st)
     st).

Definition archive_expired (now : time) (m : memory) : bool :=
  match m_archived_at m with
  | Some a => bool_decide (a < now - 30 * DAY)%Z
  | None => false
  end.

(** [DELETE FROM memories WHERE ...]; the edges of a deleted row go with it
    ([ON DELETE CASCADE]) and are not counted. *)
Definition hard_delete (now : time) (st : store) : nat * store :=
  let gone (id : UUID) : bool :=
    match memories st !! id with
    | Some m => archive_expired now m
    | None => false
    end in
  (length (filter (λ kv, archive_expired now kv.2) (map_to_list (memories st))),
   {| memories := filter (λ kv, archive_expired now kv.2 = false) (memories st);
      memory_edges :=
        filter (λ e, gone (source_id e) = false ∧ gone (target_id e) = false)
               (memory_edges st);
      ingestion_staging := ingestion_staging st;
      context_store := context_store st |}).

Definition staging_finished (retention_days : Z) (now : time) (j : job) : bool :=
  bool_decide (j_status j = complete ∨ j_status j = failed)
  && bool_decide (j_created_at j < now - DAY * retention_days)%Z.

Definition purge_staging (retention_days : Z) (now : time) (st : store)
  : nat * store :=
  (length (filter (λ kv, staging_finished retention_days now kv.2)
                  (map_to_list (ingestion_staging st))),
   {| memories := memories st; memory_edges := memory_edges st;
      ingestion_staging :=
        filter (λ kv, staging_finished retention_days now kv.2 = false)
               (ingestion_staging st);
      context_store := context_store st |}).

Definition purge_context (now : time) (st : store) : nat * store :=
  (length (filter (λ kv, (c_expires_at kv.2 < now)%Z) (map_to_list (context_store st))),
   {| memories := memories st; memory_edges := memory_edges st;
      ingestion_staging := ingestion_staging st;
      context_store := filter (λ kv, ¬ (c_expires_at kv.2 < now)%Z) (context_store st) |}).

Section Daemon.
Variable primer_effect : bool → store → store.
Variable STAGING_RETENTION_DAYS : Z.
(** Which statements raise during this tick (a lost connection, the
    30 s command timeout). *)
Variable raises : statement → bool.

(** The body of the [try] of one iteration.  [Raise] is the exception the
    [except Exception] clause logs; the store is what the database holds
    afterwards. *)
Definition ttl_tick (clk : tick_clock) (st : store) : store * M unit :=
  if raises SoftArchive then (st, raise PostgresError) else
  let '(soft_count, st) := soft_archive (now_soft clk) st in
  if raises HardDelete then (st, raise PostgresError) else
  let '(hard_count, st) := hard_delete (now_hard clk) st in
  if raises PurgeStaging then (st, raise PostgresError) else
  let '(staging_count, st) := purge_staging STAGING_RETENTION_DAYS (now_staging clk) st in
  if raises PurgeContext then (st, raise PostgresError) else
  let '(context_count, st) := purge_context (now_context clk) st in
  if bool_decide (soft_count ≠ 0 ∨ hard_count ≠ 0 ∨ staging_count ≠ 0)%nat
  then (primer_effect true st, emit (EvPrimer true))
  else (st, mret tt).
End Daemon.

(** ** History traversal (tools/context.py, [trace_history]) *)

(** A row of the recursive CTE [history]. *)
Record history_row := {
  h_id : UUID;
  h_memory : memory;
  h_generation : nat;
}.

(** The non-recursive term: [WHERE id = $1]. *)
Definition history_seed (ms : gmap UUID memory) (target_id : UUID)
  : list history_row :=
  match ms !! target_id with
  | Some m => [{| h_id := target_id; h_memory := m; h_generation := 0 |}]
  | None => []
  end.

(** The recursive term, on the rows of the previous round:
    [memories m JOIN history h ON m.supersedes_id = h.id
     WHERE h.generation < 100]. *)
Definition history_step (ms : gmap UUID memory) (working : list history_row)
  : list history_row :=
  h ← filter (λ h, (h_generation h < 100)%nat) working;
  (λ kv, {| h_id := kv.1; h_memory := kv.2; h_generation := h_generation h + 1 |})
    <$> filter (λ kv, m_supersedes_id kv.2 = Some (h_id h)) (map_to_list ms).

(** [UNION ALL] of the rounds, until a round is empty. *)
Fixpoint history_rounds (fuel : nat) (ms : gmap UUID memory)
    (working : list history_row) : list history_row :=
  match fuel with
  | O => []
  | S fuel' =>
      if working is [] then []
      else working ++ history_rounds fuel' ms (history_step ms working)
  end.

(** The guard [h.generation < 100] empties the round after generation 100:
    102 rounds are enough (see [history_rounds_fuel]). *)
Definition history (ms : gmap UUID memory) (target_id : UUID) : list history_row :=
  history_rounds 102 ms (history_seed ms target_id).

Definition by_created_at (a b : history_row) : Prop :=
  (m_created_at (h_memory a) ≤ m_created_at (h_memory b))%Z.

#[global] Instance by_created_at_dec a b : Decision (by_created_at a b).
Proof. unfold by_created_at. apply _. Defined.

(** [trace_history] for a [memory_id] that parses as a UUID: [None] is the
    "not found" reply, [Some chain] the reply with [version_count] the
    length of [chain]. *)
Definition trace_history (ms : gmap UUID memory) (target_id : UUID)
  : option (list history_row) :=
  let rows := merge_sort by_created_at (history ms target_id) in
  if rows is [] then None else Some rows.

(** ** Concrete runs

    The runs below fix the parameters: ASCII lower-casing, a polynomial
    hash (on 32 bits, to keep the numbers short) for [uuid5],
    one-dimensional embeddings, and a
    distance that reads the stored coordinate (a stored embedding [[d]] is
    at distance [d] of every query).  The thresholds are the defaults of
    config.py. *)
Definition demo_uuid5 (s : str) : UUID :=
  foldl (λ h c, (h * 16777619 + c + 1) mod 4294967296) 2166136261 s.

Definition demo_distance (e v : embedding) : pyfloat :=
  match e with d :: _ => d | [] => FNaN end.

Definition demo_embed (text : str) : option embedding := Some [FFin 0].

(** An arbiter that answers "supersedes" with the new text. *)
Definition demo_arbiter (old_text new_text : str) : option (option str * option str) :=
  Some (Some (lit "supersedes"), Some new_text).

(** An arbiter whose updated text is the old text: nothing of the new text
    survives the arbitration. *)
Definition keep_old_arbiter (old_text new_text : str)
  : option (option str * option str) :=
  Some (Some (lit "supersedes"), Some old_text).

Definition demo_id (text : str) : UUID :=
  generate_deterministic_id ascii_lower demo_uuid5 text.

Definition demo_memory (content : str) (distance : Q) (path : str) (t : time) : memory :=
  {| m_content := content; m_embedding := [FFin distance];
     m_category_path := path; m_supersedes_id := None; m_archived_at := None;
     m_metadata := empty_metadata; m_created_at := t; m_updated_at := t;
     m_last_accessed_at := t; m_verify_after := None |}.

Definition demo_section (content path : str) : section :=
  {| s_category_path := Some path; s_content := Some content;
     s_tags := Some []; s_volatility_class := Some (lit "low") |}.

Definition berlin : str := lit "I live in Berlin and work on the billing service.".
Definition lisbon : str := lit "I moved from Berlin to Lisbon last month.".

(** One stored memory, at the given distance of every query. *)
Definition berlin_store (distance : Q) : gmap UUID memory :=
  {[ demo_id berlin := demo_memory berlin distance (lit "profile.identity") 1000 ]}.

Definition demo_process_section (dup conflict : pyfloat) (arbiter : str → str → option (option str * option str)) :=
  process_section ascii_lower demo_uuid5 demo_distance demo_embed arbiter
    1 dup conflict.

(** An id, and an edge, with [new_id] in the place of [old_id]. *)
Definition substitute (old_id new_id x : UUID) : UUID :=
  if decide (x = old_id) then new_id else x.

Definition substitute_edge (old_id new_id : UUID) (e : edge) : edge :=
  (substitute old_id new_id (source_id e), substitute old_id new_id (target_id e),
   relation_type e).

Definition touches (id : UUID) (e : edge) : Prop :=
  source_id e = id ∨ target_id e = id.

Definition identity_path : str := lit "profile.identity".


Definition acme : str := lit "Acme is the company that owns the billing service.".

(** Two memories and two edges between them. *)
Definition linked_store : store :=
  {| memories :=
       {[ demo_id berlin := demo_memory berlin 0.1 identity_path 1000;
          demo_id acme := demo_memory acme 0.9 (lit "organizations.acme") 1000 ]};
     memory_edges :=
       {[ (demo_id berlin, demo_id acme, relates_to);
          (demo_id acme, demo_id berlin, sequence_next) ]};
     ingestion_staging := ∅;
     context_store := ∅ |}.

(** The insertion [process_section] emits for the Lisbon section when the
    arbiter returns the old text. *)
Definition unchanged_text_insertion : insertion :=
  {| i_id := demo_id berlin; i_chunk := berlin; i_vec := [FFin 0];
     i_cat_path := identity_path;
     i_metadata :=
       {| md_ttl_days := None; md_tags := None;
          md_volatility_class := Some (lit "low") |};
     i_supersedes := Some (demo_id berlin);
     i_resolution := Some (lit "supersedes");
     i_verify_after := Some (2000 + 365 * DAY)%Z |}.

(** A run of the whole pipeline on three sections, the second of which is
    already stored. *)
Definition text_a : str :=
  lit "The billing service of Acme is written in Go and is deployed in three regions behind a shared load balancer.".
Definition text_x : str :=
  lit "I live in Berlin, I am thirty four years old and I work as a backend engineer on payment systems at Acme.".
Definition text_b : str :=
  lit "The next milestone of the billing project is the migration of the invoice tables to the new ledger schema.".

Definition three_sections : list section :=
  [ demo_section text_a (lit "projects.billing");
    demo_section text_x identity_path;
    demo_section text_b (lit "projects.billing.roadmap") ].

Definition three_sections_model (text taxonomy : str) : option (list section) :=
  Some three_sections.

Definition profile_store : store :=
  {| memories := {[ demo_id text_x := demo_memory text_x 0.5 identity_path 1000 ]};
     memory_edges := ∅;
     ingestion_staging := ∅;
     context_store := ∅ |}.

Definition demo_run (segment_model : str → str → option (list section))
    (text : str) (st : store) : store * M UUID :=
  process_and_insert_memory ascii_lower demo_uuid5 demo_distance demo_embed
    segment_model demo_arbiter (λ _ st, st) 1
    (FFin 0.95) (FFin 0.55) (FFin 0.65) 100 40 text None 2000 st.

Definition fresh_insertion (text path : str) : insertion :=
  {| i_id := demo_id text; i_chunk := text; i_vec := [FFin 0]; i_cat_path := path;
     i_metadata :=
       {| md_ttl_days := None; md_tags := None;
          md_volatility_class := Some (lit "low") |};
     i_supersedes := None; i_resolution := None;
     i_verify_after := Some (2000 + 365 * DAY)%Z |}.

(** A segmenter that fails, and one that returns a short and a long
    section. *)
Definition failing_model (text taxonomy : str) : option (list section) := None.

Definition short_and_long_model (text taxonomy : str) : option (list section) :=
  Some [ demo_section (lit "ok") identity_path;
         demo_section text_a (lit "projects.billing") ].

(** A store with one memory whose TTL of one day has elapsed at noon of
    the third day, and a tick at that instant. *)
Definition ttl_memory : memory :=
  {| m_content := lisbon; m_embedding := [FFin 0];
     m_category_path := identity_path; m_supersedes_id := None;
     m_archived_at := None;
     m_metadata :=
       {| md_ttl_days := Some 1%Z; md_tags := None;
          md_volatility_class := Some (lit "low") |};
     m_created_at := 0; m_updated_at := 0; m_last_accessed_at := 0;
     m_verify_after := None |}.

Definition ttl_store : store :=
  {| memories := {[ demo_id lisbon := ttl_memory ]};
     memory_edges := ∅; ingestion_staging := ∅; context_store := ∅ |}.

Definition noon_day3 : time := (2 * DAY + DAY / 2)%Z.

Definition tick_at (t : time) : tick_clock :=
  {| now_soft := t; now_hard := t; now_staging := t; now_context := t |}.

Definition none_raises (s : statement) : bool := false.

Definition hard_delete_raises (s : statement) : bool :=
  match s with HardDelete => true | _ => false end.

(** The rows that [supersedes_id] points from to [id]: the versions [id]
    replaced. *)
Definition predecessors (ms : gmap UUID memory) (id : UUID) : list (UUID * memory) :=
  filter (λ kv, m_supersedes_id kv.2 = Some id) (map_to_list ms).

(** [c] is the supersession chain behind [id]: each version was replaced by
    exactly the one before it in the list, and the last one replaced
    nothing. *)
Fixpoint chain_from (ms : gmap UUID memory) (id : UUID) (c : list (UUID * memory))
  : Prop :=
  match c with
  | [] => predecessors ms id = []
  | kv :: c' => predecessors ms id = [kv] ∧ chain_from ms kv.1 c'
  end.

(** The rows of a chain, numbered from generation [g]. *)
Fixpoint to_rows (g : nat) (l : list (UUID * memory)) : list history_row :=
  match l with
  | [] => []
  | kv :: l' =>
      {| h_id := kv.1; h_memory := kv.2; h_generation := g |} :: to_rows (S g) l'
  end.

(** A chain of 102 versions: version [i + 1] was superseded by version [i],
    and version 0 is the current one. *)
Definition version (i : nat) : UUID * memory :=
  (N.of_nat i,
   {| m_content := lit "primer"; m_embedding := [FFin 0];
      m_category_path := lit "reference.system.primer";
      m_supersedes_id := if i is S j then Some (N.of_nat j) else None;
      m_archived_at := None; m_metadata := empty_metadata;
      m_created_at := 1000 - Z.of_nat i; m_updated_at := 1000 - Z.of_nat i;
      m_last_accessed_at := 1000; m_verify_after := None |}).

Definition versions (n : nat) : gmap UUID memory :=
  list_to_map (version <$> seq 0 n).

(** ** Well-formed labels and paths

    What [sanitize_ltree_label] and [sanitize_ltree_path] produce: a label
    is a non-empty word over [a-z0-9_] that neither starts nor ends with an
    underscore; a path is one to six labels joined by dots, the first of
    which is not ["user"]. *)
Definition is_lower_label_char (c : N) : bool :=
  ((97 <=? c) && (c <=? 122)) || ((48 <=? c) && (c <=? 57)) || (c =? 95).

Definition label_ok (w : str) : Prop :=
  w ≠ [] ∧ Forall (λ c, is_lower_label_char c = true) w
  ∧ head w ≠ Some 95 ∧ last w ≠ Some 95.

Definition labels_ok (labels : list str) : Prop :=
  labels ≠ [] ∧ (length labels ≤ 6)%nat ∧ Forall label_ok labels
  ∧ head labels ≠ Some (lit "user").

(** The marker that [truncate_text] puts between the two halves. *)
Definition TRUNCATED_MARKER : str := [10] ++ lit "...[TRUNCATED]..." ++ [10].

(** ** Retries (utils.py, [_is_retryable] and [_with_retries]) *)

(** What [_is_retryable] reads of an exception: its [status_code]
    attribute, [None] when it has none. *)
Definition _is_retryable (status : option Z) : bool :=
  match status with
  | Some s => negb (bool_decide (s ∈ [400; 401; 403]%Z))
  | None => true
  end.

(** One call of [fn]: it returns, or raises an exception with that
    [status_code]. *)
Inductive attempt (T : Type) :=
  | Returned (v : T)
  | Failed (status : option Z).
Arguments Returned {T} v.
Arguments Failed {T} status.

(** How [_with_retries] ends: with the value of a call, with the exception
    of a call raised again, or with [RuntimeError("... retry failed")]. *)
Inductive retry_result (T : Type) :=
  | RetValue (v : T)
  | RetRaised (status : option Z)
  | RetRuntimeError.
Arguments RetValue {T} v.
Arguments RetRaised {T} status.
Arguments RetRuntimeError {T}.

(** [min(2.0 ** attempt, 10.0) + (0.05 * attempt)], in seconds; rounding
    is not modelled. *)
Definition sleep_s (attempt : nat) : Q :=
  let power : Q := inject_Z (2 ^ Z.of_nat attempt) in
  ((if Qle_bool power 10 then power else 10)
   + (5 # 100) * inject_Z (Z.of_nat attempt))%Q.

(** What a run of [_with_retries] did: how it ended, how many times it
    called [fn], and the sleeps it made, in order. *)
Record retry_run (T : Type) := {
  rr_result : retry_result T;
  rr_calls : nat;
  rr_sleeps : list Q;
}.
Arguments rr_result {T} r.
Arguments rr_calls {T} r.
Arguments rr_sleeps {T} r.

(** The [for attempt in range(max_retries)] loop, on the attempts that are
    left; [fn k] is what the call of attempt [k] does. *)
Fixpoint retry_loop {T} (fn : nat → attempt T) (attempts : list nat)
    (last_exc : option (option Z)) : retry_run T :=
  match attempts with
  | [] =>
      {| rr_result := match last_exc with
                      | Some e => RetRaised e
                      | None => RetRuntimeError
                      end;
         rr_calls := 0; rr_sleeps := [] |}
  | a :: rest =>
      match fn a with
      | Returned v => {| rr_result := RetValue v; rr_calls := 1; rr_sleeps := [] |}
      | Failed status =>
          if _is_retryable status
          then let r := retry_loop fn rest (Some status) in
               {| rr_result := rr_result r; rr_calls := S (rr_calls r);
                  rr_sleeps := sleep_s a :: rr_sleeps r |}
          else {| rr_result := RetRaised status; rr_calls := 1; rr_sleeps := [] |}
      end
  end.

Definition _with_retries {T} (fn : nat → attempt T) (max_retries : Z) : retry_run T :=
  retry_loop fn (seq 0 (Z.to_nat max_retries)) None.





(** A section as [extract_semantic_sections] hands it on: its path is a
    well-formed path and its volatility class one of the four legal ones. *)
Definition section_normal (s : section) : Prop :=
  ∃ labels v,
    s_category_path s = Some (join [46] labels) ∧ labels_ok labels
    ∧ s_volatility_class s = Some v ∧ legal_volatility v = true.

(** ** Invariants of the store *)

(** [m'] is [m] up to the three columns the pipeline updates in place
    ([supersedes_id], [updated_at], [last_accessed_at]). *)
Definition same_record (m m' : memory) : Prop :=
  m_content m' = m_content m ∧ m_embedding m' = m_embedding m
  ∧ m_category_path m' = m_category_path m ∧ m_archived_at m' = m_archived_at m
  ∧ m_metadata m' = m_metadata m ∧ m_created_at m' = m_created_at m
  ∧ m_verify_after m' = m_verify_after m.

(** The two foreign keys of [memory_edges]. *)
Definition edges_closed (st : store) : Prop :=
  ∀ e, e ∈ memory_edges st →
       is_Some (memories st !! source_id e) ∧ is_Some (memories st !! target_id e).

(** Every stored embedding has the configured dimension. *)
Definition embeddings_of_dim (d : nat) (ms : gmap UUID memory) : Prop :=
  ∀ id m, ms !! id = Some m → length (m_embedding m) = d.

(** The invariant of the persistence loop: the two foreign keys hold and
    [prev_id] is the id of a stored row. *)
Definition fk_invariant (acc : cursor * store) : Prop :=
  edges_closed acc.2 ∧ ∀ p, prev_id acc.1 = Some p → is_Some (memories acc.2 !! p).

(** ** Verification (tools/context.py) *)

Definition set_verify_after (v : option time) (now : time) (m : memory) : memory :=
  {| m_content := m_content m; m_embedding := m_embedding m;
     m_category_path := m_category_path m; m_supersedes_id := m_supersedes_id m;
     m_archived_at := m_archived_at m; m_metadata := m_metadata m;
     m_created_at := m_created_at m; m_updated_at := now;
     m_last_accessed_at := m_last_accessed_at m;
     m_verify_after := v |}.

(** [confirm_memory_validity] for a [memory_id] that parses as a UUID.
    [None] is the "not found, is superseded, or is archived" reply;
    otherwise the reply carries [volatility_class] and
    [next_verify_after]. *)
Definition confirm_memory_validity (now : time) (target_id : UUID) (st : store)
  : store * option (str * option time) :=
  match memories st !! target_id with
  | Some row =>
      if active row then
        let volatility_class :=
          default (lit "low") (md_volatility_class (m_metadata row)) in
        let new_verify_after := _compute_verify_after volatility_class now in
        (with_memories
           (alter (set_verify_after new_verify_after now) target_id (memories st)) st,
         Some (volatility_class, new_verify_after))
      else (st, None)
  | None => (st, None)
  end.

Definition verification_due (now : time) (m : memory) : bool :=
  active m
  && match m_verify_after m with
     | Some v => bool_decide (v < now)%Z
     | None => false
     end.

Definition by_verify_after (a b : UUID * memory) : Prop :=
  match m_verify_after a.2, m_verify_after b.2 with
  | Some x, Some y => (x ≤ y)%Z
  | Some _, None => True
  | None, Some _ => False
  | None, None => True
  end.

#[global] Instance by_verify_after_dec a b : Decision (by_verify_after a b).
Proof.
  unfold by_verify_after.
  destruct (m_verify_after a.2), (m_verify_after b.2); apply _.
Defined.

(** The [expired_rows] query of [initialize_context]: the active rows with
    [verify_after < NOW()], oldest deadline first, three at most. *)
Definition expired_rows (now : time) (ms : gmap UUID memory) : list (UUID * memory) :=
  take 3 (merge_sort by_verify_after
            (filter (λ kv, verification_due now kv.2) (map_to_list ms))).

(** ** The primer (tools/context.py, [synthesize_system_primer]) *)

Definition PRIMER_PATH : str := lit "reference.system.primer".

(** [category_path = 'reference.system.primer' AND supersedes_id IS NULL
    AND archived_at IS NULL] *)
Definition is_active_primer (m : memory) : bool :=
  bool_decide (ltree_of (m_category_path m) = ltree_of PRIMER_PATH) && active m.

(** [ON CONFLICT (id) DO UPDATE SET content, updated_at] *)
Definition set_content (content : str) (now : time) (m : memory) : memory :=
  {| m_content := content; m_embedding := m_embedding m;
     m_category_path := m_category_path m; m_supersedes_id := m_supersedes_id m;
     m_archived_at := m_archived_at m; m_metadata := m_metadata m;
     m_created_at := m_created_at m; m_updated_at := now;
     m_last_accessed_at := m_last_accessed_at m;
     m_verify_after := m_verify_after m |}.

(** The body of the [for old_primer in old_primers] loop. *)
Definition retire_primer (primer_id : UUID) (now : time)
    (ms : gmap UUID memory) (old_primer : UUID) : gmap UUID memory :=
  if decide (old_primer = primer_id) then ms
  else alter (set_supersedes_id (Some primer_id) now) old_primer ms.

(** The transaction at the end of [synthesize_system_primer]: the active
    primers other than [primer_id] are marked as superseded by it, and the
    primer is upserted. *)
Definition primer_transaction (primer_id : UUID) (primer_content : str)
    (vec : embedding) (now : time) (ms : gmap UUID memory) : gmap UUID memory :=
  let old_primers :=
    (filter (λ kv, is_active_primer kv.2) (map_to_list ms)).*1 in
  let ms := foldl (retire_primer primer_id now) ms old_primers in
  match ms !! primer_id with
  | Some m => <[primer_id := set_content primer_content now m]> ms
  | None =>
      <[primer_id :=
          {| m_content := primer_content; m_embedding := vec;
             m_category_path := PRIMER_PATH; m_supersedes_id := None;
             m_archived_at := None; m_metadata := empty_metadata;
             m_created_at := now; m_updated_at := now;
             m_last_accessed_at := now; m_verify_after := None |}]> ms
  end.

(** ** The ingestion worker (server.py, [_ingestion_worker]) *)

Definition with_status (s : job_status) (j : job) : job :=
  {| j_raw_text := j_raw_text j; j_ttl_days := j_ttl_days j; j_status := s;
     j_created_at := j_created_at j; j_error := j_error j |}.

Definition with_failure (error : str) (j : job) : job :=
  {| j_raw_text := j_raw_text j; j_ttl_days := j_ttl_days j; j_status := failed;
     j_created_at := j_created_at j; j_error := Some error |}.

Definition with_staging (q : gmap UUID job) (st : store) : store :=
  {| memories := memories st; memory_edges := memory_edges st;
     ingestion_staging := q; context_store := context_store st |}.

(** The statement run once when the worker starts:
    [UPDATE ingestion_staging SET status = 'pending' WHERE status = 'processing']. *)
Definition reset_stale (q : gmap UUID job) : gmap UUID job :=
  (λ j, if decide (j_status j = processing) then with_status pending j else j) <$> q.

Definition by_job_created_at (a b : UUID * job) : Prop :=
  (j_created_at a.2 ≤ j_created_at b.2)%Z.

#[global] Instance by_job_created_at_dec a b : Decision (by_job_created_at a b).
Proof. unfold by_job_created_at. apply _. Defined.

(** The claim statement: the pending job with the least [created_at]
    becomes [processing] and is returned. *)
Definition claim_job (q : gmap UUID job) : option (UUID * job) * gmap UUID job :=
  match head (merge_sort by_job_created_at
                (filter (λ kv, j_status kv.2 = pending) (map_to_list q))) with
  | Some (job_id, job) => (Some (job_id, job), alter (with_status processing) job_id q)
  | None => (None, q)
  end.

Section Worker.
(** [db.process_and_insert_memory] with its parameters fixed, and
    [str(job_exc)]. *)
Variable pipeline : str → option Z → time → store → store * M UUID.
Variable str_of_error : py_error → str.

(** One turn of the [while True] loop, from the claim to the status
    update; [now] is the clock the pipeline reads. *)
Definition worker_iteration (now : time) (st : store) : store :=
  match claim_job (ingestion_staging st) with
  | (None, _) => st
  | (Some (job_id, job), q) =>
      match pipeline (j_raw_text job) (j_ttl_days job) now (with_staging q st) with
      | (st', (_, Ok _)) =>
          with_staging (alter (with_status complete) job_id (ingestion_staging st')) st'
      | (st', (_, Raise job_exc)) =>
          let err_msg := take 1000 (str_of_error job_exc) in
          with_staging (alter (with_failure err_msg) job_id (ingestion_staging st')) st'
      end
  end.
End Worker.

(** ** The context store (tools_context.py) *)

(** [_VALID_KEY_RE]: [^[a-zA-Z0-9_\-\.]{1,200}$] under [re.match].  Without
    [re.MULTILINE], [$] matches at the end of the string and also just
    before a newline that is the last character. *)
Definition is_key_char (c : N) : bool :=
  ((97 <=? c) && (c <=? 122)) || ((65 <=? c) && (c <=? 90))
  || ((48 <=? c) && (c <=? 57)) || (c =? 95) || (c =? 45) || (c =? 46).

Definition key_body (key : str) : str :=
  if decide (last key = Some 10) then take (length key - 1) key else key.

Definition _VALID_KEY_RE_match (key : str) : bool :=
  let body := key_body key in
  bool_decide (1 ≤ length body ≤ 200)%nat && forallb is_key_char body.

Inductive key_error := KeyEmpty | KeyTooLong | KeyCharacters.

Inductive context_error :=
  | InvalidKey (e : key_error)
  | ValueEmpty
  | ValueTooLong
  | TtlNotPositive
  | TtlTooLarge
  | HoursNotPositive
  | not_found.

Definition HOUR : Z := 3600000000.

Definition by_updated_at_desc (a b : str * context_entry) : Prop :=
  (c_updated_at b.2 ≤ c_updated_at a.2)%Z.

#[global] Instance by_updated_at_desc_dec a b : Decision (by_updated_at_desc a b).
Proof. unfold by_updated_at_desc. apply _. Defined.

Section ContextStore.
Variable py_lower : str → str.
Variable CONTEXT_MAX_VALUE_LENGTH : nat.
Variable CONTEXT_MAX_KEY_LENGTH : nat.

Definition _validate_key (key : str) : option key_error :=
  if decide (key = []) then Some KeyEmpty
  else if decide (CONTEXT_MAX_KEY_LENGTH < length key)%nat then Some KeyTooLong
  else if negb (_VALID_KEY_RE_match key) then Some KeyCharacters
  else None.

(** [scope.strip().lower()[:50]] *)
Definition clean_scope (scope : str) : str := take 50 (py_lower (strip scope)).

(** [set_context]: the reply is the error, or the scope and the expiry
    that were written. *)
Definition set_context (key value : str) (ttl_hours : Z) (scope : str)
    (now : time) (cs : gmap str context_entry)
  : gmap str context_entry * (context_error + str * time) :=
  match _validate_key key with
  | Some key_error => (cs, inl (InvalidKey key_error))
  | None =>
      if decide (value = [] ∨ strip value = []) then (cs, inl ValueEmpty)
      else if decide (CONTEXT_MAX_VALUE_LENGTH < length value)%nat
      then (cs, inl ValueTooLong)
      else if decide (ttl_hours < 1)%Z then (cs, inl TtlNotPositive)
      else if decide (720 < ttl_hours)%Z then (cs, inl TtlTooLarge)
      else
        let scope := if decide (scope = []) then lit "session" else scope in
        let scope := clean_scope scope in
        let expires_at := (now + ttl_hours * HOUR)%Z in
        let created_at :=
          match cs !! key with
          | Some old => c_created_at old
          | None => now
          end in
        (<[key := {| c_value := value; c_scope := scope;
                     c_created_at := created_at; c_updated_at := now;
                     c_expires_at := expires_at |}]> cs,
         inr (scope, expires_at))
  end.

(** [get_context]: [WHERE key = $1 AND expires_at > NOW()]. *)
Definition get_context (key : str) (now : time) (cs : gmap str context_entry)
  : context_error + context_entry :=
  match _validate_key key with
  | Some key_error => inl (InvalidKey key_error)
  | None =>
      match cs !! key with
      | Some row => if decide (now < c_expires_at row)%Z then inr row else inl not_found
      | None => inl not_found
      end
  end.

(** [delete_context]: the reply carries [deleted], whether a row was
    removed. *)
Definition delete_context (key : str) (cs : gmap str context_entry)
  : gmap str context_entry * (context_error + bool) :=
  match _validate_key key with
  | Some key_error => (cs, inl (InvalidKey key_error))
  | None => (delete key cs, inr (bool_decide (is_Some (cs !! key))))
  end.

(** [list_context_keys]: the rows of the reply, in its order. *)
Definition list_context_keys (scope : option str) (now : time)
    (cs : gmap str context_entry) : list (str * context_entry) :=
  let live := filter (λ kv, (now < c_expires_at kv.2)%Z) (map_to_list cs) in
  let rows :=
    match scope with
    | Some (c :: s) =>
        let scope_clean := clean_scope (c :: s) in
        filter (λ kv, c_scope kv.2 = scope_clean) live
    | _ => live
    end in
  merge_sort by_updated_at_desc rows.

(** [extend_context_ttl]: the reply is the error or the new expiry. *)
Definition extend_context_ttl (key : str) (additional_hours : Z) (now : time)
    (cs : gmap str context_entry)
  : gmap str context_entry * (context_error + time) :=
  match _validate_key key with
  | Some key_error => (cs, inl (InvalidKey key_error))
  | None =>
      if decide (additional_hours < 1)%Z then (cs, inl HoursNotPositive)
      else
        match cs !! key with
        | Some row =>
            if decide (now < c_expires_at row)%Z then
              let expires_at :=
                Z.min (c_expires_at row + additional_hours * HOUR)
                      (now + 720 * HOUR) in
              (<[key := {| c_value := c_value row; c_scope := c_scope row;
                           c_created_at := c_created_at row; c_updated_at := now;
                           c_expires_at := expires_at |}]> cs,
               inr expires_at)
            else (cs, inl not_found)
        | None => (cs, inl not_found)
        end
  end.
End ContextStore.

(** No entry is due to live more than 720 hours past its last write. *)
Definition ttl_capped (cs : gmap str context_entry) : Prop :=
  ∀ key row, cs !! key = Some row →
    (c_expires_at row ≤ c_updated_at row + 720 * HOUR)%Z.

(** ** Further concrete runs *)

(** A segmenter whose only section is too short. *)
Definition only_short_model (text taxonomy : str) : option (list section) :=
  Some [ demo_section (lit "ok") identity_path ].

Definition no_cursor : cursor := {| first_id := None; prev_id := None |}.

(** [process_and_insert_memory] as the worker calls it, with the concrete
    models. *)
Definition demo_ingest (segment_model : str → str → option (list section))
  : str → option Z → time → store → store * M UUID :=
  process_and_insert_memory ascii_lower demo_uuid5 demo_distance demo_embed
    segment_model demo_arbiter (λ _ st, st) 1
    (FFin 0.95) (FFin 0.55) (FFin 0.65) 100 40.

Definition demo_str_of_error (e : py_error) : str :=
  match e with
  | ValueError_NoSections => lit "No sections produced"
  | EmbedError => lit "embedding failed"
  | TypeError_NoneSubscript => lit "'NoneType' object is not subscriptable"
  | PostgresError => lit "database error"
  end.

(** A queue with one pending job. *)
Definition queued_job : job :=
  {| j_raw_text := text_a; j_ttl_days := None; j_status := pending;
     j_created_at := 1500; j_error := None |}.

Definition queued_store : store :=
  {| memories := memories profile_store; memory_edges := ∅;
     ingestion_staging := {[ 7 := queued_job ]}; context_store := ∅ |}.

(** A store whose only row is an active primer. *)
Definition old_primer : memory :=
  demo_memory (lit "# System Primer (old)") 0 PRIMER_PATH 1000.

Definition primer_rows : gmap UUID memory := {[ 1 := old_primer ]}.

(** A context store with one entry, written at instant 1000 for a day. *)
Definition plan_key : str := lit "plan.today".

Definition plan_entry : context_entry :=
  {| c_value := lit "ship the ledger migration"; c_scope := lit "plan";
     c_created_at := 1000; c_updated_at := 1000;
     c_expires_at := 1000 + 24 * HOUR |}.

Definition plan_context : gmap str context_entry := {[ plan_key := plan_entry ]}.

Definition plan_store : store :=
  {| memories := ∅; memory_edges := ∅; ingestion_staging := ∅;
     context_store := plan_context |}.

(* ================================================================== *)
(** * Part II: properties *)
(* ================================================================== *)

(** *** Facts about [strip], [split] and [join] *)

Lemma lstrip_head_nonspace c s :
  py_isspace c = false → lstrip (c :: s) = c :: s.
Proof. intros H. simpl. by rewrite H. Qed.

Lemma rstrip_last_nonspace s c :
  py_isspace c = false → rstrip (s ++ [c]) = s ++ [c].
Proof.
  intros H. unfold rstrip. rewrite reverse_snoc, lstrip_head_nonspace by done.
  by rewrite reverse_cons, reverse_involutive.
Qed.

Lemma split_go_word cur w s :
  Forall (λ c, py_isspace c = false) w →
  split_go cur (w ++ s) = split_go (reverse w ++ cur) s.
Proof.
  intros Hw. revert cur. induction Hw as [|c w Hc _ IH]; intros cur; [done|].
  simpl. rewrite Hc, IH, reverse_cons. by rewrite <- app_assoc.
Qed.

Lemma split_go_is_word cur s :
  Forall (λ c, py_isspace c = false) cur →
  Forall is_word (split_go cur s).
Proof.
  revert cur. induction s as [|c s IH]; intros cur Hcur; simpl.
  - destruct cur as [|c' cur']; [constructor|].
    constructor; [|constructor]. split.
    + intros E. apply (f_equal length) in E. rewrite length_reverse in E. done.
    + by apply Forall_reverse.
  - destruct (py_isspace c) eqn:Hc.
    + destruct cur as [|c' cur']; [by apply IH|].
      constructor; [|by apply IH]. split.
      * intros E. apply (f_equal length) in E. rewrite length_reverse in E. done.
      * by apply Forall_reverse.
    + apply IH. by constructor.
Qed.

Lemma split_is_word s : Forall is_word (split s).
Proof. by apply split_go_is_word. Qed.

Lemma split_join ws :
  Forall is_word ws → split (join SPACE ws) = ws.
Proof.
  unfold split. induction 1 as [|w ws [Hne Hw] Hws IH]; [done|].
  destruct ws as [|w2 ws'].
  - simpl. rewrite <- (app_nil_r w) at 1. rewrite split_go_word by done.
    rewrite app_nil_r. simpl.
    destruct (reverse w) as [|c r] eqn:E.
    + apply (f_equal length) in E. rewrite length_reverse in E.
      by destruct w.
    + by rewrite <- E, reverse_involutive.
  - change (join SPACE (w :: w2 :: ws')) with (w ++ 32 :: join SPACE (w2 :: ws')).
    rewrite split_go_word by done. rewrite app_nil_r.
    change (split_go (reverse w) (32 :: join SPACE (w2 :: ws')))
      with (if reverse w is [] then split_go [] (join SPACE (w2 :: ws'))
            else reverse (reverse w) :: split_go [] (join SPACE (w2 :: ws'))).
    rewrite IH.
    destruct (reverse w) as [|c r] eqn:E.
    + apply (f_equal length) in E. rewrite length_reverse in E.
      by destruct w.
    + by rewrite <- E, reverse_involutive.
Qed.

Lemma join_words_last ws :
  Forall is_word ws → ws ≠ [] →
  ∃ s c, join SPACE ws = s ++ [c] ∧ py_isspace c = false.
Proof.
  induction 1 as [|w ws [Hne Hw] Hws IH]; [done|]. intros _.
  destruct ws as [|w2 ws'].
  - simpl. destruct (reverse w) as [|c r] eqn:E.
    + apply (f_equal length) in E. rewrite length_reverse in E. by destruct w.
    + exists (reverse r), c. split.
      * by rewrite <- reverse_cons, <- E, reverse_involutive.
      * apply Forall_reverse in Hw. rewrite E in Hw. by inversion Hw.
  - destruct IH as (s & c & Es & Hc); [done|].
    exists (w ++ 32 :: s), c. split; [|done].
    change (join SPACE (w :: w2 :: ws')) with (w ++ 32 :: join SPACE (w2 :: ws')).
    rewrite Es. by rewrite <- app_assoc.
Qed.

Lemma join_words_head ws c s :
  Forall is_word ws → join SPACE ws = c :: s → py_isspace c = false.
Proof.
  intros Hws E. destruct Hws as [|w ws [Hne Hw] Hws]; [done|].
  destruct w as [|c' w']; [done|].
  assert (c' = c) as ->.
  { destruct ws; simpl in E; congruence. }
  by inversion Hw.
Qed.

Lemma strip_join ws :
  Forall is_word ws → strip (join SPACE ws) = join SPACE ws.
Proof.
  intros Hws. unfold strip.
  destruct (join SPACE ws) as [|c s] eqn:E; [done|].
  rewrite lstrip_head_nonspace by eauto using join_words_head.
  destruct (join_words_last ws) as (s' & c' & E' & Hc'); [done|by intros ->|].
  rewrite <- E, E'. by apply rstrip_last_nonspace.
Qed.

(** Whitespace normalisation is a projection. *)
Lemma ws_normal_form text :
  let n := join SPACE (split (strip text)) in
  join SPACE (split (strip n)) = n.
Proof.
  simpl. pose proof (split_is_word (strip text)) as Hws.
  by rewrite strip_join, split_join.
Qed.

(** *** [generate_deterministic_id] *)

Section IdentityFacts.
Variable py_lower : str → str.
Variable uuid5_oid : str → UUID.

(** What is used of [str.lower]: lower-casing twice is lower-casing once,
    it acts word by word across single spaces (a space is neither cased
    nor case-ignorable, so no casing context crosses it), and it maps a
    word to a word (no character is lowered to whitespace or to nothing). *)
Hypothesis lower_idempotent : ∀ s, py_lower (py_lower s) = py_lower s.
Hypothesis lower_join :
  ∀ ws, Forall is_word ws → py_lower (join SPACE ws) = join SPACE (py_lower <$> ws).
Hypothesis lower_word : ∀ w, is_word w → is_word (py_lower w).

Lemma normalize_idempotent text :
  normalize py_lower (normalize py_lower text) = normalize py_lower text.
Proof.
  unfold normalize.
  pose proof (split_is_word (strip text)) as Hws.
  set (ws := split (strip text)) in *.
  rewrite (lower_join ws Hws).
  assert (Forall is_word (py_lower <$> ws)) as Hws'.
  { apply Forall_fmap. eapply Forall_impl; [exact Hws|]. intros w. apply lower_word. }
  rewrite strip_join, split_join by done.
  rewrite <- (lower_join ws Hws). apply lower_idempotent.
Qed.

(** C8: the id of a text is the id of its normalisation (stripped,
    whitespace runs collapsed to one space, lower-cased). *)
Theorem deterministic_id_normalization_invariant text :
  generate_deterministic_id py_lower uuid5_oid text
  = generate_deterministic_id py_lower uuid5_oid (normalize py_lower text).
Proof.
  unfold generate_deterministic_id. by rewrite normalize_idempotent.
Qed.
End IdentityFacts.

(** ASCII lower-casing has the three properties. *)
Ltac decide_N_tests :=
  repeat match goal with
  | |- context [N.leb ?a ?b] =>
      first [ rewrite (proj2 (N.leb_le a b)) by lia
            | rewrite (proj2 (N.leb_gt a b)) by lia ]
  | |- context [N.eqb ?a ?b] =>
      first [ rewrite (proj2 (N.eqb_neq a b)) by lia
            | rewrite (proj2 (N.eqb_eq a b)) by lia ]
  end.

Lemma ascii_lower_char_idempotent c :
  ascii_lower_char (ascii_lower_char c) = ascii_lower_char c.
Proof.
  unfold ascii_lower_char.
  destruct (N.leb_spec 65 c), (N.leb_spec c 90); try lia; cbn [andb];
    decide_N_tests; done.
Qed.

Lemma ascii_lower_char_isspace c :
  py_isspace (ascii_lower_char c) = py_isspace c.
Proof.
  unfold ascii_lower_char.
  destruct (N.leb_spec 65 c), (N.leb_spec c 90); try lia; cbn [andb]; try done.
  unfold py_isspace. decide_N_tests. done.
Qed.

Lemma ascii_lower_idempotent s : ascii_lower (ascii_lower s) = ascii_lower s.
Proof.
  unfold ascii_lower. rewrite <- list_fmap_compose.
  apply list_fmap_ext. intros _ c _. apply ascii_lower_char_idempotent.
Qed.

Lemma ascii_lower_join ws :
  ascii_lower (join SPACE ws) = join SPACE (ascii_lower <$> ws).
Proof.
  induction ws as [|w ws IH]; [done|].
  destruct ws as [|w2 ws']; [done|].
  change (join SPACE (w :: w2 :: ws')) with (w ++ 32 :: join SPACE (w2 :: ws')).
  unfold ascii_lower at 1. rewrite fmap_app, fmap_cons.
  fold (ascii_lower w). fold (ascii_lower (join SPACE (w2 :: ws'))).
  by rewrite IH.
Qed.

Lemma ascii_lower_word w : is_word w → is_word (ascii_lower w).
Proof.
  intros [Hne Hw]. split.
  - by destruct w.
  - apply Forall_fmap. eapply Forall_impl; [exact Hw|].
    intros c Hc. simpl. by rewrite ascii_lower_char_isspace.
Qed.

Lemma deterministic_id_normalization_invariant_witness :
  (∀ s, ascii_lower (ascii_lower s) = ascii_lower s)
  ∧ (∀ ws, Forall is_word ws →
       ascii_lower (join SPACE ws) = join SPACE (ascii_lower <$> ws))
  ∧ (∀ w, is_word w → is_word (ascii_lower w))
  ∧ generate_deterministic_id ascii_lower demo_uuid5 (lit "  Hello   World ")
    = generate_deterministic_id ascii_lower demo_uuid5
        (normalize ascii_lower (lit "  Hello   World ")).
Proof.
  split; [exact ascii_lower_idempotent|].
  split; [exact (λ ws _, ascii_lower_join ws)|].
  split; [exact ascii_lower_word|].
  exact (deterministic_id_normalization_invariant ascii_lower demo_uuid5
           ascii_lower_idempotent (λ ws _, ascii_lower_join ws) ascii_lower_word
           (lit "  Hello   World ")).
Defined.

Example normalize_hello :
  normalize ascii_lower (lit "  Hello   World ") = lit "hello world".
Proof. reflexivity. Qed.

(** *** Float comparisons *)


Lemma flt_not_fle a b : flt a b = true → fle b a = false.
Proof.
  destruct a, b; simpl; try done.
  intros H. by apply negb_true_iff in H.
Qed.

(** *** The nearest-neighbour query *)

Lemma f8_le_total a b : f8_le a b = true ∨ f8_le b a = true.
Proof.
  destruct a as [| |x|], b as [| |y|]; simpl; auto.
  destruct (Qlt_le_dec x y) as [H|H].
  - left. apply Qle_bool_iff. by apply Qlt_le_weak.
  - right. by apply Qle_bool_iff.
Qed.

Lemma f8_le_trans a b c : f8_le a b = true → f8_le b c = true → f8_le a c = true.
Proof.
  destruct a as [| |x|], b as [| |y|], c as [| |z|]; simpl; try done.
  rewrite !Qle_bool_iff. apply Qle_trans.
Qed.

Section NeighbourFacts.
Variable cosine_distance : embedding → embedding → pyfloat.
Variable vec : embedding.

#[local] Instance by_distance_total : Total (by_distance cosine_distance vec).
Proof.
  intros a b. unfold by_distance.
  destruct (f8_le_total (cosine_distance (m_embedding a.2) vec)
                        (cosine_distance (m_embedding b.2) vec)) as [-> | ->]; auto.
Qed.

#[local] Instance by_distance_trans : Transitive (by_distance cosine_distance vec).
Proof.
  intros a b c. unfold by_distance. rewrite !Is_true_true. apply f8_le_trans.
Qed.

(** The row the query returns is an active row of the subtree, and no
    active row of the subtree is closer. *)
Lemma nearest_neighbour_spec ms chunk_path nb :
  nearest_neighbour cosine_distance ms vec chunk_path = Some nb →
  ∃ m,
    ms !! nb_id nb = Some m
    ∧ active m = true
    ∧ ltree_descendant (m_category_path m) chunk_path = true
    ∧ nb_content nb = m_content m
    ∧ nb_similarity nb = one_minus (cosine_distance (m_embedding m) vec)
    ∧ ∀ id' m',
        ms !! id' = Some m' → active m' = true →
        ltree_descendant (m_category_path m') chunk_path = true →
        f8_le (cosine_distance (m_embedding m) vec)
              (cosine_distance (m_embedding m') vec) = true.
Proof.
  unfold nearest_neighbour.
  set (rows := filter _ (map_to_list ms)).
  pose proof (merge_sort_Permutation (by_distance cosine_distance vec) rows) as Hp.
  pose proof (StronglySorted_merge_sort (by_distance cosine_distance vec) rows) as Hs.
  destruct (merge_sort (by_distance cosine_distance vec) rows) as [|[id m] rest];
    [done|].
  simpl. intros [= <-]. simpl. exists m.
  assert ((id, m) ∈ rows) as Hin by (rewrite <- Hp; by left).
  apply list_elem_of_filter in Hin as [[Ha Hd] Hin]. simpl in Ha, Hd.
  apply elem_of_map_to_list in Hin.
  repeat split; try done; try by apply Is_true_true.
  intros id' m' Hm' Ha' Hd'.
  assert ((id', m') ∈ rows) as Hin'.
  { apply list_elem_of_filter. split.
    - simpl. split; by apply Is_true_true.
    - by apply elem_of_map_to_list. }
  rewrite <- Hp in Hin'. apply StronglySorted_cons in Hs as [Hall _].
  apply elem_of_cons in Hin' as [[= -> ->]|Hin'].
  - destruct (f8_le_total (cosine_distance (m_embedding m) vec)
                          (cosine_distance (m_embedding m) vec)); done.
  - rewrite Forall_forall in Hall. apply Is_true_true. apply (Hall _ Hin').
Qed.

(** No row is returned exactly when the subtree has no active row. *)
Lemma nearest_neighbour_none ms chunk_path :
  nearest_neighbour cosine_distance ms vec chunk_path = None ↔
  ∀ id m, ms !! id = Some m → active m = true →
          ltree_descendant (m_category_path m) chunk_path = false.
Proof.
  unfold nearest_neighbour.
  set (rows := filter _ (map_to_list ms)).
  pose proof (merge_sort_Permutation (by_distance cosine_distance vec) rows) as Hp.
  split.
  - intros Hn id m Hm Ha.
    destruct (ltree_descendant (m_category_path m) chunk_path) eqn:Hd; [|done].
    assert ((id, m) ∈ rows) as Hin.
    { apply list_elem_of_filter. split.
      - simpl. split; by apply Is_true_true.
      - by apply elem_of_map_to_list. }
    rewrite <- Hp in Hin.
    destruct (merge_sort (by_distance cosine_distance vec) rows); [|done].
    by apply elem_of_nil in Hin.
  - intros Hall.
    destruct (merge_sort (by_distance cosine_distance vec) rows) as [|[id m] rest];
      [done|].
    assert ((id, m) ∈ rows) as Hin by (rewrite <- Hp; by left).
    apply list_elem_of_filter in Hin as [[Ha Hd] Hin]. simpl in Ha, Hd.
    apply elem_of_map_to_list in Hin. apply Is_true_true in Ha, Hd.
    rewrite (Hall id m Hin Ha) in Hd. done.
Qed.
End NeighbourFacts.

(** *** Per-section evaluation *)

Section PipelineFacts.
Variable py_lower : str → str.
Variable uuid5_oid : str → UUID.
Variable cosine_distance : embedding → embedding → pyfloat.
Variable embed_model : str → option embedding.
Variable segment_model : str → str → option (list section).
Variable arbitrate_model : str → str → option (option str * option str).
Variable primer_effect : bool → store → store.
Variable EMBED_DIM : nat.
Variables DUP_THRESHOLD CONFLICT_THRESHOLD RELATES_TO_THRESHOLD : pyfloat.
Variable MIN_SECTION_LENGTH : Z.
Variable MAX_TAXONOMY_PATHS : nat.

Abbreviation chunk_id_of' := (chunk_id_of py_lower uuid5_oid).
Abbreviation embed' := (embed embed_model EMBED_DIM).
Abbreviation evaluate_conflict' := (evaluate_conflict arbitrate_model).
Abbreviation nearest_neighbour' := (nearest_neighbour cosine_distance).
Abbreviation process_section' :=
  (process_section py_lower uuid5_oid cosine_distance embed_model arbitrate_model
     EMBED_DIM DUP_THRESHOLD CONFLICT_THRESHOLD).

Lemma embed_ok text vec :
  embed_model text = Some vec → length vec = EMBED_DIM →
  embed' text = ([EvEmbed text], Ok vec).
Proof.
  intros E L. unfold embed. rewrite E. by rewrite decide_True.
Qed.

Lemma embed_cases text :
  (∃ vec, embed_model text = Some vec ∧ length vec = EMBED_DIM
          ∧ embed' text = ([EvEmbed text], Ok vec))
  ∨ embed' text = ([EvEmbed text], Raise EmbedError).
Proof.
  unfold embed. destruct (embed_model text) as [vec|]; [|by right].
  destruct (decide (length vec = EMBED_DIM)); [left|by right].
  by exists vec.
Qed.

(** [evaluate_conflict] swallows every failure of the arbiter. *)
Lemma evaluate_conflict_total old_text new_text :
  ∃ resolution updated_text,
    evaluate_conflict' old_text new_text
    = ([EvArbitrate (truncate_text old_text 6000) (truncate_text new_text 6000)],
       Ok (resolution, updated_text)).
Proof.
  unfold evaluate_conflict.
  destruct (arbitrate_model _ _) as [[r u]|]; eauto.
Qed.




Lemma process_section_fresh ms now base (s : section) vec similar_mem :
  let content := default [] (s_content s) in
  let path := default (lit "reference.unknown") (s_category_path s) in
  let volatility := default (lit "low") (s_volatility_class s) in
  let similarity :=
    match similar_mem with Some r => nb_similarity r | None => FFin 0 end in
  ms !! chunk_id_of' content = None →
  embed_model content = Some vec → length vec = EMBED_DIM →
  nearest_neighbour' ms vec path = similar_mem →
  fgt similarity DUP_THRESHOLD = false →
  fle CONFLICT_THRESHOLD similarity && fle similarity DUP_THRESHOLD = false →
  process_section' ms now base s
  = ([EvEmbed content],
     Ok (Insertion
           {| i_id := chunk_id_of' content;
              i_chunk := content; i_vec := vec; i_cat_path := path;
              i_metadata :=
                chunk_metadata_of base (default [] (s_tags s)) volatility;
              i_supersedes := None; i_resolution := None;
              i_verify_after := _compute_verify_after volatility now |})).
Proof.
  intros content path volatility similarity Hm He Hl Hn Hd Hc.
  unfold process_section. fold content path volatility.
  rewrite Hm, (embed_ok _ _ He Hl). cbn.
  rewrite Hn. fold similarity. by rewrite Hd, Hc.
Qed.


(** C10, as the code has it: without a neighbour the similarity is 0.0,
    and when [CONFLICT_THRESHOLD > 0] and [0.0 > DUP_THRESHOLD] does not
    hold, the section is a fresh insertion. *)
Theorem process_section_no_neighbour ms now base (s : section) vec :
  let content := default [] (s_content s) in
  let path := default (lit "reference.unknown") (s_category_path s) in
  let volatility := default (lit "low") (s_volatility_class s) in
  ms !! chunk_id_of' content = None →
  embed_model content = Some vec → length vec = EMBED_DIM →
  nearest_neighbour' ms vec path = None →
  fgt CONFLICT_THRESHOLD (FFin 0) = true →
  fgt (FFin 0) DUP_THRESHOLD = false →
  process_section' ms now base s
  = ([EvEmbed content],
     Ok (Insertion
           {| i_id := chunk_id_of' content;
              i_chunk := content; i_vec := vec; i_cat_path := path;
              i_metadata :=
                chunk_metadata_of base (default [] (s_tags s)) volatility;
              i_supersedes := None; i_resolution := None;
              i_verify_after := _compute_verify_after volatility now |})).
Proof.
  intros content path volatility Hm He Hl Hn Hc Hd.
  apply (process_section_fresh ms now base s vec None); try done.
  by rewrite (flt_not_fle _ _ Hc).
Qed.

(** Without a neighbour and with [0.0 > DUP_THRESHOLD], the duplicate
    branch is taken and subscripts [None]. *)
Lemma process_section_no_neighbour_raises ms now base (s : section) vec :
  let content := default [] (s_content s) in
  let path := default (lit "reference.unknown") (s_category_path s) in
  ms !! chunk_id_of' content = None →
  embed_model content = Some vec → length vec = EMBED_DIM →
  nearest_neighbour' ms vec path = None →
  fgt (FFin 0) DUP_THRESHOLD = true →
  process_section' ms now base s
  = ([EvEmbed content], Raise TypeError_NoneSubscript).
Proof.
  intros content path Hm He Hl Hn Hd. unfold process_section.
  fold content path. rewrite Hm, (embed_ok _ _ He Hl). cbn.
  by rewrite Hn, Hd.
Qed.

(** C1, what the code does: an insertion that supersedes a neighbour
    carries the content id of its own (arbitrated) text. *)
Theorem superseding_id_is_content_hash ms now base (s : section) tr i old_id :
  process_section' ms now base s = (tr, Ok (Insertion i)) →
  i_supersedes i = Some old_id →
  i_id i = chunk_id_of' (i_chunk i).
Proof.
  unfold process_section. cbv zeta.
  destruct (ms !! _); [done|].
  destruct (embed_cases (default [] (s_content s))) as [(vec & _ & _ & ->)| ->];
    [|by cbn].
  cbn -[evaluate_conflict embed].
  destruct (fgt _ _).
  { by destruct (nearest_neighbour _ _ _ _). }
  destruct (_ && _); cbn -[evaluate_conflict embed].
  - destruct (nearest_neighbour _ _ _ _) as [nb|]; [|by cbn].
    destruct (evaluate_conflict_total (nb_content nb) (default [] (s_content s)))
      as (res & upd & ->). cbn -[embed].
    destruct (embed_cases upd) as [(fv & _ & _ & ->)| ->]; [|by cbn]. cbn.
    intros [= <- <-]. done.
  - intros [= <- <-]. done.
Qed.
End PipelineFacts.

(** *** Runs of [process_section] through its four outcomes *)


Lemma process_section_no_neighbour_witness :
  demo_process_section (FFin 0.95) (FFin 0.55) demo_arbiter
    ∅ 2000 empty_metadata (demo_section lisbon identity_path)
  = ([EvEmbed lisbon],
     Ok (Insertion
           {| i_id := demo_id lisbon; i_chunk := lisbon; i_vec := [FFin 0];
              i_cat_path := identity_path;
              i_metadata :=
                {| md_ttl_days := None; md_tags := None;
                   md_volatility_class := Some (lit "low") |};
              i_supersedes := None; i_resolution := None;
              i_verify_after := Some (2000 + 365 * DAY)%Z |})).
Proof.
  refine (process_section_no_neighbour ascii_lower demo_uuid5 demo_distance
            demo_embed demo_arbiter 1 (FFin 0.95) (FFin 0.55) ∅ 2000
            empty_metadata (demo_section lisbon identity_path) [FFin 0] _ _ _ _ _ _);
    vm_compute; reflexivity.
Defined.

(** C10 as stated fails: [CONFLICT_THRESHOLD > 0] alone does not keep the
    run out of the duplicate branch.  With [DUP_THRESHOLD = -1] and no
    neighbour, [0.0 > -1.0] holds and [similar_mem["id"]] is evaluated on
    [None]. *)
Lemma no_neighbour_negative_dup_threshold_raises :
  fgt (FFin 0.55) (FFin 0) = true
  ∧ nearest_neighbour demo_distance ∅ [FFin 0] identity_path = None
  ∧ demo_process_section (FFin (-1)) (FFin 0.55) demo_arbiter
      ∅ 2000 empty_metadata (demo_section lisbon identity_path)
    = ([EvEmbed lisbon], Raise TypeError_NoneSubscript).
Proof. vm_compute. auto. Qed.

Lemma superseding_id_is_content_hash_witness :
  demo_id lisbon = chunk_id_of ascii_lower demo_uuid5 lisbon.
Proof.
  refine (superseding_id_is_content_hash ascii_lower demo_uuid5 demo_distance
            demo_embed demo_arbiter 1 (FFin 0.95) (FFin 0.55)
            (berlin_store 0.1) 2000 empty_metadata
            (demo_section lisbon identity_path)
            [EvEmbed lisbon; EvArbitrate berlin lisbon; EvEmbed lisbon]
            {| i_id := demo_id lisbon; i_chunk := lisbon; i_vec := [FFin 0];
               i_cat_path := identity_path;
               i_metadata :=
                 {| md_ttl_days := None; md_tags := None;
                    md_volatility_class := Some (lit "low") |};
               i_supersedes := Some (demo_id berlin);
               i_resolution := Some (lit "supersedes");
               i_verify_after := Some (2000 + 365 * DAY)%Z |}
            (demo_id berlin) _ _);
    vm_compute; reflexivity.
Defined.

(** *** The supersession step *)

Lemma elem_of_redirect_outgoing (new_id old_id : UUID) (es : gset edge) (e : edge) :
  e ∈ redirect_outgoing new_id old_id es ↔
  e ∈ es ∨ ∃ t r, (old_id, t, r) ∈ es ∧ e = (new_id, t, r).
Proof.
  unfold redirect_outgoing. rewrite elem_of_union, elem_of_map.
  split; (intros [?|H]; [by left|right]).
  - destruct H as ([[s t] r] & -> & [Hs He]%elem_of_filter).
    unfold source_id in Hs. simpl in Hs. subst s. by exists t, r.
  - destruct H as (t & r & He & ->). exists (old_id, t, r).
    split; [done|]. by apply elem_of_filter.
Qed.

Lemma elem_of_redirect_incoming (new_id old_id : UUID) (es : gset edge) (e : edge) :
  e ∈ redirect_incoming new_id old_id es ↔
  e ∈ es ∨ ∃ s r, (s, old_id, r) ∈ es ∧ e = (s, new_id, r).
Proof.
  unfold redirect_incoming. rewrite elem_of_union, elem_of_map.
  split; (intros [?|H]; [by left|right]).
  - destruct H as ([[s t] r] & -> & [Ht He]%elem_of_filter).
    unfold target_id in Ht. simpl in Ht. subst t. by exists s, r.
  - destruct H as (s & r & He & ->). exists (s, old_id, r).
    split; [done|]. by apply elem_of_filter.
Qed.

Lemma elem_of_delete_touching (old_id : UUID) (es : gset edge) (e : edge) :
  e ∈ delete_touching old_id es ↔ e ∈ es ∧ ¬ touches old_id e.
Proof. unfold delete_touching. rewrite elem_of_filter. unfold touches. tauto. Qed.

(** The edges after the three statements: the old edges with [new_id]
    substituted for [old_id], less those that still touch [old_id]. *)
Lemma elem_of_rewired (new_id old_id : UUID) (es : gset edge) (e : edge) :
  e ∈ delete_touching old_id
        (redirect_incoming new_id old_id (redirect_outgoing new_id old_id es))
  ↔ ¬ touches old_id e ∧ ∃ e0, e0 ∈ es ∧ e = substitute_edge old_id new_id e0.
Proof.
  rewrite elem_of_delete_touching, elem_of_redirect_incoming.
  setoid_rewrite elem_of_redirect_outgoing.
  unfold touches, substitute_edge, substitute, source_id, target_id, relation_type.
  split.
  - intros [H Hnt]. split; [done|].
    destruct H as [[He|(t & r & He & ->)]|(s & r & [He|(t & r' & He & Heq)] & ->)].
    + exists e. split; [done|]. destruct e as [[s t] r]. simpl in *.
      repeat case_decide; subst; tauto.
    + exists (old_id, t, r). split; [done|]. simpl in *.
      repeat case_decide; subst; tauto.
    + exists (s, old_id, r). split; [done|]. simpl in *.
      repeat case_decide; subst; tauto.
    + injection Heq as Hs Ht Hr. subst s t r'.
      exists (old_id, old_id, r). split; [done|].
      simpl. by repeat case_decide.
  - intros [Hnt ([[s t] r] & He & ->)]. split; [|done]. simpl in *.
    repeat case_decide; subst.
    + right. exists new_id, r. split; [|done]. right. by exists old_id, r.
    + left. right. by exists t, r.
    + right. exists s, r. split; [|done]. by left.
    + by left; left.
Qed.

(** The step as the pipeline specification describes it, for a
    replacement whose id differs from the old one: the old row points to
    the new one, no edge touches the old row, and every edge that touched
    it is there with the new id in its place; the other edges stay. *)
Lemma supersede_distinct now new_id old_id st m :
  new_id ≠ old_id →
  memories st !! old_id = Some m →
  let st' := supersede now new_id old_id st in
  (m_supersedes_id <$> memories st' !! old_id) = Some (Some new_id)
  ∧ (∀ e, e ∈ memory_edges st' → ¬ touches old_id e)
  ∧ (∀ e, e ∈ memory_edges st → touches old_id e →
          substitute_edge old_id new_id e ∈ memory_edges st')
  ∧ (∀ e, e ∈ memory_edges st → ¬ touches old_id e → e ∈ memory_edges st').
Proof.
  intros Hne Hm st'. subst st'. unfold supersede. simpl.
  split; [|split; [|split]].
  - by rewrite lookup_alter_eq, Hm.
  - intros e He. by apply elem_of_rewired in He as [? _].
  - intros [[s t] r] He Ht. apply elem_of_rewired. split; [|by eexists].
    unfold touches, substitute_edge, substitute, source_id, target_id. simpl.
    repeat case_decide; naive_solver.
  - intros [[s t] r] He Ht. apply elem_of_rewired. split; [done|].
    exists (s, t, r). split; [done|].
    unfold touches, substitute_edge, substitute, source_id, target_id,
      relation_type in *. simpl in *.
    repeat case_decide; naive_solver.
Qed.

(** When the replacement has the id of the old row, the row is marked as
    superseded by itself and every edge that touched it is deleted. *)
Lemma supersede_self now id st m :
  memories st !! id = Some m →
  let st' := supersede now id id st in
  (m_supersedes_id <$> memories st' !! id) = Some (Some id)
  ∧ (active <$> memories st' !! id) = Some false
  ∧ memory_edges st' = delete_touching id (memory_edges st).
Proof.
  intros Hm st'. subst st'. unfold supersede. simpl.
  rewrite lookup_alter_eq, Hm. simpl. split; [done|]. split; [done|].
  apply set_eq. intros e. rewrite elem_of_rewired, elem_of_delete_touching.
  split.
  - intros [Hnt ([[s t] r] & He & ->)].
    unfold touches, substitute_edge, substitute, source_id, target_id,
      relation_type in *. simpl in *.
    repeat case_decide; subst; naive_solver.
  - intros [He Hnt]. split; [done|]. exists e. split; [done|].
    destruct e as [[s t] r].
    unfold touches, substitute_edge, substitute, source_id, target_id,
      relation_type in *. simpl in *.
    by repeat case_decide; subst.
Qed.

(** C2, where the code leaves it: the arbiter returns the text of the old
    memory, so the replacement has the old memory's content id.  After the
    supersession step the memory is superseded by itself, and the two edges
    it had are deleted instead of being carried over. *)
Theorem supersession_by_same_id_loses_edges :
  demo_process_section (FFin 0.95) (FFin 0.55) keep_old_arbiter
    (memories linked_store) 2000 empty_metadata (demo_section lisbon identity_path)
  = ([EvEmbed lisbon; EvArbitrate berlin lisbon; EvEmbed berlin],
     Ok (Insertion unchanged_text_insertion))
  ∧ let old_id := demo_id berlin in
    let new_id := i_id unchanged_text_insertion in
    let st' :=
      supersede 2000 new_id old_id
        (with_memories
           (upsert_memory 2000 unchanged_text_insertion (memories linked_store))
           linked_store) in
    (old_id, demo_id acme, relates_to) ∈ memory_edges linked_store
    ∧ ((new_id, demo_id acme, relates_to) ∉ memory_edges st')
    ∧ memory_edges st' = ∅
    ∧ (m_supersedes_id <$> memories st' !! old_id) = Some (Some old_id)
    ∧ (active <$> memories st' !! new_id) = Some false.
Proof.
  split; [by vm_compute|]. cbv zeta.
  assert (memory_edges
            (supersede 2000 (i_id unchanged_text_insertion) (demo_id berlin)
               (with_memories
                  (upsert_memory 2000 unchanged_text_insertion (memories linked_store))
                  linked_store)) = ∅) as Hes by (by vm_compute).
  rewrite Hes. split; [|split; [|split; [|split]]].
  - apply (bool_decide_unpack _). by vm_compute.
  - apply not_elem_of_empty.
  - done.
  - by vm_compute.
  - by vm_compute.
Qed.

(** *** Batched persistence *)

Section PersistenceFacts.
Variable cosine_distance : embedding → embedding → pyfloat.
Variable RELATES_TO_THRESHOLD : pyfloat.

(** A duplicate section writes no edge and leaves [prev_id] as it was. *)
Lemma persist_item_duplicate now cur st id duplicate_of :
  let '(cur', st') :=
    persist_item cosine_distance RELATES_TO_THRESHOLD now (cur, st)
      (Duplicate id duplicate_of) in
  prev_id cur' = prev_id cur ∧ memory_edges st' = memory_edges st.
Proof. done. Qed.
End PersistenceFacts.

(** [profile_changed] is computed from the segmenter's sections alone. *)
Lemma profile_changed_of_sections sections :
  profile_changed_of sections
  = existsb (λ s, is_profile_path (default [] (s_category_path s))) sections.
Proof.
  unfold profile_changed_of. f_equal.
  induction sections as [|s l IH]; [done|].
  rewrite filter_cons_True by done. by rewrite IH.
Qed.

Lemma three_sections_evaluated :
  gather (process_section ascii_lower demo_uuid5 demo_distance demo_embed
            demo_arbiter 1 (FFin 0.95) (FFin 0.55)
            (memories profile_store) 2000 empty_metadata) three_sections
  = ([EvEmbed text_a; EvEmbed text_b],
     Ok [ Insertion (fresh_insertion text_a (lit "projects.billing"));
          Duplicate (demo_id text_x) (demo_id text_x);
          Insertion (fresh_insertion text_b (lit "projects.billing.roadmap")) ]).
Proof. by vm_compute. Qed.

(** C4, where the code leaves it: the second of three sections is a
    duplicate of the stored memory X.  The run succeeds, and the only
    [sequence_next] edge goes from the first section to the third, past X. *)
Theorem sequence_chain_skips_duplicate :
  let a := demo_id text_a in
  let x := demo_id text_x in
  let b := demo_id text_b in
  let st' := (demo_run three_sections_model (text_a ++ text_x ++ text_b) profile_store).1 in
  (demo_run three_sections_model (text_a ++ text_x ++ text_b) profile_store).2.2 = Ok a
  ∧ ((a, x, sequence_next) ∉ memory_edges st')
  ∧ ((x, b, sequence_next) ∉ memory_edges st')
  ∧ (a, b, sequence_next) ∈ memory_edges st'.
Proof.
  cbv zeta. split; [by vm_compute|].
  split; [|split].
  - apply (bool_decide_eq_false_1 _). by vm_compute.
  - apply (bool_decide_eq_false_1 _). by vm_compute.
  - apply (bool_decide_unpack _). by vm_compute.
Qed.

(** C5, where the code leaves it: in the same run the only section under
    [profile] is the duplicate, no memory under [profile] is inserted, and
    the primer is synthesized with [profile_changed = True]. *)
Theorem profile_changed_for_duplicate_profile_section :
  let run := demo_run three_sections_model (text_a ++ text_x ++ text_b) profile_store in
  last run.2.1 = Some (EvPrimer true)
  ∧ run.2.2 = Ok (demo_id text_a)
  ∧ filter (λ kv, is_profile_path (m_category_path kv.2)) (map_to_list (memories run.1))
    = [(demo_id text_x, set_last_accessed_at 2000 (demo_memory text_x 0.5 identity_path 1000))]
  ∧ filter (λ kv, is_profile_path (m_category_path kv.2))
           (map_to_list (memories profile_store))
    = [(demo_id text_x, demo_memory text_x 0.5 identity_path 1000)].
Proof. cbv zeta. repeat split; by vm_compute. Qed.

(** *** Segmentation *)

Section SegmentationFacts.
Variable segment_model : str → str → option (list section).
Variable MIN_SECTION_LENGTH : Z.

Abbreviation long_enough' := (long_enough MIN_SECTION_LENGTH).
Abbreviation extract' := (extract_semantic_sections segment_model MIN_SECTION_LENGTH).

Lemma long_enough_normalize_section s :
  long_enough' (normalize_section s) ↔ long_enough' s.
Proof. done. Qed.

(** C7, as the code has it: on the model path the sections whose trimmed
    content is shorter than [MIN_SECTION_LENGTH] are dropped and every
    section returned is long enough; when the model fails or returns no
    section, the single fallback section carries the whole input and is
    returned without a length test. *)
Theorem extract_semantic_sections_lengths text taxonomy :
  (∀ ss, segment_model text taxonomy = Some ss → ss ≠ [] →
     ∃ sections,
       extract' text taxonomy = ([EvSegment text taxonomy], Ok sections)
       ∧ sections = filter long_enough' (normalize_section <$> ss)
       ∧ Forall long_enough' sections
       ∧ ∀ s, s ∈ ss → ¬ long_enough' s → normalize_section s ∉ sections)
  ∧ (segment_model text taxonomy = None ∨ segment_model text taxonomy = Some [] →
     extract' text taxonomy
     = ([EvSegment text taxonomy], Ok [fallback_section text])).
Proof.
  split.
  - intros ss Hss Hne. exists (filter long_enough' (normalize_section <$> ss)).
    split; [|split; [done|split]].
    + unfold extract_semantic_sections. rewrite Hss. by destruct ss.
    + apply Forall_forall. by intros s [? _]%list_elem_of_filter.
    + intros s _ Hshort [Hlong _]%list_elem_of_filter.
      by apply Hshort, long_enough_normalize_section.
  - unfold extract_semantic_sections. by intros [-> | ->].
Qed.
End SegmentationFacts.

Lemma extract_semantic_sections_lengths_witness :
  extract_semantic_sections short_and_long_model 100 (lit "ok" ++ text_a) default_taxonomy
  = ([EvSegment (lit "ok" ++ text_a) default_taxonomy],
     Ok [demo_section text_a (lit "projects.billing")])
  ∧ extract_semantic_sections failing_model 100 text_a default_taxonomy
    = ([EvSegment text_a default_taxonomy], Ok [fallback_section text_a]).
Proof.
  destruct (extract_semantic_sections_lengths short_and_long_model 100
              (lit "ok" ++ text_a) default_taxonomy) as [H _].
  destruct (H _ eq_refl ltac:(done)) as (sections & -> & -> & _).
  split; [by vm_compute|].
  apply (extract_semantic_sections_lengths failing_model 100). by left.
Defined.

(** C7 as stated fails on the fallback path: the segmenter fails on the
    two-character input, and the section handed to the per-section
    evaluation has a trimmed content of two characters. *)
Lemma fallback_section_is_not_filtered :
  extract_semantic_sections failing_model 100 (lit "ok") default_taxonomy
  = ([EvSegment (lit "ok") default_taxonomy], Ok [fallback_section (lit "ok")])
  ∧ ¬ long_enough 100 (fallback_section (lit "ok"))
  ∧ (demo_run failing_model (lit "ok") profile_store).2.2 = Ok (demo_id (lit "ok"))
  ∧ (m_content <$> memories (demo_run failing_model (lit "ok") profile_store).1
                     !! demo_id (lit "ok")) = Some (lit "ok").
Proof.
  split; [done|]. split; [|split].
  - unfold long_enough. vm_compute. by intros H.
  - by vm_compute.
  - by vm_compute.
Qed.

(** *** The TTL daemon *)

Section DaemonFacts.
Variable primer_effect : bool → store → store.
Variable STAGING_RETENTION_DAYS : Z.
Variable raises : statement → bool.

(** C6, as the code has it: the four statements run in the order
    soft-archive, hard-delete, staging purge, context purge, each committed
    on its own.  A statement that raises ends the tick: the statements
    before it stay applied, the ones after it and the primer rebuild do not
    run.  When none raises, the primer is rebuilt, with
    [profile_changed = True], exactly when one of the first three counts is
    not zero. *)
Theorem ttl_tick_steps clk st :
  let s1 := soft_archive (now_soft clk) st in
  let s2 := hard_delete (now_hard clk) s1.2 in
  let s3 := purge_staging STAGING_RETENTION_DAYS (now_staging clk) s2.2 in
  let s4 := purge_context (now_context clk) s3.2 in
  let tick := ttl_tick primer_effect STAGING_RETENTION_DAYS raises clk st in
  ((∀ s, raises s = false) →
     (s1.1 ≠ 0 ∨ s2.1 ≠ 0 ∨ s3.1 ≠ 0 →
        tick = (primer_effect true s4.2, ([EvPrimer true], Ok tt)))%nat
     ∧ (s1.1 = 0 ∧ s2.1 = 0 ∧ s3.1 = 0 → tick = (s4.2, ([], Ok tt)))%nat)
  ∧ (raises SoftArchive = true → tick = (st, ([], Raise PostgresError)))
  ∧ (raises SoftArchive = false → raises HardDelete = true →
     tick = (s1.2, ([], Raise PostgresError)))
  ∧ (raises SoftArchive = false → raises HardDelete = false →
     raises PurgeStaging = true →
     tick = (s2.2, ([], Raise PostgresError)))
  ∧ (raises SoftArchive = false → raises HardDelete = false →
     raises PurgeStaging = false → raises PurgeContext = true →
     tick = (s3.2, ([], Raise PostgresError))).
Proof.
  intros s1 s2 s3 s4 tick. subst tick. unfold ttl_tick.
  destruct (soft_archive (now_soft clk) st) as [c1 st1] eqn:E1.
  subst s1. simpl in s2. simpl.
  destruct (hard_delete (now_hard clk) st1) as [c2 st2] eqn:E2.
  subst s2. simpl in s3. simpl.
  destruct (purge_staging STAGING_RETENTION_DAYS (now_staging clk) st2)
    as [c3 st3] eqn:E3.
  subst s3. simpl in s4. simpl.
  destruct (purge_context (now_context clk) st3) as [c4 st4] eqn:E4.
  subst s4. simpl.
  split; [|split; [|split; [|split]]].
  - intros Hno. rewrite !Hno. split.
    + intros H. by rewrite bool_decide_eq_true_2.
    + intros H. rewrite bool_decide_eq_false_2; [done|]. lia.
  - by intros ->.
  - by intros -> ->.
  - by intros -> -> ->.
  - by intros -> -> -> ->.
Qed.
End DaemonFacts.

Lemma ttl_tick_steps_witness :
  ttl_tick (λ _ st, st) 7 none_raises (tick_at noon_day3) ttl_store
  = ((purge_context noon_day3
        (purge_staging 7 noon_day3
           (hard_delete noon_day3 (soft_archive noon_day3 ttl_store).2).2).2).2,
     ([EvPrimer true], Ok tt))
  ∧ ttl_tick (λ _ st, st) 7 hard_delete_raises (tick_at noon_day3) ttl_store
    = ((soft_archive noon_day3 ttl_store).2, ([], Raise PostgresError)).
Proof.
  pose proof (ttl_tick_steps (λ _ st, st) 7 none_raises (tick_at noon_day3) ttl_store)
    as [H _].
  pose proof (ttl_tick_steps (λ _ st, st) 7 hard_delete_raises (tick_at noon_day3)
                ttl_store) as (_ & _ & H' & _).
  split.
  - apply H; [done|]. left. by vm_compute.
  - by apply H'.
Defined.

(** C6 as stated fails: there is no transaction around the four
    statements.  The hard-delete raises, and the memory that the
    soft-archive statement archived stays archived. *)
Lemma ttl_tick_is_not_atomic :
  let after :=
    ttl_tick (λ _ st, st) 7 hard_delete_raises (tick_at noon_day3) ttl_store in
  after.2 = ([], Raise PostgresError)
  ∧ (m_archived_at <$> memories ttl_store !! demo_id lisbon) = Some None
  ∧ (m_archived_at <$> memories after.1 !! demo_id lisbon) = Some (Some noon_day3)
  ∧ after.1 ≠ ttl_store.
Proof.
  cbv zeta.
  assert ((m_archived_at <$> memories ttl_store !! demo_id lisbon) = Some None)
    as H0 by (by vm_compute).
  assert ((m_archived_at <$>
             memories (ttl_tick (λ _ st, st) 7 hard_delete_raises
                         (tick_at noon_day3) ttl_store).1 !! demo_id lisbon)
          = Some (Some noon_day3)) as H1 by (by vm_compute).
  split; [by vm_compute|]. split; [done|]. split; [done|].
  intros E. rewrite E, H0 in H1. done.
Qed.

(** *** History traversal *)

#[global] Instance by_created_at_total : Total by_created_at.
Proof. intros a b. unfold by_created_at. lia. Qed.

#[global] Instance by_created_at_trans : Transitive by_created_at.
Proof. intros a b c. unfold by_created_at. lia. Qed.

Lemma history_rounds_nil fuel ms : history_rounds fuel ms [] = [].
Proof. by destruct fuel. Qed.

Lemma history_step_generation ms g working :
  Forall (λ h, h_generation h = g) working →
  Forall (λ h, h_generation h = S g) (history_step ms working)
  ∧ (100 ≤ g → history_step ms working = [])%nat.
Proof.
  intros Hg. unfold history_step. split.
  - apply Forall_forall. intros h' Hh'.
    apply list_elem_of_bind in Hh' as (h & Hh' & Hh).
    apply list_elem_of_filter in Hh as [_ Hh].
    apply list_elem_of_fmap in Hh' as (kv & -> & _). simpl.
    rewrite Forall_forall in Hg. rewrite (Hg h Hh). lia.
  - intros Hge.
    replace (filter (λ h, (h_generation h < 100)%nat) working) with (@nil history_row);
      [done|].
    symmetry. induction Hg as [|h l Hh _ IH]; [done|].
    rewrite filter_cons_False by lia. done.
Qed.

(** The rounds stop by themselves: fuel beyond what the guard allows is
    never used. *)
Lemma history_rounds_stable ms fuel k g working :
  Forall (λ h, h_generation h = g) working →
  (100 < g → working = [])%nat →
  (102 ≤ fuel + g)%nat →
  history_rounds (fuel + k) ms working = history_rounds fuel ms working.
Proof.
  revert g working. induction fuel as [|fuel IH]; intros g working Hg Hemp Hf.
  - rewrite Hemp by lia. by rewrite !history_rounds_nil.
  - simpl. destruct working as [|h w]; [done|]. f_equal.
    destruct (history_step_generation ms g (h :: w) Hg) as [Hs Hz].
    apply (IH (S g)); [done| |lia].
    intros Hgt. apply Hz. lia.
Qed.

Lemma history_rounds_fuel ms target_id k :
  history_rounds (102 + k) ms (history_seed ms target_id) = history ms target_id.
Proof.
  apply (history_rounds_stable ms 102 k 0); [|lia|lia].
  unfold history_seed. destruct (ms !! target_id); by repeat constructor.
Qed.

Lemma history_rounds_generation ms fuel g working :
  Forall (λ h, h_generation h = g) working →
  (100 < g → working = [])%nat →
  Forall (λ h, (h_generation h ≤ 100)%nat) (history_rounds fuel ms working).
Proof.
  revert g working. induction fuel as [|fuel IH]; intros g working Hg Hemp;
    [constructor|].
  simpl. destruct working as [|h w]; [constructor|].
  destruct (history_step_generation ms g (h :: w) Hg) as [Hs Hz].
  apply Forall_app. split.
  - eapply Forall_impl; [exact Hg|]. intros h' ->. simpl.
    destruct (decide (100 < g)%nat) as [Hgt|]; [by specialize (Hemp Hgt)|lia].
  - apply (IH (S g)); [done|]. intros Hgt. apply Hz. lia.
Qed.


Lemma history_step_single ms id m g :
  (g < 100)%nat →
  history_step ms [{| h_id := id; h_memory := m; h_generation := g |}]
  = (λ kv, {| h_id := kv.1; h_memory := kv.2; h_generation := S g |})
      <$> predecessors ms id.
Proof.
  intros Hg. unfold history_step. rewrite filter_cons_True by done.
  rewrite filter_nil. simpl. rewrite app_nil_r, Nat.add_1_r. done.
Qed.

(** Along a chain every round holds one row, the rounds are the versions in
    order, and 101 of them are read at most. *)
Lemma history_rounds_chain ms fuel g id m c :
  (g ≤ 100)%nat →
  chain_from ms id c →
  history_rounds fuel ms [{| h_id := id; h_memory := m; h_generation := g |}]
  = to_rows g (take (fuel `min` (101 - g)) ((id, m) :: c)).
Proof.
  revert g id m c. induction fuel as [|fuel IH]; intros g id m c Hg Hc; [done|].
  replace (S fuel `min` (101 - g))%nat with (S (fuel `min` (100 - g))) by lia.
  simpl. f_equal.
  destruct (decide (g < 100)%nat) as [Hlt|Hge].
  - rewrite history_step_single by done.
    destruct c as [|kv c'].
    + simpl in Hc. rewrite Hc. simpl. rewrite history_rounds_nil.
      by rewrite take_nil.
    + destruct kv as [id' m']. destruct Hc as [Hp Hc']. rewrite Hp. simpl.
      rewrite (IH (S g) id' m' c') by (done || lia).
      by replace (101 - S g)%nat with (100 - g)%nat by lia.
  - destruct (history_step_generation ms g
                [{| h_id := id; h_memory := m; h_generation := g |}]) as [_ Hz];
      [by repeat constructor|].
    rewrite Hz by lia. rewrite history_rounds_nil.
    replace (100 - g)%nat with 0%nat by lia. by rewrite Nat.min_0_r.
Qed.

Lemma history_chain ms target_id m c :
  ms !! target_id = Some m →
  chain_from ms target_id c →
  history ms target_id = to_rows 0 (take 101 ((target_id, m) :: c)).
Proof.
  intros Hm Hc. unfold history, history_seed. rewrite Hm.
  by rewrite (history_rounds_chain ms 102 0 target_id m c) by (done || lia).
Qed.

Lemma length_to_rows g l : length (to_rows g l) = length l.
Proof. revert g. induction l as [|kv l IH]; intros g; simpl; [done|]. by rewrite IH. Qed.

(** C9, as the code has it: for a stored id, [trace_history] returns rows in
    non-decreasing [created_at] order, the target (generation 0) among them,
    none of a generation above 100; and when the versions behind the target
    form a chain of [n] records (the target included), the rows are the
    first 101 records of the chain, [min n 101] of them. *)
Theorem trace_history_chain ms target_id m :
  ms !! target_id = Some m →
  ∃ rows,
    trace_history ms target_id = Some rows
    ∧ StronglySorted by_created_at rows
    ∧ {| h_id := target_id; h_memory := m; h_generation := 0 |} ∈ rows
    ∧ Forall (λ h, (h_generation h ≤ 100)%nat) rows
    ∧ ∀ c, chain_from ms target_id c →
        rows ≡ₚ to_rows 0 (take 101 ((target_id, m) :: c))
        ∧ length rows = (S (length c) `min` 101)%nat.
Proof.
  intros Hm.
  pose proof (merge_sort_Permutation by_created_at (history ms target_id)) as Hp.
  assert ({| h_id := target_id; h_memory := m; h_generation := 0 |}
            ∈ history ms target_id) as Hin.
  { unfold history, history_seed. rewrite Hm.
    change (history_rounds 102 ms ?w) with (w ++ history_rounds 101 ms (history_step ms w)).
    apply elem_of_app. left. by apply list_elem_of_singleton. }
  exists (merge_sort by_created_at (history ms target_id)).
  split; [|split; [|split; [|split]]].
  - unfold trace_history. rewrite <- Hp in Hin.
    destruct (merge_sort by_created_at (history ms target_id)); [|done].
    by apply elem_of_nil in Hin.
  - apply StronglySorted_merge_sort; apply _.
  - by rewrite Hp.
  - rewrite Hp. apply (history_rounds_generation ms 102 0); [|lia].
    unfold history_seed. rewrite Hm. by repeat constructor.
  - intros c Hc. rewrite Hp, (history_chain ms target_id m c Hm Hc).
    split; [done|]. rewrite length_to_rows, length_take. cbn [length]. lia.
Qed.

Lemma trace_history_chain_witness :
  ∃ rows,
    trace_history (versions 3) 0 = Some rows
    ∧ rows ≡ₚ to_rows 0 [version 0; version 1; version 2]
    ∧ length rows = 3%nat.
Proof.
  destruct (trace_history_chain (versions 3) 0 (version 0).2) as (rows & H & _ & _ & _ & Hc);
    [by vm_compute|].
  exists rows. split; [done|].
  apply (Hc [version 1; version 2]).
  by vm_compute.
Defined.

(** C9 as stated fails on a chain of 102 versions: the traversal stops
    after generation 100 and returns 101 entries. *)
Lemma trace_history_stops_at_generation_100 :
  versions 102 !! 0 = Some (version 0).2
  ∧ chain_from (versions 102) 0 (version <$> seq 1 101)
  ∧ S (length (version <$> seq 1 101)) = 102%nat
  ∧ (length <$> trace_history (versions 102) 0) = Some 101%nat.
Proof.
  split; [by vm_compute|]. split; [|split].
  - vm_compute. repeat split.
  - by vm_compute.
  - by vm_compute.
Qed.

(** *** Labels and paths (utils.py) *)

Lemma lstrip_char_spec x s :
  ∃ n, s = replicate n x ++ lstrip_char x s ∧ head (lstrip_char x s) ≠ Some x.
Proof.
  induction s as [|c s (n & E & H)].
  - by exists 0%nat.
  - simpl. destruct (N.eqb_spec c x) as [->|Hne].
    + exists (S n). split; [|done]. simpl. by rewrite <- E.
    + exists 0%nat. split; [done|]. simpl. congruence.
Qed.

Lemma lstrip_char_id x s : head s ≠ Some x → lstrip_char x s = s.
Proof.
  destruct s as [|c s]; [done|]. simpl. intros H.
  destruct (N.eqb_spec c x) as [->|]; [done|done].
Qed.

Lemma head_reverse {A} (l : list A) : head (reverse l) = last l.
Proof.
  induction l as [|a l IH] using rev_ind; [done|].
  by rewrite reverse_snoc, last_snoc.
Qed.

Lemma last_reverse {A} (l : list A) : last (reverse l) = head l.
Proof. by rewrite <- head_reverse, reverse_involutive. Qed.

Lemma strip_char_id x s :
  head s ≠ Some x → last s ≠ Some x → strip_char x s = s.
Proof.
  intros Hh Hl. unfold strip_char. rewrite (lstrip_char_id x s Hh).
  rewrite lstrip_char_id by (by rewrite head_reverse).
  apply reverse_involutive.
Qed.

(** [strip_char] returns a middle part of its argument that neither starts
    nor ends with the stripped character. *)
Lemma strip_char_spec x s :
  (∃ n k, s = replicate n x ++ strip_char x s ++ replicate k x)
  ∧ head (strip_char x s) ≠ Some x ∧ last (strip_char x s) ≠ Some x.
Proof.
  unfold strip_char.
  destruct (lstrip_char_spec x s) as (n & E & Hh).
  set (s1 := lstrip_char x s) in *.
  destruct (lstrip_char_spec x (reverse s1)) as (k & E' & Hl).
  set (r := lstrip_char x (reverse s1)) in *.
  assert (s1 = reverse r ++ replicate k x) as Es1.
  { rewrite <- (reverse_involutive s1), E', reverse_app.
    by rewrite reverse_replicate. }
  split; [|split].
  - exists n, k. by rewrite <- Es1.
  - destruct r as [|c r'] eqn:Er; [done|].
    rewrite Es1 in Hh. rewrite reverse_cons in *.
    rewrite <- app_assoc in Hh.
    destruct (reverse r'); simpl in *; done.
  - by rewrite last_reverse.
Qed.

Lemma is_label_char_lower c :
  is_label_char c = true → is_lower_label_char (ascii_lower_char c) = true.
Proof.
  unfold is_label_char, is_lower_label_char, ascii_lower_char.
  intros H.
  destruct (N.leb_spec 65 c), (N.leb_spec c 90); cbn [andb]; try lia.
  - decide_N_tests. done.
  - revert H. decide_N_tests. cbn [andb orb]. rewrite !orb_false_r.
    destruct (N.leb_spec 97 c), (N.leb_spec c 122), (N.leb_spec 48 c),
      (N.leb_spec c 57), (N.eqb_spec c 95); cbn [andb orb]; try done; lia.
  - revert H. decide_N_tests. cbn [andb orb]. rewrite !orb_false_r.
    destruct (N.leb_spec 97 c), (N.leb_spec c 122), (N.leb_spec 48 c),
      (N.leb_spec c 57), (N.eqb_spec c 95); cbn [andb orb]; try done; lia.
Qed.

Lemma ascii_lower_char_underscore c : ascii_lower_char c = 95 ↔ c = 95.
Proof.
  unfold ascii_lower_char.
  destruct (N.leb_spec 65 c), (N.leb_spec c 90); cbn [andb]; lia.
Qed.

Lemma is_lower_label_char_fixed c :
  is_lower_label_char c = true →
  is_label_char c = true ∧ ascii_lower_char c = c
  ∧ (c =? 47) || (c =? 92) = false ∧ c ≠ 46 ∧ py_isspace c = false.
Proof.
  unfold is_lower_label_char, is_label_char, ascii_lower_char, py_isspace.
  intros H.
  assert ((97 ≤ c ∧ c ≤ 122) ∨ (48 ≤ c ∧ c ≤ 57) ∨ c = 95) as Hc.
  { destruct (N.leb_spec 97 c), (N.leb_spec c 122), (N.leb_spec 48 c),
      (N.leb_spec c 57), (N.eqb_spec c 95); cbn [andb orb] in H; try done; lia. }
  repeat split; try lia.
  - destruct Hc as [?|[?|?]]; decide_N_tests; done.
  - destruct Hc as [?|[?|?]]; decide_N_tests; done.
  - destruct Hc as [?|[?|?]]; decide_N_tests; done.
  - destruct Hc as [?|[?|?]]; decide_N_tests; done.
Qed.

Lemma head_fmap_ne {A B} (f : A → B) (l : list A) x y :
  (∀ a, f a = y → a = x) → head l ≠ Some x → head (f <$> l) ≠ Some y.
Proof. intros Hf. destruct l as [|a l]; simpl; [done|]. naive_solver. Qed.

Lemma last_fmap_ne {A B} (f : A → B) (l : list A) x y :
  (∀ a, f a = y → a = x) → last l ≠ Some x → last (f <$> l) ≠ Some y.
Proof.
  intros Hf. rewrite <- !head_reverse, <- fmap_reverse. by apply head_fmap_ne.
Qed.

Lemma label_ok_unknown : label_ok (lit "unknown").
Proof. repeat split; try done. by repeat constructor. Qed.

Lemma label_ok_profile : label_ok (lit "profile").
Proof. repeat split; try done. by repeat constructor. Qed.

Lemma sanitize_ltree_label_wf text : label_ok (sanitize_ltree_label text).
Proof.
  unfold sanitize_ltree_label.
  set (sub := (λ c, if is_label_char c then c else 95) <$> text).
  destruct (strip_char_spec 95 sub) as ((n & k & E) & Hh & Hl).
  set (mid := strip_char 95 sub) in *.
  assert (Forall (λ c, is_label_char c = true) mid) as Hmid.
  { assert (Forall (λ c, is_label_char c = true) sub) as Hsub.
    { apply Forall_fmap, Forall_forall. intros c _. simpl.
      by destruct (is_label_char c) eqn:Hc. }
    rewrite E in Hsub. apply Forall_app in Hsub as [_ Hsub].
    by apply Forall_app in Hsub as [Hsub _]. }
  destruct (ascii_lower mid) as [|c l] eqn:El; [apply label_ok_unknown|].
  rewrite <- El. unfold ascii_lower in *. split; [by rewrite El|].
  split; [|split].
  - apply Forall_fmap. eapply Forall_impl; [exact Hmid|].
    intros a Ha. by apply is_label_char_lower.
  - apply (head_fmap_ne _ _ 95); [|done]. intros a. apply ascii_lower_char_underscore.
  - apply (last_fmap_ne _ _ 95); [|done]. intros a. apply ascii_lower_char_underscore.
Qed.

(** X1: Every label that [sanitize_ltree_label] returns is well formed,
    whatever the input. *)
Theorem sanitize_ltree_label_ok text : label_ok (sanitize_ltree_label text).
Proof. apply sanitize_ltree_label_wf. Qed.

(** A well-formed label is left as it is. *)
Lemma sanitize_ltree_label_fixed w : label_ok w → sanitize_ltree_label w = w.
Proof.
  intros (Hne & Hw & Hh & Hl). unfold sanitize_ltree_label.
  assert (((λ c, if is_label_char c then c else 95) <$> w) = w) as ->.
  { rewrite <- (list_fmap_id w) at 2. apply list_fmap_ext.
    rewrite Forall_forall in Hw. intros i c Hc. simpl.
    destruct (is_lower_label_char_fixed c) as (-> & _); [|done].
    apply Hw. by eapply list_elem_of_lookup_2. }
  rewrite strip_char_id by done.
  assert (ascii_lower w = w) as ->.
  { unfold ascii_lower. rewrite <- (list_fmap_id w) at 2. apply list_fmap_ext.
    rewrite Forall_forall in Hw. intros i c Hc. simpl.
    apply is_lower_label_char_fixed, Hw. by eapply list_elem_of_lookup_2. }
  by destruct w.
Qed.

(** [sanitize_ltree_label] is idempotent. *)
Lemma sanitize_ltree_label_idempotent text :
  sanitize_ltree_label (sanitize_ltree_label text) = sanitize_ltree_label text.
Proof. apply sanitize_ltree_label_fixed, sanitize_ltree_label_wf. Qed.

(** [split_on] undoes [join] on a non-empty list of pieces without the
    separator. *)
Lemma split_on_app sep cur w s :
  Forall (λ c, c ≠ sep) w →
  split_on sep cur (w ++ s) = split_on sep (reverse w ++ cur) s.
Proof.
  intros Hw. revert cur. induction Hw as [|c w Hc _ IH]; intros cur; [done|].
  simpl. destruct (N.eqb_spec c sep); [done|].
  rewrite IH, reverse_cons. by rewrite <- app_assoc.
Qed.

Lemma split_on_join sep ws :
  ws ≠ [] → Forall (Forall (λ c, c ≠ sep)) ws →
  split_on sep [] (join [sep] ws) = ws.
Proof.
  intros Hne Hws. induction Hws as [|w ws Hw Hws IH]; [done|].
  destruct ws as [|w2 ws'].
  - simpl. rewrite <- (app_nil_r w) at 1. rewrite split_on_app by done.
    simpl. by rewrite app_nil_r, reverse_involutive.
  - change (join [sep] (w :: w2 :: ws')) with (w ++ sep :: join [sep] (w2 :: ws')).
    rewrite split_on_app by done. rewrite app_nil_r.
    change (split_on sep (reverse w) (sep :: join [sep] (w2 :: ws')))
      with (if sep =? sep
            then reverse (reverse w) :: split_on sep [] (join [sep] (w2 :: ws'))
            else split_on sep (sep :: reverse w) (join [sep] (w2 :: ws'))).
    rewrite N.eqb_refl, reverse_involutive, IH by done. done.
Qed.

Lemma label_ok_chars w :
  label_ok w →
  Forall (λ c, c ≠ 46) w ∧ strip w = w
  ∧ ((λ c, if (c =? 47) || (c =? 92) then 46 else c) <$> w) = w.
Proof.
  intros (Hne & Hw & _ & _). split; [|split].
  - eapply Forall_impl; [exact Hw|]. intros c Hc.
    by apply is_lower_label_char_fixed in Hc as (_ & _ & _ & ? & _).
  - assert (Forall (λ c, py_isspace c = false) w) as Hns.
    { eapply Forall_impl; [exact Hw|]. intros c Hc.
      by apply is_lower_label_char_fixed in Hc as (_ & _ & _ & _ & ?). }
    unfold strip. destruct w as [|c w]; [done|].
    rewrite lstrip_head_nonspace by (by inversion Hns).
    destruct (reverse (c :: w)) as [|c' r] eqn:Er.
    { apply (f_equal length) in Er. by rewrite length_reverse in Er. }
    rewrite <- (reverse_involutive (c :: w)), Er, reverse_cons.
    apply rstrip_last_nonspace.
    apply Forall_reverse in Hns. rewrite Er in Hns. by inversion Hns.
  - rewrite <- (list_fmap_id w) at 2. apply list_fmap_ext.
    rewrite Forall_forall in Hw. intros i c Hc. simpl.
    destruct (is_lower_label_char_fixed c) as (_ & _ & -> & _); [|done].
    apply Hw. by eapply list_elem_of_lookup_2.
Qed.

Lemma fmap_join (f : N → N) (sep : N) (ws : list str) :
  f <$> join [sep] ws = join [f sep] ((λ w : str, f <$> w) <$> ws).
Proof.
  induction ws as [|w ws IH]; [done|]. destruct ws as [|w2 ws']; [done|].
  change (join [sep] (w :: w2 :: ws')) with (w ++ sep :: join [sep] (w2 :: ws')).
  rewrite fmap_app, fmap_cons, IH. done.
Qed.

Lemma sanitize_ltree_path_wf path :
  ∃ labels,
    sanitize_ltree_path path = join [46] labels
    ∧ labels_ok labels
    ∧ ltree_of (sanitize_ltree_path path) = labels.
Proof.
  unfold sanitize_ltree_path.
  set (segs := sanitize_ltree_label <$> filter _ (split_on 46 [] _)).
  assert (Forall label_ok segs) as Hsegs.
  { apply Forall_fmap, Forall_forall. intros s _. apply sanitize_ltree_label_wf. }
  set (rewritten :=
         match segs with
         | s0 :: rest => if decide (s0 = lit "user") then lit "profile" :: rest else segs
         | [] => []
         end).
  assert (Forall label_ok rewritten ∧ head rewritten ≠ Some (lit "user")) as [Hr Hu].
  { subst rewritten. destruct segs as [|s0 rest]; [by split|].
    destruct (decide (s0 = lit "user")) as [->|Hne].
    - split; [|done]. inversion Hsegs; subst. constructor; [apply label_ok_profile|done].
    - split; [done|]. simpl. congruence. }
  assert (∀ labels, labels_ok labels →
            join [46] labels = join [46] labels ∧ labels_ok labels
            ∧ ltree_of (join [46] labels) = labels) as Hfin.
  { intros labels Hok. split; [done|]. split; [done|].
    destruct Hok as (Hne & _ & Hall & _). unfold ltree_of.
    assert (split_on 46 [] (join [46] labels) = labels) as Hsp.
    { apply split_on_join; [done|]. eapply Forall_impl; [exact Hall|].
      intros w Hw. by apply label_ok_chars in Hw as [? _]. }
    destruct (join [46] labels) eqn:Ej; [|done].
    destruct labels as [|w [|w2 ws]]; [done| |].
    - simpl in Ej. subst w. inversion Hall as [|? ? [? _]]; done.
    - inversion Hall as [|? ? [? _]]; subst. by destruct w. }
  destruct (take 6 rewritten) as [|l0 ls] eqn:Et.
  - exists [lit "reference"; lit "unknown"]. apply (Hfin [lit "reference"; lit "unknown"]).
    repeat split; try done; try (simpl; lia).
    repeat constructor; try done; by repeat constructor.
  - exists (l0 :: ls). rewrite <- Et. apply Hfin. rewrite Et.
    split; [done|]. split; [|split].
    + rewrite <- Et, length_take. lia.
    + rewrite <- Et. by apply Forall_take.
    + rewrite <- Et. destruct rewritten; simpl in *; done.
Qed.

(** X2: The path that [sanitize_ltree_path] returns is made of one to six
    well-formed labels joined by dots, and its first label is not
    ["user"]. *)
Theorem sanitize_ltree_path_ok path :
  ∃ labels,
    sanitize_ltree_path path = join [46] labels
    ∧ labels_ok labels
    ∧ ltree_of (sanitize_ltree_path path) = labels.
Proof. apply sanitize_ltree_path_wf. Qed.

(** A path made of well-formed labels is left as it is. *)
Lemma sanitize_ltree_path_fixed labels :
  labels_ok labels → sanitize_ltree_path (join [46] labels) = join [46] labels.
Proof.
  intros (Hne & Hlen & Hall & Hu). unfold sanitize_ltree_path.
  assert (((λ c, if (c =? 47) || (c =? 92) then 46 else c) <$> join [46] labels)
          = join [46] labels) as ->.
  { rewrite fmap_join. simpl. f_equal.
    rewrite <- (list_fmap_id labels) at 2. apply list_fmap_ext.
    rewrite Forall_forall in Hall. intros i w Hw. simpl.
    apply label_ok_chars, Hall. by eapply list_elem_of_lookup_2. }
  rewrite split_on_join; [|done|].
  2:{ eapply Forall_impl; [exact Hall|]. intros w Hw.
      by apply label_ok_chars in Hw as [? _]. }
  assert (filter (λ s, strip s ≠ []) labels = labels) as ->.
  { clear Hne Hlen Hu. induction Hall as [|w ws Hw _ IH]; [done|].
    rewrite filter_cons_True, IH; [done|].
    destruct (label_ok_chars w Hw) as (_ & -> & _). by destruct Hw. }
  assert (sanitize_ltree_label <$> labels = labels) as ->.
  { rewrite <- (list_fmap_id labels) at 2. apply list_fmap_ext.
    rewrite Forall_forall in Hall. intros i w Hw. simpl.
    apply sanitize_ltree_label_fixed, Hall. by eapply list_elem_of_lookup_2. }
  destruct labels as [|l0 ls]; [done|].
  rewrite decide_False by (simpl in Hu; congruence).
  rewrite take_ge by done. done.
Qed.

(** X3: [sanitize_ltree_path] is idempotent. *)
Theorem sanitize_ltree_path_idempotent path :
  sanitize_ltree_path (sanitize_ltree_path path) = sanitize_ltree_path path.
Proof.
  destruct (sanitize_ltree_path_wf path) as (labels & -> & Hok & _).
  by apply sanitize_ltree_path_fixed.
Qed.

(** *** [truncate_text] (utils.py) *)

Lemma truncate_text_length text max_length :
  (2 ≤ max_length)%nat →
  let half := (max_length / 2)%nat in
  let result := truncate_text text max_length in
  (length result ≤ max_length + 19)%nat
  ∧ ((length text ≤ max_length)%nat → result = text)
  ∧ ((max_length < length text)%nat →
       result = take half text ++ TRUNCATED_MARKER ++ drop (length text - half) text
       ∧ length result = (2 * half + 19)%nat).
Proof.
  intros Hmax half result. subst result. unfold truncate_text.
  assert (2 * half ≤ max_length)%nat as Hhalf.
  { subst half. pose proof (Nat.div_mod_eq max_length 2). lia. }
  assert (0 < half)%nat as Hpos.
  { subst half. apply Nat.div_str_pos. lia. }
  destruct (decide (length text ≤ max_length)%nat) as [Hle|Hgt].
  - split; [lia|]. split; [done|]. lia.
  - fold half. unfold slice_to, slice_last.
    rewrite decide_False by lia.
    assert (length (take half text ++ [10] ++ lit "...[TRUNCATED]..." ++ [10]
                      ++ drop (length text - half) text) = (2 * half + 19)%nat) as Hl.
    { rewrite !length_app, length_take, length_drop.
      change (length (lit "...[TRUNCATED]...")) with 17%nat. simpl. lia. }
    split; [lia|]. split; [lia|]. intros _. split; [|done].
    unfold TRUNCATED_MARKER. by rewrite <- !app_assoc.
Qed.

(** X4: With [max_length >= 2], the result is the text itself when it fits, and
    otherwise the first and the last [max_length // 2] characters around
    the marker: never more than [max_length + 19] characters. *)
Theorem truncate_text_bound text max_length :
  (2 ≤ max_length)%nat →
  let half := (max_length / 2)%nat in
  let result := truncate_text text max_length in
  (length result ≤ max_length + 19)%nat
  ∧ ((length text ≤ max_length)%nat → result = text)
  ∧ ((max_length < length text)%nat →
       result = take half text ++ TRUNCATED_MARKER ++ drop (length text - half) text
       ∧ length result = (2 * half + 19)%nat).
Proof. apply truncate_text_length. Qed.

(** X5: With [max_length] 0 or 1 the half is empty and [text[-0:]] is the whole
    text: a text longer than [max_length] comes back whole, behind the
    marker. *)
Theorem truncate_text_degenerate text max_length :
  (max_length < 2)%nat → (max_length < length text)%nat →
  truncate_text text max_length = TRUNCATED_MARKER ++ text.
Proof.
  intros Hmax Hlen. unfold truncate_text.
  rewrite decide_False by lia.
  assert (max_length / 2 = 0)%nat as -> by (by apply Nat.div_small).
  unfold slice_to, slice_last. rewrite decide_True by done.
  unfold TRUNCATED_MARKER. by rewrite <- !app_assoc.
Qed.

Lemma truncate_text_bound_witness :
  length (truncate_text (lit "abcdefghijk") 10) = 29%nat.
Proof.
  destruct (truncate_text_bound (lit "abcdefghijk") 10) as (_ & _ & H); [lia|].
  destruct H as [_ H]; [vm_compute; lia|].
  exact H.
Defined.

Lemma truncate_text_degenerate_witness :
  truncate_text (lit "ab") 1 = TRUNCATED_MARKER ++ lit "ab".
Proof. apply truncate_text_degenerate; [lia|]. vm_compute. lia. Defined.

(** *** [_with_retries] (utils.py) *)





(** In every run the number of calls is at most [max_retries], and a sleep
    follows a call each time. *)
Lemma with_retries_calls_bound {T} (fn : nat → attempt T) max_retries :
  let r := _with_retries fn max_retries in
  (Z.of_nat (rr_calls r) ≤ Z.max 0 max_retries)%Z
  ∧ (length (rr_sleeps r) ≤ rr_calls r)%nat.
Proof.
  simpl. unfold _with_retries.
  assert (∀ attempts last_exc,
            (rr_calls (retry_loop fn attempts last_exc) ≤ length attempts)%nat
            ∧ (length (rr_sleeps (retry_loop fn attempts last_exc))
               ≤ rr_calls (retry_loop fn attempts last_exc))%nat) as H.
  { induction attempts as [|a rest IH]; intros last_exc; simpl; [lia|].
    destruct (fn a) as [v|status]; simpl; [lia|].
    destruct (_is_retryable status); simpl; [|lia].
    specialize (IH (Some status)). lia. }
  destruct (H (seq 0 (Z.to_nat max_retries)) None) as [H1 H2].
  rewrite length_seq in H1. lia.
Qed.




(** *** The gateway (llm.py) *)

Lemma nat_6000_ge_2 : (2 ≤ 6000)%nat.
Proof. apply Nat.leb_le. by vm_compute. Qed.

(** X9: [evaluate_conflict] never raises.  The arbiter is shown at most 6019
    characters of each text; when it fails, the answer is "supersedes" with
    the whole new text, not the truncated one. *)
Theorem evaluate_conflict_fallback
    (arbitrate_model : str → str → option (option str * option str))
    old_text new_text :
  let safe_old := truncate_text old_text 6000 in
  let safe_new := truncate_text new_text 6000 in
  (length safe_old ≤ 6000 + 19)%nat ∧ (length safe_new ≤ 6000 + 19)%nat
  ∧ ∃ resolution updated_text,
      evaluate_conflict arbitrate_model old_text new_text
      = ([EvArbitrate safe_old safe_new], Ok (resolution, updated_text))
      ∧ (arbitrate_model safe_old safe_new = None →
           resolution = lit "supersedes" ∧ updated_text = new_text)
      ∧ (∀ r u, arbitrate_model safe_old safe_new = Some (r, u) →
           resolution = default (lit "supersedes") r
           ∧ updated_text = default new_text u).
Proof.
  intros safe_old safe_new.
  split; [apply (truncate_text_length old_text 6000 nat_6000_ge_2)|].
  split; [apply (truncate_text_length new_text 6000 nat_6000_ge_2)|].
  unfold evaluate_conflict. fold safe_old safe_new.
  destruct (arbitrate_model safe_old safe_new) as [[r u]|].
  - eexists _, _. split; [done|]. split; [done|]. by intros ? ? [= <- <-].
  - eexists _, _. split; [done|]. split; [done|]. done.
Qed.

Section SegmentationNormalForm.
Variable segment_model : str → str → option (list section).
Variable MIN_SECTION_LENGTH : Z.

Lemma legal_volatility_low : legal_volatility (lit "low") = true.
Proof. by vm_compute. Qed.

Lemma normalize_section_normal s : section_normal (normalize_section s).
Proof.
  unfold section_normal, normalize_section. simpl.
  set (cp := default (lit "reference.unknown") (s_category_path s)).
  destruct (sanitize_ltree_path_wf (if cp is [] then lit "reference.unknown" else cp))
    as (labels & E & Hok & _).
  exists labels. eexists. split; [by rewrite E|]. split; [done|]. split; [done|].
  destruct (legal_volatility (default (lit "low") (s_volatility_class s))) eqn:Hv;
    [done|apply legal_volatility_low].
Qed.

Lemma fallback_section_normal text : section_normal (fallback_section text).
Proof.
  exists [lit "reference"; lit "unknown"], (lit "low"). simpl.
  split; [done|]. split; [|split; [done|apply legal_volatility_low]].
  repeat split; try done; try (simpl; lia).
  repeat constructor; try done; by repeat constructor.
Qed.

Lemma extract_semantic_sections_result text taxonomy :
  ∃ sections,
    extract_semantic_sections segment_model MIN_SECTION_LENGTH text taxonomy
    = ([EvSegment text taxonomy], Ok sections)
    ∧ Forall section_normal sections.
Proof.
  unfold extract_semantic_sections.
  destruct (segment_model text taxonomy) as [[|s ss]|].
  - eexists. split; [done|]. repeat constructor. apply fallback_section_normal.
  - eexists. split; [done|].
    apply Forall_forall. intros s' [_ Hs']%list_elem_of_filter.
    apply list_elem_of_fmap in Hs' as (s0 & -> & _). apply normalize_section_normal.
  - eexists. split; [done|]. repeat constructor. apply fallback_section_normal.
Qed.

(** X10: [extract_semantic_sections] never raises, and every section it returns
    has a well-formed category path (one to six labels over [a-z0-9_], not
    rooted at ["user"]) and one of the four legal volatility classes. *)
Theorem extract_semantic_sections_normal text taxonomy :
  ∃ sections,
    extract_semantic_sections segment_model MIN_SECTION_LENGTH text taxonomy
    = ([EvSegment text taxonomy], Ok sections)
    ∧ Forall section_normal sections.
Proof. apply extract_semantic_sections_result. Qed.
End SegmentationNormalForm.

(** *** Batched persistence (db.py) *)

Lemma batches_go_concat {A} fuel (l : list A) :
  (length l ≤ fuel)%nat →
  concat (batches_go fuel l) = l
  ∧ Forall (λ b, (0 < length b ≤ CHUNK_BATCH_SIZE)%nat) (batches_go fuel l).
Proof.
  revert l. induction fuel as [|fuel IH]; intros l Hl.
  - destruct l; [by split|simpl in Hl; lia].
  - simpl. destruct l as [|a l]; [by split|].
    destruct (IH (drop CHUNK_BATCH_SIZE (a :: l))) as [Hc Hb].
    { rewrite length_drop. unfold CHUNK_BATCH_SIZE. cbn [length] in *. lia. }
    split.
    + simpl. change (a :: take 9 l ++ concat (batches_go fuel (drop 9 l)))
        with (take CHUNK_BATCH_SIZE (a :: l)
              ++ concat (batches_go fuel (drop CHUNK_BATCH_SIZE (a :: l)))).
      rewrite Hc. apply take_drop.
    + constructor; [|done]. rewrite length_take. unfold CHUNK_BATCH_SIZE.
      cbn [length]. lia.
Qed.

(** The batches are the items in order, cut into non-empty pieces of at
    most [CHUNK_BATCH_SIZE]. *)
Lemma batches_partition {A} (l : list A) :
  concat (batches l) = l
  ∧ Forall (λ b, (0 < length b ≤ CHUNK_BATCH_SIZE)%nat) (batches l).
Proof. by apply batches_go_concat. Qed.

Lemma foldl_concat {A B} (f : B → A → B) (acc : B) (ls : list (list A)) :
  foldl (foldl f) acc ls = foldl f acc (concat ls).
Proof.
  revert acc. induction ls as [|l ls IH]; intros acc; [done|].
  simpl. by rewrite foldl_app, IH.
Qed.

Section PersistAllFacts.
Variable cosine_distance : embedding → embedding → pyfloat.
Variable RELATES_TO_THRESHOLD : pyfloat.

Abbreviation persist_item' := (persist_item cosine_distance RELATES_TO_THRESHOLD).
Abbreviation persist_all' := (persist_all cosine_distance RELATES_TO_THRESHOLD).

(** As long as no statement fails, the batches do not show: the loop is
    one pass over the items. *)
Lemma persist_all_fold now st items :
  persist_all' now st items
  = foldl (persist_item' now) ({| first_id := None; prev_id := None |}, st) items.
Proof.
  unfold persist_all, persist_batch. rewrite foldl_concat.
  by rewrite (proj1 (batches_partition items)).
Qed.

Lemma persist_item_first_id now cur st item :
  first_id (persist_item' now (cur, st) item).1
  = if first_id cur is None then Some (effective_id_of item) else first_id cur.
Proof. by destruct item. Qed.

Lemma foldl_persist_first_id now items cur st :
  first_id (foldl (persist_item' now) (cur, st) items).1
  = match first_id cur with
    | Some f => Some f
    | None => effective_id_of <$> head items
    end.
Proof.
  revert cur st. induction items as [|item items IH]; intros cur st.
  - simpl. by destruct (first_id cur).
  - cbn [foldl head fmap option_fmap option_map].
    destruct (persist_item' now (cur, st) item) as [cur' st'] eqn:E.
    rewrite IH. pose proof (persist_item_first_id now cur st item) as H.
    rewrite E in H. simpl in H. rewrite H. by destruct (first_id cur).
Qed.

(** [first_id], the id the run returns, is the effective id of the first
    section result: the matched memory when that section is a duplicate.
    It is [None] exactly when there is no section result. *)
Lemma persist_all_first_id now st items :
  first_id (persist_all' now st items).1 = effective_id_of <$> head items.
Proof. by rewrite persist_all_fold, foldl_persist_first_id. Qed.
End PersistAllFacts.

Lemma same_record_refl m : same_record m m.
Proof. by repeat split. Qed.

Lemma same_record_trans m1 m2 m3 :
  same_record m1 m2 → same_record m2 m3 → same_record m1 m3.
Proof. unfold same_record. intros ? ?. destruct_and!. repeat split; congruence. Qed.

Section PersistInvariants.
Variable cosine_distance : embedding → embedding → pyfloat.
Variable RELATES_TO_THRESHOLD : pyfloat.

Abbreviation persist_item'' := (persist_item cosine_distance RELATES_TO_THRESHOLD).
Abbreviation persist_all'' := (persist_all cosine_distance RELATES_TO_THRESHOLD).

(** The rows after one item. *)
Lemma persist_item_memories now cur st item :
  memories (persist_item'' now (cur, st) item).2
  = match item with
    | Insertion i =>
        let ms1 := upsert_memory now i (memories st) in
        match i_supersedes i with
        | Some old_id => alter (set_supersedes_id (Some (i_id i)) now) old_id ms1
        | None => ms1
        end
    | Duplicate _ duplicate_of =>
        alter (set_last_accessed_at now) duplicate_of (memories st)
    end.
Proof.
  destruct item as [id d|i]; [done|]. unfold persist_item.
  destruct (i_supersedes i), (prev_id cur) as [p|]; try done;
    by destruct (decide (p ≠ _)).
Qed.

Lemma upsert_memory_lookup now i ms id :
  upsert_memory now i ms !! id
  = if decide (id = i_id i)
    then Some match ms !! id with
              | Some m => set_updated_at now m
              | None =>
                  {| m_content := i_chunk i; m_embedding := i_vec i;
                     m_category_path := i_cat_path i; m_supersedes_id := None;
                     m_archived_at := None; m_metadata := i_metadata i;
                     m_created_at := now; m_updated_at := now;
                     m_last_accessed_at := now;
                     m_verify_after := i_verify_after i |}
              end
    else ms !! id.
Proof.
  unfold upsert_memory. destruct (decide (id = i_id i)) as [->|Hne].
  - destruct (ms !! i_id i); by rewrite lookup_insert_eq.
  - destruct (ms !! i_id i); by rewrite lookup_insert_ne.
Qed.

Lemma lookup_alter_Some {A} (f : A → A) (ms : gmap UUID A) k id m' :
  alter f k ms !! id = Some m' →
  ∃ m, ms !! id = Some m ∧ (m' = m ∨ m' = f m).
Proof.
  destruct (decide (k = id)) as [->|Hne].
  - rewrite lookup_alter_eq. destruct (ms !! id) as [m|]; [|done].
    intros [= <-]. eauto.
  - rewrite lookup_alter_ne by done. eauto.
Qed.

Lemma lookup_alter_Some_2 {A} (f : A → A) (ms : gmap UUID A) k id m :
  ms !! id = Some m →
  ∃ m', alter f k ms !! id = Some m' ∧ (m' = m ∨ m' = f m).
Proof.
  intros Hm. destruct (decide (k = id)) as [->|Hne].
  - rewrite lookup_alter_eq, Hm. eauto.
  - rewrite lookup_alter_ne by done. eauto.
Qed.

(** One item deletes no row and leaves the content, embedding, category,
    metadata, [created_at], [archived_at] and [verify_after] of every
    stored row as they were. *)
Lemma persist_item_keeps_rows now cur st item id m :
  memories st !! id = Some m →
  ∃ m', memories (persist_item'' now (cur, st) item).2 !! id = Some m'
        ∧ same_record m m'.
Proof.
  intros Hm. rewrite persist_item_memories. destruct item as [cid d|i].
  - destruct (lookup_alter_Some_2 (set_last_accessed_at now) (memories st) d id m Hm)
      as (m' & -> & [->| ->]); eexists; (split; [done|]); by repeat split.
  - cbv zeta.
    assert (∃ m1, upsert_memory now i (memories st) !! id = Some m1 ∧ same_record m m1)
      as (m1 & Hm1 & Hs1).
    { rewrite upsert_memory_lookup, Hm. case_decide; eexists; (split; [done|]);
        by repeat split. }
    destruct (i_supersedes i) as [old|]; [|eauto].
    destruct (lookup_alter_Some_2 (set_supersedes_id (Some (i_id i)) now) _ old id m1 Hm1)
      as (m' & -> & [->| ->]); eexists; (split; [done|]); [done|].
    eapply same_record_trans; [exact Hs1|]. by repeat split.
Qed.

(** A row that one item creates is the row of that item. *)
Lemma persist_item_new_row now cur st item id m' :
  memories st !! id = None →
  memories (persist_item'' now (cur, st) item).2 !! id = Some m' →
  ∃ i, item = Insertion i ∧ id = i_id i
       ∧ m_content m' = i_chunk i ∧ m_embedding m' = i_vec i
       ∧ m_category_path m' = i_cat_path i ∧ m_metadata m' = i_metadata i
       ∧ m_created_at m' = now ∧ m_archived_at m' = None
       ∧ m_verify_after m' = i_verify_after i.
Proof.
  intros Hn. rewrite persist_item_memories. destruct item as [cid d|i].
  - intros (m & Hm & _)%lookup_alter_Some. congruence.
  - cbv zeta. intros Hm'. exists i. split; [done|].
    assert (∃ m1, upsert_memory now i (memories st) !! id = Some m1
                  ∧ same_record m1 m') as (m1 & Hm1 & Hs).
    { destruct (i_supersedes i) as [old|]; [|eauto using same_record_refl].
      apply lookup_alter_Some in Hm' as (m1 & Hm1 & [->| ->]);
        exists m1; (split; [done|]); by repeat split. }
    rewrite upsert_memory_lookup, Hn in Hm1.
    destruct (decide (id = i_id i)) as [->|]; [|done].
    injection Hm1 as <-. unfold same_record in Hs. simpl in Hs.
    destruct_and!. by repeat split.
Qed.

Lemma foldl_persist_keeps_rows now items cur st id m :
  memories st !! id = Some m →
  ∃ m', memories (foldl (persist_item'' now) (cur, st) items).2 !! id = Some m'
        ∧ same_record m m'.
Proof.
  revert st m cur. induction items as [|item items IH]; intros st m cur Hm.
  - exists m. split; [done|apply same_record_refl].
  - cbn [foldl].
    destruct (persist_item_keeps_rows now cur st item id m Hm) as (m1 & Hm1 & Hs1).
    destruct (persist_item'' now (cur, st) item) as [cur' st'].
    destruct (IH st' m1 cur' Hm1) as (m' & Hm' & Hs').
    exists m'. split; [done|]. by eapply same_record_trans.
Qed.

(** X11: The pipeline deletes no memory, and changes only [supersedes_id],
    [updated_at] and [last_accessed_at] of the rows that were there. *)
Theorem persist_all_keeps_rows now st items id m :
  memories st !! id = Some m →
  ∃ m', memories
          (persist_all cosine_distance RELATES_TO_THRESHOLD now st items).2 !! id
        = Some m'
        ∧ same_record m m'.
Proof. rewrite persist_all_fold. apply foldl_persist_keeps_rows. Qed.

(** When every inserted vector has the configured dimension, so has every
    stored embedding after the loop. *)
Lemma persist_all_embedding_dim d now st items :
  embeddings_of_dim d (memories st) →
  Forall (λ item, ∀ i, item = Insertion i → length (i_vec i) = d) items →
  embeddings_of_dim d (memories (persist_all'' now st items).2).
Proof.
  rewrite persist_all_fold.
  generalize ({| first_id := None; prev_id := None |}).
  revert st. induction items as [|item items IH]; intros st cur Hd Hitems; [done|].
  cbn [foldl]. inversion Hitems as [|? ? Hitem Hrest]; subst.
  destruct (persist_item'' now (cur, st) item) as [cur' st'] eqn:E.
  apply IH; [|done]. intros id m' Hm'.
  assert (st' = (persist_item'' now (cur, st) item).2) as -> by (by rewrite E).
  destruct (memories st !! id) as [m|] eqn:Hm.
  - destruct (persist_item_keeps_rows now cur st item id m Hm) as (m1 & Hm1 & Hs).
    rewrite Hm1 in Hm'. injection Hm' as <-.
    destruct Hs as (_ & -> & _). by eapply Hd.
  - destruct (persist_item_new_row now cur st item id m' Hm Hm')
      as (i & -> & _ & _ & -> & _). by apply Hitem.
Qed.

(** After the loop the effective id of every item is the id of a stored
    row, provided the memory a duplicate matched was stored before. *)
Lemma persist_all_effective_ids_stored now st items item :
  item ∈ items →
  (∀ id d, item = Duplicate id d → is_Some (memories st !! d)) →
  is_Some (memories (persist_all'' now st items).2 !! effective_id_of item).
Proof.
  rewrite persist_all_fold.
  generalize ({| first_id := None; prev_id := None |}).
  revert st. induction items as [|it items IH]; intros st cur Hin Hdup.
  - by apply elem_of_nil in Hin.
  - cbn [foldl]. apply elem_of_cons in Hin as [->|Hin].
    + assert (is_Some (memories (persist_item'' now (cur, st) it).2
                         !! effective_id_of it)) as [m Hm].
      { destruct it as [id d|i].
        - destruct (Hdup id d eq_refl) as [m Hm].
          destruct (persist_item_keeps_rows now cur st (Duplicate id d) d m Hm)
            as (m' & Hm' & _). by eexists.
        - rewrite persist_item_memories. cbv zeta. cbn [effective_id_of].
          assert (is_Some (upsert_memory now i (memories st) !! i_id i)) as [m1 Hm1].
          { rewrite upsert_memory_lookup, decide_True by done. by eexists. }
          destruct (i_supersedes i) as [old|]; [|by eexists].
          destruct (lookup_alter_Some_2 (set_supersedes_id (Some (i_id i)) now)
                      _ old _ m1 Hm1) as (m' & -> & _). by eexists. }
      destruct (persist_item'' now (cur, st) it) as [cur' st']. simpl in Hm.
      destruct (foldl_persist_keeps_rows now items cur' st' _ m Hm) as (m' & -> & _).
      by eexists.
    + destruct (persist_item'' now (cur, st) it) as [cur' st'] eqn:E.
      apply IH; [done|]. intros id d -> . destruct (Hdup id d eq_refl) as [m Hm].
      destruct (persist_item_keeps_rows now cur st it d m Hm) as (m' & Hm' & _).
      rewrite E in Hm'. by eexists.
Qed.
End PersistInvariants.

(** *** The run as a whole (db.py, [process_and_insert_memory]) *)

Lemma gather_Ok {A B} (f : A → M B) l tr rs :
  gather f l = (tr, Ok rs) →
  Forall2 (λ a b, ∃ tr', f a = (tr', Ok b)) l rs.
Proof.
  revert tr rs. induction l as [|a l IH]; intros tr rs.
  - intros [= <- <-]. constructor.
  - cbn [gather]. destruct (f a) as [tra [b|e]] eqn:Ea; [|done].
    cbn. destruct (gather f l) as [trl [bs|e]] eqn:El; [|done].
    cbn. intros [= <- <-]. constructor; [by eexists|]. by eapply IH.
Qed.

Lemma gather_Raise {A B} (f : A → M B) l tr e :
  gather f l = (tr, Raise e) →
  ∃ a tr', a ∈ l ∧ f a = (tr', Raise e).
Proof.
  revert tr. induction l as [|a l IH]; intros tr; [done|].
  cbn [gather]. destruct (f a) as [tra [b|e']] eqn:Ea.
  - cbn. destruct (gather f l) as [trl [bs|e'']] eqn:El; [done|].
    cbn. intros [= <- <-]. destruct (IH _ eq_refl) as (a' & tr' & Ha' & E).
    exists a', tr'. split; [by right|done].
  - cbn. intros [= <- <-]. exists a, tra. split; [by left|done].
Qed.

Section RunFacts.
Variable py_lower : str → str.
Variable uuid5_oid : str → UUID.
Variable cosine_distance : embedding → embedding → pyfloat.
Variable embed_model : str → option embedding.
Variable segment_model : str → str → option (list section).
Variable arbitrate_model : str → str → option (option str * option str).
Variable primer_effect : bool → store → store.
Variable EMBED_DIM : nat.
Variables DUP_THRESHOLD CONFLICT_THRESHOLD RELATES_TO_THRESHOLD : pyfloat.
Variable MIN_SECTION_LENGTH : Z.
Variable MAX_TAXONOMY_PATHS : nat.

Abbreviation section_run :=
  (process_section py_lower uuid5_oid cosine_distance embed_model arbitrate_model
     EMBED_DIM DUP_THRESHOLD CONFLICT_THRESHOLD).
Abbreviation whole_run :=
  (process_and_insert_memory py_lower uuid5_oid cosine_distance embed_model
     segment_model arbitrate_model primer_effect EMBED_DIM DUP_THRESHOLD
     CONFLICT_THRESHOLD RELATES_TO_THRESHOLD MIN_SECTION_LENGTH MAX_TAXONOMY_PATHS).

(** What a section result can be: its vector has the configured dimension,
    a duplicate points to a stored memory, a superseded id is stored; and
    the only exceptions are those of [embed] and of the [None] subscript. *)
Lemma process_section_result ms now base (s : section) tr r :
  section_run ms now base s = (tr, r) →
  match r with
  | Ok (Insertion i) =>
      length (i_vec i) = EMBED_DIM
      ∧ ∀ old_id, i_supersedes i = Some old_id → is_Some (ms !! old_id)
  | Ok (Duplicate _ duplicate_of) => is_Some (ms !! duplicate_of)
  | Raise e => e = EmbedError ∨ e = TypeError_NoneSubscript
  end.
Proof.
  unfold process_section. cbv zeta.
  destruct (ms !! _) as [m|] eqn:Hm; [intros [= <- <-]; by eexists|].
  destruct (embed_cases embed_model EMBED_DIM (default [] (s_content s)))
    as [(vec & _ & Hl & ->)| ->]; [|cbn; intros [= <- <-]; by left].
  cbn -[evaluate_conflict embed].
  destruct (nearest_neighbour _ _ _ _) as [nb|] eqn:Hn.
  - destruct (nearest_neighbour_spec _ _ _ _ _ Hn) as (m & Hnb & _).
    destruct (fgt _ _); [intros [= <- <-]; by eexists|].
    destruct (_ && _); cbn -[evaluate_conflict embed]; [|by intros [= <- <-]].
    destruct (evaluate_conflict_total arbitrate_model (nb_content nb)
                (default [] (s_content s))) as (res & upd & ->).
    cbn -[embed].
    destruct (embed_cases embed_model EMBED_DIM upd) as [(fv & _ & Hl' & ->)| ->];
      cbn; intros [= <- <-]; [|by left].
    split; [done|]. intros old [= <-]. by eexists.
  - destruct (fgt _ _); [intros [= <- <-]; by right|].
    destruct (_ && _); cbn; intros [= <- <-]; [by right|done].
Qed.

Lemma whole_run_unfold text ttl_days now st :
  let taxonomy := active_taxonomy_of MAX_TAXONOMY_PATHS (memories st) in
  let base := {| md_ttl_days := ttl_days; md_tags := None;
                 md_volatility_class := None |} in
  ∃ sections,
    extract_semantic_sections segment_model MIN_SECTION_LENGTH text taxonomy
    = ([EvSegment text taxonomy], Ok sections)
    ∧ ∃ tr r,
        gather (section_run (memories st) now base) sections = (tr, r)
        ∧ whole_run text ttl_days now st
          = match r with
            | Raise e => (st, (EvSegment text taxonomy :: tr, Raise e))
            | Ok [] => (st, (EvSegment text taxonomy :: tr, Raise ValueError_NoSections))
            | Ok (item :: items) =>
                let pc := profile_changed_of sections in
                (primer_effect pc
                   (persist_all cosine_distance RELATES_TO_THRESHOLD now st
                      (item :: items)).2,
                 ((EvSegment text taxonomy :: tr) ++ [EvPrimer pc],
                  Ok (effective_id_of item)))
            end.
Proof.
  intros taxonomy base.
  destruct (extract_semantic_sections_result segment_model MIN_SECTION_LENGTH
              text taxonomy) as (sections & Hex & _).
  exists sections. split; [done|].
  destruct (gather (section_run (memories st) now base) sections) as [tr r] eqn:Hg.
  exists tr, r. split; [done|].
  unfold process_and_insert_memory. fold taxonomy. rewrite Hex.
  cbn -[gather persist_all]. fold base. rewrite Hg.
  destruct r as [[|item items]|e]; cbn -[persist_all]; rewrite ?app_nil_r;
    [by cbn| |done].
  pose proof (persist_all_first_id cosine_distance RELATES_TO_THRESHOLD now st
                (item :: items)) as Hf.
  destruct (persist_all _ _ _ _ _) as [cur st']. simpl in Hf. by rewrite Hf.
Qed.

Lemma gather_results ms now base sections tr items :
  gather (section_run ms now base) sections = (tr, Ok items) →
  length items = length sections
  ∧ Forall (λ item,
       match item with
       | Insertion i =>
           length (i_vec i) = EMBED_DIM
           ∧ ∀ old_id, i_supersedes i = Some old_id → is_Some (ms !! old_id)
       | Duplicate _ d => is_Some (ms !! d)
       end) items.
Proof.
  intros Hg%gather_Ok. split; [symmetry; by eapply Forall2_length|].
  induction Hg as [|s item l items (tr' & Hs) _ IH]; constructor; [|done].
  by apply process_section_result in Hs.
Qed.

(** A run that raises has written nothing: every section is evaluated
    before the first row is written, and the run raises only for a failed
    embedding, a [None] subscript or an empty list of sections. *)
Lemma whole_run_raise_nothing text ttl_days now st e :
  (whole_run text ttl_days now st).2.2 = Raise e →
  (whole_run text ttl_days now st).1 = st
  ∧ (e = EmbedError ∨ e = TypeError_NoneSubscript ∨ e = ValueError_NoSections).
Proof.
  destruct (whole_run_unfold text ttl_days now st)
    as (sections & Hex & tr & r & Hg & ->).
  destruct r as [[|item items]|e']; simpl; [|done|].
  - intros [= <-]. auto.
  - intros [= <-]. split; [done|].
    apply gather_Raise in Hg as (s & tr' & _ & Hs).
    apply process_section_result in Hs. tauto.
Qed.

(** X12: A run that raises has written nothing: every section is evaluated
    before the first row is written, and the run raises only for a failed
    embedding, a [None] subscript or an empty list of sections. *)
Theorem whole_run_raise_writes_nothing text ttl_days now st e :
  (process_and_insert_memory py_lower uuid5_oid cosine_distance embed_model
     segment_model arbitrate_model primer_effect EMBED_DIM DUP_THRESHOLD
     CONFLICT_THRESHOLD RELATES_TO_THRESHOLD MIN_SECTION_LENGTH MAX_TAXONOMY_PATHS
     text ttl_days now st).2.2 = Raise e →
  (process_and_insert_memory py_lower uuid5_oid cosine_distance embed_model
     segment_model arbitrate_model primer_effect EMBED_DIM DUP_THRESHOLD
     CONFLICT_THRESHOLD RELATES_TO_THRESHOLD MIN_SECTION_LENGTH MAX_TAXONOMY_PATHS
     text ttl_days now st).1 = st
  ∧ (e = EmbedError ∨ e = TypeError_NoneSubscript ∨ e = ValueError_NoSections).
Proof. apply whole_run_raise_nothing. Qed.

(** X13: The run raises "No sections produced" exactly when the segmenter
    returned a non-empty list of sections that are all too short. *)
Theorem whole_run_no_sections text ttl_days now st :
  let taxonomy := active_taxonomy_of MAX_TAXONOMY_PATHS (memories st) in
  (process_and_insert_memory py_lower uuid5_oid cosine_distance embed_model
     segment_model arbitrate_model primer_effect EMBED_DIM DUP_THRESHOLD
     CONFLICT_THRESHOLD RELATES_TO_THRESHOLD MIN_SECTION_LENGTH MAX_TAXONOMY_PATHS
     text ttl_days now st).2.2 = Raise ValueError_NoSections
  ↔ ∃ ss, segment_model text taxonomy = Some ss ∧ ss ≠ []
          ∧ Forall (λ s, ¬ long_enough MIN_SECTION_LENGTH s) ss.
Proof.
  intros taxonomy.
  destruct (whole_run_unfold text ttl_days now st)
    as (sections & Hex & tr & r & Hg & ->). fold taxonomy in Hex.
  assert (sections = [] ↔
          ∃ ss, segment_model text taxonomy = Some ss ∧ ss ≠ []
                ∧ Forall (λ s, ¬ long_enough MIN_SECTION_LENGTH s) ss) as Hiff.
  { unfold extract_semantic_sections in Hex.
    destruct (segment_model text taxonomy) as [[|s0 ss]|].
    - injection Hex as <-. split; [done|]. by intros (ss & [= <-] & ? & _).
    - cbv [mbind M_bind emit mret M_ret] in Hex. injection Hex as Hsec.
      assert (∀ s', s' ∈ sections
                    ↔ ∃ s, s' = normalize_section s ∧ s ∈ s0 :: ss
                           ∧ long_enough MIN_SECTION_LENGTH s) as Hmem.
      { intros s'. rewrite <- Hsec. split.
        - intros [Hlong Hin]%list_elem_of_filter.
          apply (list_elem_of_fmap normalize_section (s0 :: ss)) in Hin
            as (s & -> & Hs). eauto.
        - intros (s & -> & Hs & Hlong). apply list_elem_of_filter. split; [done|].
          by apply (list_elem_of_fmap_2 normalize_section (s0 :: ss)). }
      clear Hsec. destruct sections as [|s' l].
      + split; [intros _|done]. exists (s0 :: ss). split; [done|]. split; [done|].
        apply Forall_forall. intros s Hs Hlong.
        eapply elem_of_nil, Hmem. eauto.
      + split; [done|]. intros (ss' & [= <-] & _ & Hall).
        destruct (proj1 (Hmem s')) as (s & _ & Hs & Hlong); [by left|].
        rewrite Forall_forall in Hall. by destruct (Hall s Hs).
    - injection Hex as <-. split; [done|]. by intros (ss & ? & _). }
  rewrite <- Hiff. destruct r as [[|item items]|e]; simpl.
  - apply gather_results in Hg as [Hlen _]. destruct sections; [done|done].
  - apply gather_results in Hg as [Hlen _]. split; [done|]. by intros ->.
  - split.
    + intros [= ->]. apply gather_Raise in Hg as (s & tr' & _ & Hs).
      apply process_section_result in Hs. by destruct Hs.
    + intros ->. done.
Qed.

(** X14: A run that returns leaves the returned id as the id of a stored row
    (given that the primer rebuild deletes none). *)
Theorem whole_run_returned_id_stored text ttl_days now st st' tr fid :
  (∀ b s id, is_Some (memories s !! id) → is_Some (memories (primer_effect b s) !! id)) →
  process_and_insert_memory py_lower uuid5_oid cosine_distance embed_model
     segment_model arbitrate_model primer_effect EMBED_DIM DUP_THRESHOLD
     CONFLICT_THRESHOLD RELATES_TO_THRESHOLD MIN_SECTION_LENGTH MAX_TAXONOMY_PATHS
    text ttl_days now st = (st', (tr, Ok fid)) →
  is_Some (memories st' !! fid).
Proof.
  intros Hprimer.
  destruct (whole_run_unfold text ttl_days now st)
    as (sections & Hex & tr0 & r & Hg & ->).
  destruct r as [[|item items]|e]; [done| |done].
  cbv zeta. intros [= <- _ <-]. apply Hprimer.
  apply gather_results in Hg as [_ Hall].
  apply persist_all_effective_ids_stored; [by left|].
  intros id d ->. by inversion Hall.
Qed.

(** A run keeps the dimension of the stored embeddings (given that the
    primer rebuild does). *)
Lemma whole_run_embedding_dim text ttl_days now st :
  (∀ b s, embeddings_of_dim EMBED_DIM (memories s) →
          embeddings_of_dim EMBED_DIM (memories (primer_effect b s))) →
  embeddings_of_dim EMBED_DIM (memories st) →
  embeddings_of_dim EMBED_DIM (memories (whole_run text ttl_days now st).1).
Proof.
  intros Hprimer Hd.
  destruct (whole_run_unfold text ttl_days now st)
    as (sections & Hex & tr0 & r & Hg & ->).
  destruct r as [[|item items]|e]; [done| |done].
  cbv zeta. simpl. apply Hprimer.
  apply gather_results in Hg as [_ Hall].
  apply persist_all_embedding_dim; [done|].
  eapply Forall_impl; [exact Hall|]. intros it Hit i ->. by destruct Hit.
Qed.
End RunFacts.

(** *** The foreign keys of the edge table *)

Section ForeignKeys.
Variable cosine_distance : embedding → embedding → pyfloat.
Variable RELATES_TO_THRESHOLD : pyfloat.

Abbreviation persist_item_fk := (persist_item cosine_distance RELATES_TO_THRESHOLD).
Abbreviation persist_all_fk := (persist_all cosine_distance RELATES_TO_THRESHOLD).

Lemma is_Some_alter {A} (f : A → A) (ms : gmap UUID A) k id :
  is_Some (alter f k ms !! id) ↔ is_Some (ms !! id).
Proof.
  destruct (decide (k = id)) as [->|Hne].
  - rewrite lookup_alter_eq. destruct (ms !! id); simpl; split; intros [? ?]; by eexists.
  - by rewrite lookup_alter_ne.
Qed.

Lemma is_Some_upsert now i ms id :
  is_Some (upsert_memory now i ms !! id) ↔ id = i_id i ∨ is_Some (ms !! id).
Proof.
  rewrite upsert_memory_lookup. case_decide as Hid.
  - split; [by left|]. intros _. by eexists.
  - split; [by right|]. by intros [?|?].
Qed.

Lemma relates_to_targets_stored insert_id vec cat_path ms t :
  t ∈ relates_to_targets cosine_distance RELATES_TO_THRESHOLD insert_id vec cat_path ms →
  is_Some (ms !! t) ∧ t ≠ insert_id.
Proof.
  unfold relates_to_targets. intros Ht.
  apply list_elem_of_fmap in Ht as ([id m] & -> & Hin). simpl.
  apply elem_of_take in Hin as (j & Hin & _).
  apply list_elem_of_lookup_2 in Hin.
  rewrite merge_sort_Permutation in Hin.
  apply list_elem_of_filter in Hin as [(Hne & _) Hin]. simpl in Hne.
  apply elem_of_map_to_list in Hin. split; [by eexists|done].
Qed.

Lemma upsert_edges_closed now i st :
  edges_closed st → edges_closed (with_memories (upsert_memory now i (memories st)) st).
Proof.
  intros Hc e He. simpl in *. rewrite !is_Some_upsert. destruct (Hc e He). auto.
Qed.

Lemma supersede_edges_closed now new_id old_id st :
  edges_closed st → is_Some (memories st !! new_id) →
  edges_closed (supersede now new_id old_id st).
Proof.
  intros Hc Hnew e He. unfold supersede in *. simpl in *. rewrite !is_Some_alter.
  apply elem_of_rewired in He as (_ & e0 & He0 & ->).
  destruct (Hc e0 He0) as [Hs Ht].
  unfold substitute_edge, substitute, source_id, target_id in *. simpl.
  split; case_decide; done.
Qed.

Lemma supersede_is_Some now new_id old_id st id :
  is_Some (memories (supersede now new_id old_id st) !! id)
  ↔ is_Some (memories st !! id).
Proof. unfold supersede. simpl. apply is_Some_alter. Qed.

Lemma insert_relates_to_edges_closed insert_id vec cat_path st :
  edges_closed st → is_Some (memories st !! insert_id) →
  edges_closed (insert_relates_to cosine_distance RELATES_TO_THRESHOLD
                  insert_id vec cat_path st).
Proof.
  intros Hc Hid e He. unfold insert_relates_to in *. simpl in *.
  apply elem_of_union in He as [He|He]; [by apply Hc|].
  apply elem_of_list_to_set, list_elem_of_fmap in He as (t & -> & Ht).
  apply relates_to_targets_stored in Ht as [Ht _].
  unfold source_id, target_id. simpl. done.
Qed.

Lemma add_edge_closed (e : edge) st :
  edges_closed st → is_Some (memories st !! source_id e) →
  is_Some (memories st !! target_id e) →
  edges_closed (with_edges (memory_edges st ∪ {[ e ]}) st).
Proof.
  intros Hc Hs Ht e' He'. simpl in *.
  apply elem_of_union in He' as [He'|He']; [by apply Hc|].
  by apply elem_of_singleton in He' as ->.
Qed.

Lemma persist_item_insertion now cur st i :
  persist_item_fk now (cur, st) (Insertion i)
  = let st1 := with_memories (upsert_memory now i (memories st)) st in
    let st2 := match i_supersedes i with
               | Some old_id => supersede now (i_id i) old_id st1
               | None => st1
               end in
    let st3 := insert_relates_to cosine_distance RELATES_TO_THRESHOLD
                 (i_id i) (i_vec i) (i_cat_path i) st2 in
    ({| first_id := if first_id cur is None then Some (i_id i) else first_id cur;
        prev_id := Some (i_id i) |},
     match prev_id cur with
     | Some p =>
         if decide (p ≠ i_id i)
         then with_edges (memory_edges st3 ∪ {[ (p, i_id i, sequence_next) ]}) st3
         else st3
     | None => st3
     end).
Proof. done. Qed.

Lemma persist_item_fk_invariant now cur st item :
  fk_invariant (cur, st) → fk_invariant (persist_item_fk now (cur, st) item).
Proof.
  intros [Hclosed Hprev]. simpl in Hclosed, Hprev.
  destruct item as [cid d|i].
  - split; simpl.
    + intros e He. simpl. rewrite !is_Some_alter. by apply Hclosed.
    + intros p Hp. rewrite is_Some_alter. by apply Hprev.
  - rewrite persist_item_insertion. cbv zeta.
    pose proof (upsert_edges_closed now i st Hclosed) as Hc1.
    assert (is_Some (memories (with_memories (upsert_memory now i (memories st)) st)
                       !! i_id i)) as Hi1 by (apply is_Some_upsert; by left).
    assert (∀ id, is_Some (memories st !! id) →
              is_Some (memories (with_memories (upsert_memory now i (memories st)) st)
                         !! id)) as Hm1 by (intros id ?; apply is_Some_upsert; by right).
    generalize dependent (with_memories (upsert_memory now i (memories st)) st).
    intros st1 Hc1 Hi1 Hm1.
    assert (edges_closed
              (match i_supersedes i with
               | Some old_id => supersede now (i_id i) old_id st1
               | None => st1
               end)
            ∧ is_Some (memories (match i_supersedes i with
                                 | Some old_id => supersede now (i_id i) old_id st1
                                 | None => st1
                                 end) !! i_id i)
            ∧ ∀ id, is_Some (memories st !! id) →
                is_Some (memories (match i_supersedes i with
                                   | Some old_id => supersede now (i_id i) old_id st1
                                   | None => st1
                                   end) !! id)) as (Hc2 & Hi2 & Hm2).
    { destruct (i_supersedes i) as [old|]; [|done]. split; [|split].
      - by apply supersede_edges_closed.
      - by apply supersede_is_Some.
      - intros id Hid. apply supersede_is_Some. auto. }
    generalize dependent (match i_supersedes i with
                          | Some old_id => supersede now (i_id i) old_id st1
                          | None => st1
                          end).
    intros st2 Hc2 Hi2 Hm2.
    pose proof (insert_relates_to_edges_closed (i_id i) (i_vec i) (i_cat_path i)
                  st2 Hc2 Hi2) as Hc3.
    assert (memories (insert_relates_to cosine_distance RELATES_TO_THRESHOLD
                        (i_id i) (i_vec i) (i_cat_path i) st2) = memories st2)
      as Em3 by done.
    generalize dependent (insert_relates_to cosine_distance RELATES_TO_THRESHOLD
                            (i_id i) (i_vec i) (i_cat_path i) st2).
    intros st3 Hc3 Em3.
    destruct (prev_id cur) as [p|] eqn:Ep.
    + destruct (decide (p ≠ i_id i)) as [Hne|Heq]; split;
        cbn [fst snd prev_id].
      * apply add_edge_closed; [done| |].
        -- rewrite Em3. apply Hm2, Hprev. done.
        -- by rewrite Em3.
      * intros ? [= <-]. change (is_Some (memories st3 !! i_id i)). by rewrite Em3.
      * done.
      * intros ? [= <-]. by rewrite Em3.
    + split; cbn [fst snd prev_id]; [done|]. intros ? [= <-]. by rewrite Em3.
Qed.

Lemma upsert_memory_twice now i ms :
  upsert_memory now i (upsert_memory now i ms) = upsert_memory now i ms.
Proof.
  unfold upsert_memory at 1.
  pose proof (upsert_memory_lookup now i ms (i_id i)) as Hl.
  rewrite decide_True in Hl by done. rewrite Hl.
  apply insert_id. rewrite Hl. f_equal.
  destruct (ms !! i_id i) as [[]|]; done.
Qed.

(** X15: Writing the same fresh insertion twice in a row is writing it once:
    the second pass changes neither a row, nor an edge, nor the cursor. *)
Theorem persist_item_fresh_idempotent now cur st i :
  i_supersedes i = None →
  persist_item cosine_distance RELATES_TO_THRESHOLD now
    (persist_item cosine_distance RELATES_TO_THRESHOLD now (cur, st) (Insertion i))
    (Insertion i)
  = persist_item cosine_distance RELATES_TO_THRESHOLD now (cur, st) (Insertion i).
Proof.
  intros Hs. rewrite (persist_item_insertion now cur st i). cbv zeta. rewrite Hs.
  set (st3 := insert_relates_to cosine_distance RELATES_TO_THRESHOLD (i_id i)
                (i_vec i) (i_cat_path i)
                (with_memories (upsert_memory now i (memories st)) st)).
  set (st4 := match prev_id cur with
              | Some p =>
                  if decide (p ≠ i_id i)
                  then with_edges (memory_edges st3 ∪ {[ (p, i_id i, sequence_next) ]}) st3
                  else st3
              | None => st3
              end).
  assert (memories st4 = upsert_memory now i (memories st)) as Em.
  { subst st4. destruct (prev_id cur) as [p|]; [|done]. by case_decide. }
  assert (memory_edges st3 ⊆ memory_edges st4) as Hsub.
  { subst st4. destruct (prev_id cur) as [p|]; [|done].
    case_decide; [|done]. simpl. set_solver. }
  assert (ingestion_staging st4 = ingestion_staging st3
          ∧ context_store st4 = context_store st3) as [Eg Ec].
  { subst st4. destruct (prev_id cur) as [p|]; [|done]. by case_decide. }
  rewrite persist_item_insertion. cbv zeta. rewrite Hs.
  cbn [first_id prev_id]. rewrite decide_False by (by intros ?).
  f_equal.
  - f_equal. by destruct (first_id cur).
  - unfold insert_relates_to, with_edges, with_memories.
    cbn [memories memory_edges ingestion_staging context_store].
    rewrite Em, upsert_memory_twice.
    assert (memory_edges st4
              ∪ list_to_set ((λ t, (i_id i, t, relates_to))
                   <$> relates_to_targets cosine_distance RELATES_TO_THRESHOLD
                         (i_id i) (i_vec i) (i_cat_path i)
                         (upsert_memory now i (memories st)))
            = memory_edges st4) as ->.
    { assert (list_to_set ((λ t, (i_id i, t, relates_to))
                   <$> relates_to_targets cosine_distance RELATES_TO_THRESHOLD
                         (i_id i) (i_vec i) (i_cat_path i)
                         (upsert_memory now i (memories st)))
              ⊆ memory_edges st3) as Hr.
      { subst st3. unfold insert_relates_to. simpl. apply union_subseteq_r. }
      clear -Hr Hsub. set_solver. }
    rewrite <- Em. by destruct st4.
Qed.

(** X16: The persistence loop keeps the two foreign keys of [memory_edges]:
    started on a store whose edges join stored rows, it ends on one. *)
Theorem persist_all_edges_closed now st items :
  edges_closed st →
  edges_closed (persist_all cosine_distance RELATES_TO_THRESHOLD now st items).2.
Proof.
  intros Hc. rewrite persist_all_fold.
  assert (fk_invariant ({| first_id := None; prev_id := None |}, st)) as Hinv
    by (by split).
  revert Hinv. generalize ({| first_id := None; prev_id := None |}, st).
  induction items as [|item items IH]; intros acc Hinv; [apply Hinv|].
  cbn [foldl]. apply IH. destruct acc as [cur st0].
  by apply persist_item_fk_invariant.
Qed.
End ForeignKeys.

(** *** [is_profile_path] (db.py) *)

Lemma split_on_first sep cur s :
  ∃ w rest, split_on sep cur s = w :: rest
            ∧ reverse cur `prefix_of` w ∧ w `prefix_of` reverse cur ++ s.
Proof.
  revert cur. induction s as [|c s IH]; intros cur; simpl.
  - eexists _, _. split; [done|]. by rewrite app_nil_r.
  - destruct (N.eqb_spec c sep) as [->|Hne].
    + eexists _, _. split; [done|]. split; [done|]. by apply prefix_app_r.
    + destruct (IH (c :: cur)) as (w & rest & -> & Hp & Hw).
      exists w, rest. split; [done|]. rewrite reverse_cons in *.
      rewrite <- app_assoc in Hw. split; [|done].
      etrans; [|exact Hp]. by apply prefix_app_r.
Qed.

(** X17: [is_profile_path] holds exactly when the first label of the path
    starts with ["profile"]; so it holds for every path under the root
    [profile] ([category_path <@ 'profile']), and for roots such as
    [profiles] as well. *)
Theorem is_profile_path_first_label category_path :
  (is_profile_path category_path = true
   ↔ ∃ w rest, ltree_of category_path = w :: rest ∧ lit "profile" `prefix_of` w)
  ∧ (ltree_descendant category_path (lit "profile") = true →
     is_profile_path category_path = true).
Proof.
  assert (is_profile_path category_path = true
          ↔ ∃ w rest, ltree_of category_path = w :: rest ∧ lit "profile" `prefix_of` w)
    as Hiff.
  { unfold is_profile_path. rewrite bool_decide_eq_true. split.
    - intros [s' ->]. unfold ltree_of.
      change (lit "profile" ++ s') with (112 :: (drop 1 (lit "profile") ++ s')).
      change (112 :: (drop 1 (lit "profile") ++ s')) with (lit "profile" ++ s').
      rewrite split_on_app by (by repeat constructor).
      destruct (split_on_first 46 (reverse (lit "profile") ++ []) s')
        as (w & rest & -> & Hp & _).
      exists w, rest. split; [done|].
      by rewrite app_nil_r, reverse_involutive in Hp.
    - intros (w & rest & E & Hp). unfold ltree_of in E.
      destruct category_path as [|c p]; [done|].
      destruct (split_on_first 46 [] (c :: p)) as (w' & rest' & E' & _ & Hw).
      rewrite E in E'. injection E' as <- <-. by etrans. }
  split; [done|]. intros Hd. apply Hiff.
  unfold ltree_descendant in Hd. apply bool_decide_eq_true in Hd.
  change (ltree_of (lit "profile")) with [lit "profile"] in Hd.
  destruct Hd as [rest ->]. by eexists _, _.
Qed.

(** *** Verification (tools/context.py) *)

Lemma compute_verify_after_future volatility_class now v :
  _compute_verify_after volatility_class now = Some v → (now + 7 * DAY ≤ v)%Z.
Proof.
  unfold _compute_verify_after, _VOLATILITY_DELTAS.
  repeat case_decide; simpl; try done; try case_decide; try done;
    intros [= <-]; unfold DAY; lia.
Qed.

(** X18: Confirming a memory restarts its TTL: a confirmed memory with
    [ttl_days] set is not archived by a tick of the daemon until the whole
    TTL has passed again, counted from the confirmation. *)
Theorem confirm_restarts_ttl now target_id st st' reply row d t :
  confirm_memory_validity now target_id st = (st', Some reply) →
  memories st !! target_id = Some row →
  md_ttl_days (m_metadata row) = Some d →
  (t ≤ now + d * DAY)%Z →
  ∃ row', memories st' !! target_id = Some row'
          ∧ m_updated_at row' = now
          ∧ ttl_elapsed t row' = false
          ∧ memories (soft_archive t st').2 !! target_id = Some row'.
Proof.
  unfold confirm_memory_validity. intros Hc Hrow Hd Ht. rewrite Hrow in Hc.
  destruct (active row) eqn:Ha; [|done]. injection Hc as <- _.
  eexists. simpl. rewrite lookup_alter_eq, Hrow. simpl.
  split; [done|]. split; [done|].
  assert (ttl_elapsed t (set_verify_after
            (_compute_verify_after
               (default (lit "low") (md_volatility_class (m_metadata row))) now)
            now row) = false) as He.
  { unfold ttl_elapsed. simpl. rewrite Hd.
    rewrite (bool_decide_eq_false_2 (now + d * DAY < t)%Z) by lia.
    apply andb_false_r. }
  split; [done|].
  rewrite lookup_fmap, lookup_alter_eq, Hrow. simpl. by rewrite He.
Qed.

Lemma expired_rows_due now ms id m :
  (id, m) ∈ expired_rows now ms → ms !! id = Some m ∧ verification_due now m = true.
Proof.
  unfold expired_rows. intros Hin.
  apply subseteq_take in Hin. rewrite merge_sort_Permutation in Hin.
  apply list_elem_of_filter in Hin as [Hdue Hin]. simpl in Hdue.
  apply elem_of_map_to_list in Hin. split; [done|]. by apply Is_true_true.
Qed.

(** X19: A confirmed memory is active, its next deadline is at least seven days
    away or absent (class "static"), and it is not among the rows
    [initialize_context] asks to verify before that deadline; a memory
    that is missing, superseded or archived is refused and nothing is
    written. *)
Theorem confirm_memory_validity_effect now target_id st :
  match confirm_memory_validity now target_id st with
  | (st', Some (volatility_class, next_verify_after)) =>
      ∃ row, memories st !! target_id = Some row ∧ active row = true
        ∧ memories st' !! target_id = Some (set_verify_after next_verify_after now row)
        ∧ (∀ v, next_verify_after = Some v → now + 7 * DAY ≤ v)%Z
        ∧ (∀ t m, (∀ v, next_verify_after = Some v → t ≤ v)%Z →
                  (target_id, m) ∉ expired_rows t (memories st'))
        ∧ (∀ id, id ≠ target_id → memories st' !! id = memories st !! id)
        ∧ memory_edges st' = memory_edges st
  | (st', None) =>
      st' = st
      ∧ ∀ row, memories st !! target_id = Some row → active row = false
  end.
Proof.
  unfold confirm_memory_validity.
  destruct (memories st !! target_id) as [row|] eqn:Hrow; [|done].
  destruct (active row) eqn:Ha; [|split; [done|by intros ? [= <-]]].
  exists row. split; [done|]. split; [done|]. simpl.
  split; [by rewrite lookup_alter_eq, Hrow|].
  split; [intros v; apply compute_verify_after_future|].
  split; [|split; [|done]].
  - intros t m Hv Hin. apply expired_rows_due in Hin as [Hm Hdue].
    rewrite lookup_alter_eq, Hrow in Hm. injection Hm as <-.
    unfold verification_due in Hdue. simpl in Hdue.
    destruct (_compute_verify_after _ now) as [v|] eqn:Ev;
      [|by rewrite andb_false_r in Hdue].
    specialize (Hv v eq_refl).
    rewrite (bool_decide_eq_false_2 (v < t)%Z) in Hdue by lia.
    by rewrite andb_false_r in Hdue.
  - intros id Hne. by rewrite lookup_alter_ne.
Qed.

(** *** The primer transaction (tools/context.py) *)

Lemma retire_primer_lookup primer_id now ms o id :
  retire_primer primer_id now ms o !! id
  = if decide (id = o ∧ id ≠ primer_id)
    then set_supersedes_id (Some primer_id) now <$> ms !! id
    else ms !! id.
Proof.
  unfold retire_primer. destruct (decide (o = primer_id)) as [->|Hop].
  - rewrite decide_False; [done|]. by intros [-> ?].
  - destruct (decide (id = o)) as [->|Hio].
    + rewrite lookup_alter_eq. by rewrite decide_True.
    + rewrite lookup_alter_ne by done. rewrite decide_False; [done|]. by intros [? _].
Qed.

Lemma foldl_retire_lookup primer_id now olds ms id :
  foldl (retire_primer primer_id now) ms olds !! id
  = if decide (id ∈ olds ∧ id ≠ primer_id)
    then set_supersedes_id (Some primer_id) now <$> ms !! id
    else ms !! id.
Proof.
  revert ms. induction olds as [|o olds IH]; intros ms.
  - cbn [foldl]. destruct (decide (id ∈ [] ∧ id ≠ primer_id)) as [[H _]|]; [|done].
    by apply elem_of_nil in H.
  - cbn [foldl]. rewrite IH, retire_primer_lookup.
    destruct (decide (id ∈ olds ∧ id ≠ primer_id)) as [[Hin Hne]|Hn],
             (decide (id = o ∧ id ≠ primer_id)) as [[-> Hne']|Hn'].
    + rewrite decide_True by (split; [by left|done]).
      by destruct (ms !! o) as [[]|].
    + rewrite decide_True by (split; [by right|done]). done.
    + rewrite decide_True by (split; [by left|done]). done.
    + rewrite decide_False; [done|]. intros [[->|Hin]%elem_of_cons Hne]; tauto.
Qed.

Lemma primer_transaction_lookup primer_id content vec now ms id :
  primer_transaction primer_id content vec now ms !! id
  = if decide (id = primer_id)
    then Some match ms !! primer_id with
              | Some m => set_content content now m
              | None =>
                  {| m_content := content; m_embedding := vec;
                     m_category_path := PRIMER_PATH; m_supersedes_id := None;
                     m_archived_at := None; m_metadata := empty_metadata;
                     m_created_at := now; m_updated_at := now;
                     m_last_accessed_at := now; m_verify_after := None |}
              end
    else match ms !! id with
         | Some m =>
             Some (if is_active_primer m
                   then set_supersedes_id (Some primer_id) now m else m)
         | None => None
         end.
Proof.
  unfold primer_transaction. cbv zeta.
  set (olds := (filter (λ kv, is_active_primer kv.2) (map_to_list ms)).*1).
  assert (∀ k, k ∈ olds ↔ ∃ m, ms !! k = Some m ∧ is_active_primer m = true) as Holds.
  { intros k. subst olds. rewrite list_elem_of_fmap. split.
    - intros ([k' m] & -> & [Hp Hin]%list_elem_of_filter). simpl in *.
      apply elem_of_map_to_list in Hin. exists m. split; [done|].
      by apply Is_true_true.
    - intros (m & Hm & Hp). exists (k, m). split; [done|].
      apply list_elem_of_filter. split; [by apply Is_true_true|].
      by apply elem_of_map_to_list. }
  pose proof (foldl_retire_lookup primer_id now olds ms) as Hl.
  assert (foldl (retire_primer primer_id now) ms olds !! primer_id = ms !! primer_id)
    as Hp.
  { rewrite Hl. rewrite decide_False; [done|]. by intros [_ ?]. }
  destruct (decide (id = primer_id)) as [->|Hne].
  - rewrite Hp. destruct (ms !! primer_id); by rewrite lookup_insert_eq.
  - assert (∀ x, <[primer_id := x]> (foldl (retire_primer primer_id now) ms olds) !! id
                 = foldl (retire_primer primer_id now) ms olds !! id) as Hi
      by (intros x; by rewrite lookup_insert_ne).
    assert (foldl (retire_primer primer_id now) ms olds !! id
            = match ms !! id with
              | Some m =>
                  Some (if is_active_primer m
                        then set_supersedes_id (Some primer_id) now m else m)
              | None => None
              end) as Hid.
    { rewrite Hl. destruct (ms !! id) as [m|] eqn:Hm.
      - destruct (is_active_primer m) eqn:Ha.
        + rewrite decide_True; [done|]. split; [|done]. apply Holds. eauto.
        + rewrite decide_False; [done|]. intros [(m' & Hm' & Ha')%Holds _].
          congruence.
      - by case_decide. }
    rewrite Hp. destruct (ms !! primer_id); by rewrite Hi, Hid.
Qed.

Lemma primer_transaction_active_id primer_id content vec now ms id m :
  primer_transaction primer_id content vec now ms !! id = Some m →
  is_active_primer m = true →
  id = primer_id.
Proof.
  rewrite primer_transaction_lookup. case_decide as Hid; [done|].
  destruct (ms !! id) as [m0|]; [|done]. intros [= <-].
  destruct (is_active_primer m0) eqn:Ha; [|congruence].
  unfold is_active_primer, active. simpl. by rewrite andb_false_r.
Qed.

(** X20: After the transaction at most one primer is active: every active row
    at the primer path has the id of the primer just written. *)
Theorem primer_transaction_single_active primer_id content vec now ms id m :
  primer_transaction primer_id content vec now ms !! id = Some m →
  is_active_primer m = true →
  id = primer_id.
Proof. apply primer_transaction_active_id. Qed.

(** X21: A primer is active after the transaction exactly when its id was not
    stored before, or was the id of an active primer.  When the id is that
    of an earlier, superseded primer (the text is back to what it was), the
    upsert touches only [content] and [updated_at], and no primer is
    active afterwards. *)
Theorem primer_transaction_active primer_id content vec now ms :
  (∃ id m, primer_transaction primer_id content vec now ms !! id = Some m
           ∧ is_active_primer m = true)
  ↔ match ms !! primer_id with
    | Some m => is_active_primer m = true
    | None => True
    end.
Proof.
  split.
  - intros (id & m & Hm & Ha).
    pose proof (primer_transaction_active_id _ _ _ _ _ _ _ Hm Ha) as ->.
    rewrite primer_transaction_lookup, decide_True in Hm by done.
    destruct (ms !! primer_id) as [m0|]; [|done].
    injection Hm as <-. by destruct m0.
  - intros H. exists primer_id. eexists.
    rewrite primer_transaction_lookup, decide_True by done. split; [done|].
    destruct (ms !! primer_id) as [[]|]; [done|]. by vm_compute.
Qed.

(** X22: The transaction deletes no row; apart from the primer row and the
    retired primers' [supersedes_id] and [updated_at], rows are as they
    were, and a new primer row carries the given embedding. *)
Theorem primer_transaction_keeps_rows primer_id content vec now ms id m :
  ms !! id = Some m →
  ∃ m', primer_transaction primer_id content vec now ms !! id = Some m'
        ∧ m_embedding m' = m_embedding m
        ∧ m_category_path m' = m_category_path m
        ∧ m_created_at m' = m_created_at m
        ∧ (id ≠ primer_id → same_record m m').
Proof.
  intros Hm. rewrite primer_transaction_lookup. case_decide as Hid.
  - subst id. rewrite Hm. eexists. split; [done|]. by repeat split.
  - rewrite Hm. eexists. split; [done|].
    destruct (is_active_primer m); by repeat split.
Qed.

(** *** The ingestion worker (server.py) *)

(** After the start-up reset no job is [processing]: every job that was is
    [pending] again, with its text, TTL and creation time, and the other
    jobs are as they were. *)
Lemma reset_stale_no_processing (q : gmap UUID job) job_id :
  match q !! job_id with
  | Some j =>
      ∃ j', reset_stale q !! job_id = Some j'
            ∧ j_status j' ≠ processing
            ∧ (j_status j = processing → j' = with_status pending j)
            ∧ (j_status j ≠ processing → j' = j)
  | None => reset_stale q !! job_id = None
  end.
Proof.
  unfold reset_stale. rewrite lookup_fmap.
  destruct (q !! job_id) as [j|]; [|done]. simpl.
  eexists. split; [done|]. case_decide as Hs; simpl.
  - repeat split; try done.
  - repeat split; try done.
Qed.

#[global] Instance by_job_created_at_total : Total by_job_created_at.
Proof. intros a b. unfold by_job_created_at. lia. Qed.

#[global] Instance by_job_created_at_trans : Transitive by_job_created_at.
Proof. intros a b c. unfold by_job_created_at. lia. Qed.

(** The claim is first in, first out: nothing is claimed exactly when no
    job is pending; otherwise the claimed job was pending, no pending job
    is older, it is the only row that changes, and it becomes
    [processing]. *)
Lemma claim_job_spec (q : gmap UUID job) :
  match claim_job q with
  | (None, q') => q' = q ∧ ∀ id j, q !! id = Some j → j_status j ≠ pending
  | (Some (job_id, job), q') =>
      q !! job_id = Some job ∧ j_status job = pending
      ∧ (∀ id j, q !! id = Some j → j_status j = pending →
                 j_created_at job ≤ j_created_at j)%Z
      ∧ q' !! job_id = Some (with_status processing job)
      ∧ ∀ id, id ≠ job_id → q' !! id = q !! id
  end.
Proof.
  unfold claim_job.
  set (rows := filter (λ kv, j_status kv.2 = pending) (map_to_list q)).
  assert (∀ id j, (id, j) ∈ rows ↔ q !! id = Some j ∧ j_status j = pending) as Hrows.
  { intros id j. subst rows. rewrite list_elem_of_filter, elem_of_map_to_list.
    simpl. tauto. }
  pose proof (merge_sort_Permutation by_job_created_at rows) as Hp.
  pose proof (StronglySorted_merge_sort by_job_created_at rows) as Hs.
  destruct (merge_sort by_job_created_at rows) as [|[job_id job] rest]; simpl.
  - split; [done|]. intros id j Hj Hpend.
    assert ((id, j) ∈ rows) as Hin by (by apply Hrows).
    rewrite <- Hp in Hin. by apply elem_of_nil in Hin.
  - assert ((job_id, job) ∈ rows) as Hin by (rewrite <- Hp; by left).
    apply Hrows in Hin as [Hj Hpend].
    split; [done|]. split; [done|]. split; [|split].
    + intros id j Hj' Hpend'.
      assert ((id, j) ∈ rows) as Hin by (by apply Hrows).
      rewrite <- Hp in Hin. apply StronglySorted_cons in Hs as [Hall _].
      apply elem_of_cons in Hin as [[= -> ->]|Hin]; [lia|].
      rewrite Forall_forall in Hall. apply (Hall _ Hin).
    + by rewrite lookup_alter_eq, Hj.
    + intros id Hne. by rewrite lookup_alter_ne.
Qed.

(** X23: The claim is first in, first out: nothing is claimed exactly when no
    job is pending; otherwise the claimed job was pending, no pending job
    is older, it is the only row that changes, and it becomes
    [processing]. *)
Theorem claim_job_fifo (q : gmap UUID job) :
  match claim_job q with
  | (None, q') => q' = q ∧ ∀ id j, q !! id = Some j → j_status j ≠ pending
  | (Some (job_id, job), q') =>
      q !! job_id = Some job ∧ j_status job = pending
      ∧ (∀ id j, q !! id = Some j → j_status j = pending →
                 j_created_at job ≤ j_created_at j)%Z
      ∧ q' !! job_id = Some (with_status processing job)
      ∧ ∀ id, id ≠ job_id → q' !! id = q !! id
  end.
Proof. apply claim_job_spec. Qed.

Section WorkerFacts.
Variable py_lower : str → str.
Variable uuid5_oid : str → UUID.
Variable cosine_distance : embedding → embedding → pyfloat.
Variable embed_model : str → option embedding.
Variable segment_model : str → str → option (list section).
Variable arbitrate_model : str → str → option (option str * option str).
Variable primer_effect : bool → store → store.
Variable EMBED_DIM : nat.
Variables DUP_THRESHOLD CONFLICT_THRESHOLD RELATES_TO_THRESHOLD : pyfloat.
Variable MIN_SECTION_LENGTH : Z.
Variable MAX_TAXONOMY_PATHS : nat.
Variable str_of_error : py_error → str.

Abbreviation ingest :=
  (process_and_insert_memory py_lower uuid5_oid cosine_distance embed_model
     segment_model arbitrate_model primer_effect EMBED_DIM DUP_THRESHOLD
     CONFLICT_THRESHOLD RELATES_TO_THRESHOLD MIN_SECTION_LENGTH MAX_TAXONOMY_PATHS).

Lemma persist_item_staging now cur st item :
  ingestion_staging (persist_item cosine_distance RELATES_TO_THRESHOLD now (cur, st) item).2
  = ingestion_staging st.
Proof.
  destruct item as [id d|i]; [done|]. unfold persist_item.
  destruct (i_supersedes i), (prev_id cur) as [p|]; try done;
    by destruct (decide (p ≠ _)).
Qed.

Lemma persist_all_staging now st items :
  ingestion_staging (persist_all cosine_distance RELATES_TO_THRESHOLD now st items).2
  = ingestion_staging st.
Proof.
  rewrite persist_all_fold.
  generalize ({| first_id := None; prev_id := None |}).
  revert st. induction items as [|item items IH]; intros st cur; [done|].
  cbn [foldl].
  destruct (persist_item _ _ now (cur, st) item) as [cur' st'] eqn:E.
  rewrite IH. pose proof (persist_item_staging now cur st item) as H.
  by rewrite E in H.
Qed.

Lemma ingest_staging text ttl_days now st :
  (∀ b s, ingestion_staging (primer_effect b s) = ingestion_staging s) →
  ingestion_staging (ingest text ttl_days now st).1 = ingestion_staging st.
Proof.
  intros Hprimer.
  destruct (whole_run_unfold py_lower uuid5_oid cosine_distance embed_model
              segment_model arbitrate_model primer_effect EMBED_DIM DUP_THRESHOLD
              CONFLICT_THRESHOLD RELATES_TO_THRESHOLD MIN_SECTION_LENGTH
              MAX_TAXONOMY_PATHS text ttl_days now st)
    as (sections & _ & tr & r & _ & ->).
  destruct r as [[|item items]|e]; [done| |done].
  cbv zeta. cbn [fst]. by rewrite Hprimer, persist_all_staging.
Qed.

(** X24: One turn of the worker loop.  With no pending job the store is left
    as it is.  Otherwise only the claimed job changes in the queue: it
    ends [complete] when the run returned, and [failed] with the first
    1000 characters of the exception text when the run raised, and in
    that case the memories and the edges are those from before the turn.
    (The primer rebuild is assumed not to write to the queue.) *)
Theorem worker_iteration_outcome now st :
  (∀ b s, ingestion_staging (primer_effect b s) = ingestion_staging s) →
  let ingest :=
    process_and_insert_memory py_lower uuid5_oid cosine_distance embed_model
     segment_model arbitrate_model primer_effect EMBED_DIM DUP_THRESHOLD
     CONFLICT_THRESHOLD RELATES_TO_THRESHOLD MIN_SECTION_LENGTH MAX_TAXONOMY_PATHS in
  let st' := worker_iteration ingest str_of_error now st in
  match claim_job (ingestion_staging st) with
  | (None, _) => st' = st
  | (Some (job_id, job), q) =>
      let run := ingest (j_raw_text job) (j_ttl_days job) now (with_staging q st) in
      (∀ id, id ≠ job_id → ingestion_staging st' !! id = ingestion_staging st !! id)
      ∧ match run.2.2 with
        | Ok _ =>
            ingestion_staging st' !! job_id = Some (with_status complete job)
            ∧ memories st' = memories run.1
            ∧ memory_edges st' = memory_edges run.1
        | Raise job_exc =>
            ingestion_staging st' !! job_id
            = Some (with_failure (take 1000 (str_of_error job_exc)) job)
            ∧ (length (take 1000 (str_of_error job_exc)) ≤ 1000)%nat
            ∧ memories st' = memories st
            ∧ memory_edges st' = memory_edges st
        end
  end.
Proof.
  intros Hprimer ingest st'. subst st' ingest. unfold worker_iteration.
  pose proof (claim_job_spec (ingestion_staging st)) as Hc.
  destruct (claim_job (ingestion_staging st)) as [[[job_id job]|] q]; [|done].
  destruct Hc as (Hj & _ & _ & Hq & Hother). cbv zeta.
  pose proof (ingest_staging (j_raw_text job) (j_ttl_days job) now
                (with_staging q st) Hprimer) as Hst.
  pose proof (whole_run_raise_nothing py_lower uuid5_oid cosine_distance embed_model
                segment_model arbitrate_model primer_effect EMBED_DIM DUP_THRESHOLD
                CONFLICT_THRESHOLD RELATES_TO_THRESHOLD MIN_SECTION_LENGTH
                MAX_TAXONOMY_PATHS (j_raw_text job) (j_ttl_days job) now
                (with_staging q st)) as Hraise.
  destruct (ingest _ _ _ _) as [st1 [tr [fid|e]]]; cbn [fst snd] in *;
    unfold with_staging in *;
    cbn [ingestion_staging memories memory_edges] in *.
  - split.
    + intros id Hne. rewrite lookup_alter_ne by done. rewrite Hst. by apply Hother.
    + by rewrite lookup_alter_eq, Hst, Hq.
  - destruct (Hraise e eq_refl) as [-> _]. cbn. split.
    + intros id Hne. rewrite lookup_alter_ne by done. by apply Hother.
    + rewrite lookup_alter_eq, Hq. split; [done|]. split; [|done].
      rewrite length_take. lia.
Qed.
End WorkerFacts.

(** *** The context store (tools_context.py) *)

Lemma is_key_char_newline : is_key_char 10 = false.
Proof. done. Qed.

Lemma last_snoc_take {A} (l : list A) x :
  last l = Some x → l = take (length l - 1) l ++ [x].
Proof.
  destruct l as [|a l _] using rev_ind; [done|].
  rewrite last_snoc. intros [= ->].
  rewrite length_app. simpl.
  replace (length l + 1 - 1)%nat with (length l) by lia.
  by rewrite take_app_length.
Qed.

Lemma key_body_plain key :
  Forall (λ c, is_key_char c = true) key → key_body key = key.
Proof.
  intros Hall. unfold key_body. case_decide as Hl; [|done].
  apply last_Some_elem_of in Hl. rewrite Forall_forall in Hall.
  apply Hall in Hl. by rewrite is_key_char_newline in Hl.
Qed.

Lemma key_body_newline body : key_body (body ++ [10]) = body.
Proof.
  unfold key_body. rewrite last_snoc. rewrite decide_True by done.
  rewrite length_app. simpl.
  replace (length body + 1 - 1)%nat with (length body) by lia.
  by rewrite take_app_length.
Qed.

Lemma forallb_Forall_true {A} (f : A → bool) (l : list A) :
  forallb f l = true ↔ Forall (λ c, f c = true) l.
Proof.
  induction l as [|a l IH]; simpl; [by split|].
  rewrite andb_true_iff, Forall_cons, IH. done.
Qed.

(** X25: Which keys are accepted: the non-empty keys of at most
    [CONTEXT_MAX_KEY_LENGTH] characters that are 1 to 200 characters of
    [a-zA-Z0-9_.-], or such a word followed by one newline. *)
Theorem validate_key_accepted CONTEXT_MAX_KEY_LENGTH key :
  _validate_key CONTEXT_MAX_KEY_LENGTH key = None
  ↔ (length key ≤ CONTEXT_MAX_KEY_LENGTH)%nat
    ∧ ∃ body, (key = body ∨ key = body ++ [10])
              ∧ (1 ≤ length body ≤ 200)%nat
              ∧ Forall (λ c, is_key_char c = true) body.
Proof.
  unfold _validate_key, _VALID_KEY_RE_match. cbv zeta. split.
  - case_decide as Hk; [done|]. case_decide as Hlen; [done|].
    destruct (_ && _) eqn:Hm; [|done]. intros _.
    apply andb_prop in Hm as [Hb%bool_decide_eq_true_1 Hc%forallb_Forall_true].
    split; [lia|]. exists (key_body key). split; [|done].
    unfold key_body. case_decide as Hl; [|by left].
    right. by apply last_snoc_take.
  - intros (Hlen & body & Hkey & Hb & Hc).
    assert (key_body key = body) as Hbody.
    { destruct Hkey as [->| ->]; [by apply key_body_plain|apply key_body_newline]. }
    rewrite decide_False; [|destruct Hkey as [->| ->]; destruct body; simpl in *; [lia|done..]].
    rewrite decide_False by lia.
    rewrite Hbody, bool_decide_eq_true_2 by done.
    by rewrite (proj2 (forallb_Forall_true _ _) Hc).
Qed.

Section ContextStoreFacts.
Variable py_lower : str → str.
Variable CONTEXT_MAX_VALUE_LENGTH : nat.
Variable CONTEXT_MAX_KEY_LENGTH : nat.

Abbreviation set_context' := (set_context py_lower CONTEXT_MAX_VALUE_LENGTH CONTEXT_MAX_KEY_LENGTH).
Abbreviation get_context' := (get_context CONTEXT_MAX_KEY_LENGTH).
Abbreviation delete_context' := (delete_context CONTEXT_MAX_KEY_LENGTH).
Abbreviation extend_context_ttl' := (extend_context_ttl CONTEXT_MAX_KEY_LENGTH).
Abbreviation list_context_keys' := (list_context_keys py_lower).

Lemma set_context_cases key value ttl_hours scope now cs :
  match set_context' key value ttl_hours scope now cs with
  | (cs', inl _) => cs' = cs
  | (cs', inr (scope', expires_at)) =>
      _validate_key CONTEXT_MAX_KEY_LENGTH key = None
      ∧ (1 ≤ ttl_hours ≤ 720)%Z
      ∧ strip value ≠ []
      ∧ (length value ≤ CONTEXT_MAX_VALUE_LENGTH)%nat
      ∧ expires_at = (now + ttl_hours * HOUR)%Z
      ∧ scope' = clean_scope py_lower (if decide (scope = []) then lit "session" else scope)
      ∧ cs' = <[key := {| c_value := value; c_scope := scope';
                          c_created_at := if cs !! key is Some old
                                          then c_created_at old else now;
                          c_updated_at := now;
                          c_expires_at := expires_at |}]> cs
  end.
Proof.
  unfold set_context.
  destruct (_validate_key _ key); [done|].
  case_decide as Hv; [done|]. case_decide; [done|].
  case_decide; [done|]. case_decide; [done|]. cbv zeta.
  repeat split; try lia; try tauto.
Qed.

(** X26: Write then read.  A rejected write changes nothing.  An accepted one
    has a TTL of 1 to 720 hours, leaves every other key as it was, and is
    read back under the same key, with the value and the cleaned scope,
    at every instant before [now + ttl_hours]; from that instant on the
    key reads as [not_found]. *)
Theorem set_context_then_get key value ttl_hours scope now cs :
  match set_context py_lower CONTEXT_MAX_VALUE_LENGTH CONTEXT_MAX_KEY_LENGTH
          key value ttl_hours scope now cs with
  | (cs', inl _) => cs' = cs
  | (cs', inr (scope', expires_at)) =>
      (1 ≤ ttl_hours ≤ 720)%Z
      ∧ expires_at = (now + ttl_hours * HOUR)%Z
      ∧ (∀ k, k ≠ key → cs' !! k = cs !! k)
      ∧ ∀ now',
          if decide (now' < expires_at)%Z
          then ∃ row, get_context CONTEXT_MAX_KEY_LENGTH key now' cs' = inr row
                      ∧ c_value row = value ∧ c_scope row = scope'
                      ∧ c_updated_at row = now ∧ c_expires_at row = expires_at
          else get_context CONTEXT_MAX_KEY_LENGTH key now' cs' = inl not_found
  end.
Proof.
  pose proof (set_context_cases key value ttl_hours scope now cs) as H.
  destruct (set_context' _ _ _ _ _ _) as [cs' [e|[scope' expires_at]]]; [done|].
  destruct H as (Hk & Httl & _ & _ & Hexp & Hsc & ->).
  split; [done|]. split; [done|]. split.
  { intros k Hne. by rewrite lookup_insert_ne. }
  intros now'. unfold get_context. rewrite Hk, lookup_insert_eq. cbn.
  destruct (decide (now' < expires_at)%Z); [|done]. eexists. by split.
Qed.

Lemma merge_sort_fst_elem {A} `{Countable K} (R : K * A → K * A → Prop)
    `{∀ x y, Decision (R x y)} (l : list (K * A)) k :
  k ∈ (merge_sort R l).*1 ↔ k ∈ l.*1.
Proof. by rewrite (merge_sort_Permutation R l). Qed.

(** X27: Write then list: an accepted write is listed, before its expiry, both
    without a scope filter and under the scope that was passed to
    [set_context], whatever that scope was. *)
Theorem set_context_then_list key value ttl_hours scope now cs cs' scope' expires_at now' :
  set_context py_lower CONTEXT_MAX_VALUE_LENGTH CONTEXT_MAX_KEY_LENGTH
    key value ttl_hours scope now cs = (cs', inr (scope', expires_at)) →
  (now' < expires_at)%Z →
  key ∈ (list_context_keys py_lower None now' cs').*1
  ∧ key ∈ (list_context_keys py_lower (Some scope) now' cs').*1.
Proof.
  intros Hset Hnow.
  pose proof (set_context_cases key value ttl_hours scope now cs) as H.
  rewrite Hset in H. destruct H as (_ & _ & _ & _ & Hexp & Hsc & ->).
  set (row := {| c_value := value; c_scope := scope'; c_created_at := _;
                 c_updated_at := now; c_expires_at := expires_at |}).
  assert ((key, row) ∈ filter (λ kv : str * context_entry, (now' < c_expires_at kv.2)%Z)
                         (map_to_list (<[key := row]> cs))) as Hlive.
  { apply list_elem_of_filter. split; [done|].
    apply elem_of_map_to_list. by rewrite lookup_insert_eq. }
  unfold list_context_keys. cbv zeta. split.
  - rewrite merge_sort_fst_elem. by apply (list_elem_of_fmap_2 fst) in Hlive.
  - rewrite merge_sort_fst_elem. destruct scope as [|c s].
    + by apply (list_elem_of_fmap_2 fst) in Hlive.
    + apply list_elem_of_fmap. exists (key, row). split; [done|].
      apply list_elem_of_filter. split; [|done].
      simpl. rewrite Hsc. by rewrite decide_False.
Qed.

Lemma extend_context_ttl_cases key additional_hours now cs :
  match extend_context_ttl' key additional_hours now cs with
  | (cs', inl _) => cs' = cs
  | (cs', inr expires_at) =>
      _validate_key CONTEXT_MAX_KEY_LENGTH key = None
      ∧ (1 ≤ additional_hours)%Z
      ∧ ∃ row, cs !! key = Some row ∧ (now < c_expires_at row)%Z
          ∧ expires_at = Z.min (c_expires_at row + additional_hours * HOUR)
                               (now + 720 * HOUR)
          ∧ cs' = <[key := {| c_value := c_value row; c_scope := c_scope row;
                              c_created_at := c_created_at row;
                              c_updated_at := now;
                              c_expires_at := expires_at |}]> cs
  end.
Proof.
  unfold extend_context_ttl.
  destruct (_validate_key _ key); [done|].
  case_decide; [done|].
  destruct (cs !! key) as [row|] eqn:Hrow; [|done].
  case_decide; [|done]. cbv zeta.
  split; [done|]. split; [lia|]. by exists row.
Qed.

(** X28: The 720-hour cap is an invariant of the store: [set_context],
    [extend_context_ttl] and [delete_context] keep every entry's expiry
    within 720 hours of its last write. *)
Theorem ttl_capped_preserved cs :
  ttl_capped cs →
  (∀ key value ttl_hours scope now,
     ttl_capped (set_context py_lower CONTEXT_MAX_VALUE_LENGTH CONTEXT_MAX_KEY_LENGTH
                   key value ttl_hours scope now cs).1)
  ∧ (∀ key additional_hours now,
       ttl_capped (extend_context_ttl CONTEXT_MAX_KEY_LENGTH
                     key additional_hours now cs).1)
  ∧ (∀ key, ttl_capped (delete_context CONTEXT_MAX_KEY_LENGTH key cs).1).
Proof.
  intros Hcap. split; [|split].
  - intros key value ttl_hours scope now.
    pose proof (set_context_cases key value ttl_hours scope now cs) as H.
    destruct (set_context' _ _ _ _ _ _) as [cs' [e|[scope' expires_at]]];
      simpl; [by subst|].
    destruct H as (_ & Httl & _ & _ & -> & _ & ->).
    intros k row. destruct (decide (k = key)) as [->|Hne].
    + rewrite lookup_insert_eq. intros [= <-]. simpl. unfold HOUR. lia.
    + rewrite lookup_insert_ne by done. apply Hcap.
  - intros key additional_hours now.
    pose proof (extend_context_ttl_cases key additional_hours now cs) as H.
    destruct (extend_context_ttl' _ _ _ _) as [cs' [e|expires_at]];
      simpl; [by subst|].
    destruct H as (_ & _ & row & _ & _ & -> & ->).
    intros k row'. destruct (decide (k = key)) as [->|Hne].
    + rewrite lookup_insert_eq. intros [= <-]. simpl. lia.
    + rewrite lookup_insert_ne by done. apply Hcap.
  - intros key. unfold delete_context.
    destruct (_validate_key _ key); [done|]. simpl.
    intros k row Hk. apply lookup_delete_Some in Hk as [_ Hk]. by eapply Hcap.
Qed.

(** X29: An extension is clamped, never a cut: for an entry under the cap that
    was last written no later than [now], the new expiry is the old one
    plus the hours asked for or [now] plus 720 hours, whichever is
    earlier, and it is never before the old expiry.  An entry that has
    expired is [not_found] and stays as it is, whether or not the daemon
    has deleted it yet. *)
Theorem extend_context_ttl_clamped key additional_hours now cs :
  ttl_capped cs →
  (∀ row, cs !! key = Some row → (c_updated_at row ≤ now)%Z) →
  match extend_context_ttl CONTEXT_MAX_KEY_LENGTH key additional_hours now cs with
  | (cs', inl _) => cs' = cs
  | (cs', inr expires_at) =>
      ∃ row, get_context CONTEXT_MAX_KEY_LENGTH key now cs = inr row
        ∧ (c_expires_at row ≤ expires_at ≤ now + 720 * HOUR)%Z
        ∧ (expires_at ≤ c_expires_at row + additional_hours * HOUR)%Z
        ∧ (expires_at = (c_expires_at row + additional_hours * HOUR)%Z
           ∨ expires_at = (now + 720 * HOUR)%Z)
        ∧ ∃ row', cs' !! key = Some row'
            ∧ c_expires_at row' = expires_at ∧ c_value row' = c_value row
            ∧ c_created_at row' = c_created_at row
  end.
Proof.
  intros Hcap Hclock.
  pose proof (extend_context_ttl_cases key additional_hours now cs) as H.
  destruct (extend_context_ttl' _ _ _ _) as [cs' [e|expires_at]]; [done|].
  destruct H as (Hk & Hh & row & Hrow & Hlive & -> & ->).
  exists row. unfold get_context. rewrite Hk, Hrow, decide_True by done.
  split; [done|].
  pose proof (Hcap _ _ Hrow). pose proof (Hclock _ Hrow).
  assert (0 < HOUR)%Z by done.
  split; [nia|]. split; [lia|]. split; [lia|].
  eexists. rewrite lookup_insert_eq. by split.
Qed.

(** X30: The daemon's purge is invisible to readers: at any instant from the
    purge on, every key reads the same with and without it. *)
Theorem purge_context_invisible key now now' st :
  (now ≤ now')%Z →
  get_context CONTEXT_MAX_KEY_LENGTH key now'
    (context_store (purge_context now st).2)
  = get_context CONTEXT_MAX_KEY_LENGTH key now' (context_store st).
Proof.
  intros Hnow. unfold get_context, purge_context. cbn [snd context_store].
  destruct (_validate_key _ key); [done|].
  destruct (context_store st !! key) as [row|] eqn:Hrow.
  - destruct (decide (c_expires_at row < now)%Z) as [Hexp|Hexp].
    + rewrite map_lookup_filter_None_2; [by rewrite decide_False by lia|].
      right. intros row' Hrow'. simpl. rewrite Hrow in Hrow'.
      injection Hrow' as <-. intros Hn. by apply Hn.
    + erewrite map_lookup_filter_Some_2; [done|done|]. by simpl.
  - rewrite map_lookup_filter_None_2; [done|]. by left.
Qed.
End ContextStoreFacts.

(** *** Concrete instances *)

Lemma persist_all_keeps_rows_witness :
  ∃ m', memories (persist_all demo_distance (FFin 0.65) 2000 profile_store
                    [Insertion (fresh_insertion text_a (lit "projects.billing"))]).2
          !! demo_id text_x = Some m'
        ∧ same_record (demo_memory text_x 0.5 identity_path 1000) m'.
Proof.
  apply (persist_all_keeps_rows demo_distance (FFin 0.65) 2000 profile_store
           [Insertion (fresh_insertion text_a (lit "projects.billing"))]
           (demo_id text_x) (demo_memory text_x 0.5 identity_path 1000)).
  vm_compute. reflexivity.
Defined.

Lemma edges_closed_linked_store : edges_closed linked_store.
Proof.
  intros e He. unfold linked_store in He. cbn [memory_edges] in He.
  apply elem_of_union in He as [->%elem_of_singleton| ->%elem_of_singleton];
    split; vm_compute; eexists; reflexivity.
Qed.

Lemma persist_all_edges_closed_witness :
  edges_closed linked_store
  ∧ edges_closed
      (persist_all demo_distance (FFin 0.65) 2000 linked_store
         [Insertion (fresh_insertion text_a (lit "projects.billing"))]).2.
Proof.
  split; [exact edges_closed_linked_store|].
  apply (persist_all_edges_closed demo_distance (FFin 0.65) 2000 linked_store).
  exact edges_closed_linked_store.
Defined.

Lemma persist_item_fresh_idempotent_witness :
  let i := fresh_insertion text_a (lit "projects.billing") in
  persist_item demo_distance (FFin 0.65) 2000
    (persist_item demo_distance (FFin 0.65) 2000 (no_cursor, profile_store) (Insertion i))
    (Insertion i)
  = persist_item demo_distance (FFin 0.65) 2000 (no_cursor, profile_store) (Insertion i).
Proof.
  apply (persist_item_fresh_idempotent demo_distance (FFin 0.65) 2000 no_cursor
           profile_store (fresh_insertion text_a (lit "projects.billing"))).
  reflexivity.
Defined.

Lemma whole_run_raise_writes_nothing_witness :
  (demo_ingest only_short_model text_a None 2000 profile_store).1 = profile_store
  ∧ (ValueError_NoSections = EmbedError
     ∨ ValueError_NoSections = TypeError_NoneSubscript
     ∨ ValueError_NoSections = ValueError_NoSections).
Proof.
  apply (whole_run_raise_writes_nothing ascii_lower demo_uuid5 demo_distance
           demo_embed only_short_model demo_arbiter (λ _ st, st) 1
           (FFin 0.95) (FFin 0.55) (FFin 0.65) 100 40 text_a None 2000
           profile_store ValueError_NoSections).
  vm_compute. reflexivity.
Defined.

Lemma whole_run_returned_id_stored_witness :
  is_Some (memories (demo_ingest three_sections_model text_a None 2000 profile_store).1
             !! demo_id text_a).
Proof.
  apply (whole_run_returned_id_stored ascii_lower demo_uuid5 demo_distance
           demo_embed three_sections_model demo_arbiter (λ _ st, st) 1
           (FFin 0.95) (FFin 0.55) (FFin 0.65) 100 40 text_a None 2000
           profile_store _
           (demo_ingest three_sections_model text_a None 2000 profile_store).2.1
           (demo_id text_a)).
  - intros b s id H. exact H.
  - vm_compute. reflexivity.
Defined.

Lemma confirm_restarts_ttl_witness :
  ∃ row', memories (confirm_memory_validity noon_day3 (demo_id lisbon) ttl_store).1
            !! demo_id lisbon = Some row'
          ∧ m_updated_at row' = noon_day3
          ∧ ttl_elapsed (noon_day3 + DAY)%Z row' = false
          ∧ memories (soft_archive (noon_day3 + DAY)%Z
                        (confirm_memory_validity noon_day3 (demo_id lisbon) ttl_store).1).2
              !! demo_id lisbon = Some row'.
Proof.
  eapply (confirm_restarts_ttl noon_day3 (demo_id lisbon) ttl_store _ _ ttl_memory
            1%Z (noon_day3 + DAY)%Z).
  - vm_compute. reflexivity.
  - vm_compute. reflexivity.
  - reflexivity.
  - vm_compute. discriminate.
Defined.

Lemma primer_transaction_single_active_witness :
  primer_transaction 2 (lit "# System Primer") [FFin 0] 2000 primer_rows !! 2
  = Some (demo_memory (lit "# System Primer") 0 PRIMER_PATH 2000)
  ∧ (2 : UUID) = 2.
Proof.
  split; [vm_compute; reflexivity|].
  apply (primer_transaction_single_active 2 (lit "# System Primer") [FFin 0] 2000
           primer_rows 2 (demo_memory (lit "# System Primer") 0 PRIMER_PATH 2000)).
  - vm_compute. reflexivity.
  - vm_compute. reflexivity.
Defined.

Lemma primer_transaction_keeps_rows_witness :
  ∃ m', primer_transaction 2 (lit "# System Primer") [FFin 0] 2000 primer_rows !! 1
        = Some m'
        ∧ m_embedding m' = m_embedding old_primer
        ∧ m_category_path m' = m_category_path old_primer
        ∧ m_created_at m' = m_created_at old_primer
        ∧ ((1 : UUID) ≠ 2 → same_record old_primer m').
Proof.
  apply (primer_transaction_keeps_rows 2 (lit "# System Primer") [FFin 0] 2000
           primer_rows 1 old_primer).
  vm_compute. reflexivity.
Defined.

Lemma worker_iteration_outcome_witness :
  let ingest := demo_ingest three_sections_model in
  let st' := worker_iteration ingest demo_str_of_error 2000%Z queued_store in
  match claim_job (ingestion_staging queued_store) with
  | (None, _) => st' = queued_store
  | (Some (job_id, job), q) =>
      let run := ingest (j_raw_text job) (j_ttl_days job) 2000%Z
                   (with_staging q queued_store) in
      (∀ id, id ≠ job_id →
             ingestion_staging st' !! id = ingestion_staging queued_store !! id)
      ∧ match run.2.2 with
        | Ok _ =>
            ingestion_staging st' !! job_id = Some (with_status complete job)
            ∧ memories st' = memories run.1
            ∧ memory_edges st' = memory_edges run.1
        | Raise job_exc =>
            ingestion_staging st' !! job_id
            = Some (with_failure (take 1000 (demo_str_of_error job_exc)) job)
            ∧ (length (take 1000 (demo_str_of_error job_exc)) ≤ 1000)%nat
            ∧ memories st' = memories queued_store
            ∧ memory_edges st' = memory_edges queued_store
        end
  end.
Proof.
  apply (worker_iteration_outcome ascii_lower demo_uuid5 demo_distance
           demo_embed three_sections_model demo_arbiter (λ _ st, st) 1
           (FFin 0.95) (FFin 0.55) (FFin 0.65) 100 40 demo_str_of_error
           2000 queued_store).
  intros b s. reflexivity.
Defined.

Lemma set_context_then_list_witness :
  let cs' := (set_context ascii_lower 100 20 (lit "notes") (lit "remember the milk")
                24 (lit "  Task ") 2000 plan_context).1 in
  lit "notes" ∈ (list_context_keys ascii_lower None (2000 + HOUR)%Z cs').*1
  ∧ lit "notes" ∈ (list_context_keys ascii_lower (Some (lit "  Task "))
                     (2000 + HOUR)%Z cs').*1.
Proof.
  apply (set_context_then_list ascii_lower 100 20 (lit "notes")
           (lit "remember the milk") 24 (lit "  Task ") 2000 plan_context
           _ (lit "task") (2000 + 24 * HOUR)%Z (2000 + HOUR)%Z).
  - vm_compute. reflexivity.
  - vm_compute. reflexivity.
Defined.

Lemma ttl_capped_plan_context : ttl_capped plan_context.
Proof.
  intros key row Hk. unfold plan_context in Hk.
  apply lookup_singleton_Some in Hk as [_ <-].
  vm_compute. discriminate.
Qed.

Lemma ttl_capped_preserved_witness :
  ttl_capped plan_context
  ∧ (∀ key value ttl_hours scope now,
       ttl_capped (set_context ascii_lower 100 20 key value ttl_hours scope now
                     plan_context).1)
  ∧ (∀ key additional_hours now,
       ttl_capped (extend_context_ttl 20 key additional_hours now plan_context).1)
  ∧ (∀ key, ttl_capped (delete_context 20 key plan_context).1).
Proof.
  split; [exact ttl_capped_plan_context|].
  apply (ttl_capped_preserved ascii_lower 100 20 plan_context).
  exact ttl_capped_plan_context.
Defined.

Lemma extend_context_ttl_clamped_witness :
  match extend_context_ttl 20 plan_key 1000 (1000 + HOUR)%Z plan_context with
  | (cs', inl _) => cs' = plan_context
  | (cs', inr expires_at) =>
      ∃ row, get_context 20 plan_key (1000 + HOUR)%Z plan_context = inr row
        ∧ (c_expires_at row ≤ expires_at ≤ (1000 + HOUR) + 720 * HOUR)%Z
        ∧ (expires_at ≤ c_expires_at row + 1000 * HOUR)%Z
        ∧ (expires_at = (c_expires_at row + 1000 * HOUR)%Z
           ∨ expires_at = ((1000 + HOUR) + 720 * HOUR)%Z)
        ∧ ∃ row', cs' !! plan_key = Some row'
            ∧ c_expires_at row' = expires_at ∧ c_value row' = c_value row
            ∧ c_created_at row' = c_created_at row
  end.
Proof.
  apply (extend_context_ttl_clamped 20 plan_key 1000 (1000 + HOUR)%Z plan_context).
  - exact ttl_capped_plan_context.
  - intros row Hrow. unfold plan_context in Hrow.
    apply lookup_singleton_Some in Hrow as [_ <-].
    vm_compute. discriminate.
Defined.

Lemma purge_context_invisible_witness :
  get_context 20 plan_key (1000 + 30 * HOUR)%Z
    (context_store (purge_context (1000 + 25 * HOUR)%Z plan_store).2)
  = get_context 20 plan_key (1000 + 30 * HOUR)%Z (context_store plan_store).
Proof.
  apply (purge_context_invisible 20 plan_key (1000 + 25 * HOUR)%Z
           (1000 + 30 * HOUR)%Z plan_store).
  vm_compute. discriminate.
Defined.
